(** * Jishaku: a shallow embedding of [jishaku/cog.py] and [jishaku/modules.py]

    The cog is a set of command handlers that mutate one extension
    instance and talk to the host bot.  Handlers are embedded as
    computations in a small state-and-exception monad over a [World]
    holding the cog instance, the store of [Scope] objects, the messages
    sent so far and the task handles that were cancelled. *)

From Stdlib Require Import ZArith Lia List String Ascii DecimalString Sorted.
From stdpp Require Import gmap strings list fin_maps.

Open Scope Z_scope.

(** ** Python strings

    A Python [str] is a sequence of code points; [len] counts them. *)

Abbreviation pystr := (list N).

Definition lit (s : string) : pystr := map N_of_ascii (list_ascii_of_string s).
Arguments lit : simpl never.

Definition len {A} (l : list A) : Z := Z.of_nat (length l).

(** [str(n)] for an integer. *)
Definition str_of_Z (z : Z) : pystr := lit (NilZero.string_of_int (Z.to_int z)).

(** [sep.join(parts)] *)
Fixpoint join (sep : pystr) (parts : list pystr) : pystr :=
  match parts with
  | [] => []
  | [p] => p
  | p :: rest => p ++ sep ++ join sep rest
  end.

(** [s.startswith(p)] *)
Fixpoint startswith (s p : pystr) : bool :=
  match p, s with
  | [], _ => true
  | c :: p', d :: s' => if N.eqb c d then startswith s' p' else false
  | _ :: _, [] => false
  end.

(** [s.endswith(p)] *)
Definition endswith (s p : pystr) : bool := startswith (rev s) (rev p).

(** [s[:-n]] *)
Definition drop_end {A} (n : nat) (s : list A) : list A :=
  firstn (length s - n) s.

(** [s.split(sep)] for a one-character separator. *)
Fixpoint split_on (sep : N) (s : pystr) : list pystr :=
  match s with
  | [] => [[]]
  | c :: s' =>
      if N.eqb c sep then [] :: split_on sep s'
      else match split_on sep s' with
           | [] => [[c]]
           | w :: ws => (c :: w) :: ws
           end
  end.

(** [s.replace(old, new)]: occurrences of [old] are replaced left to right,
    without overlap.  With an empty [old], Python inserts [new] before every
    character and at the end. *)
Fixpoint replace_nonempty (old new : pystr) (s : pystr) (skip : nat) : pystr :=
  match s with
  | [] => []
  | c :: s' =>
      match skip with
      | S k => replace_nonempty old new s' k
      | O =>
          if startswith s old
          then new ++ replace_nonempty old new s' (length old - 1)
          else c :: replace_nonempty old new s' 0
      end
  end.

Definition replace (s old new : pystr) : pystr :=
  match old with
  | [] => new ++ flat_map (fun c => c :: new) s
  | _ :: _ => replace_nonempty old new s 0
  end.

(** Code points for which [str.isspace] holds. *)
Definition isspace (c : N) : bool :=
  ((9 <=? c) && (c <=? 13) || (28 <=? c) && (c <=? 32)
   || (c =? 133) || (c =? 160) || (c =? 5760)
   || (8192 <=? c) && (c <=? 8202)
   || (c =? 8232) || (c =? 8233) || (c =? 8239) || (c =? 8287)
   || (c =? 12288))%N.

(** [s.strip()] *)
Fixpoint lstrip (s : pystr) : pystr :=
  match s with
  | c :: s' => if isspace c then lstrip s' else s
  | [] => []
  end.

Definition strip (s : pystr) : pystr := rev (lstrip (rev (lstrip s))).

(** The zero-width space, U+200B. *)
Definition ZWSP : pystr := [8203%N].

(** ** Host objects *)

Definition User := nat.
Definition Guild := nat.
(** An [asyncio.Task], identified by its identity. *)
Definition Task := nat.

(** The part of a [commands.Context] the cog reads. *)
Record Context := {
  ctx_author : User;
  ctx_guild : option Guild;
  ctx_qualified_name : pystr;   (* ctx.command.qualified_name *)
  ctx_created_at : pystr;       (* ctx.message.created_at.strftime(...) *)
}.

#[global] Instance Context_eq_dec : EqDecision Context.
Proof. solve_decision. Defined.

(** [CommandTask = collections.namedtuple("CommandTask", "index ctx task")] *)
Record CommandTask := {
  index : Z;
  ctx : Context;
  task : Task;
}.

#[global] Instance CommandTask_eq_dec : EqDecision CommandTask.
Proof. solve_decision. Defined.

(** The part of the bot the cog reads: the loaded extensions, in the order
    of the [bot.extensions] dictionary, and the HTTP token. *)
Record Bot := {
  extensions : list pystr;
  http_token : pystr;
}.

(** ** Paginators *)

(** Modelled from the spec: the paginator classes ([commands.Paginator] and
    the [jishaku.paginators] subclasses) are not part of the sources.  A
    paginator holds finished pages and a current page, each a sequence of
    whole lines, and a running character count of the current page; adding a
    line first rolls over to a new page when the line would push the page
    past [max_size], unless the page holds no line yet. *)
Record Paginator := {
  prefix : option pystr;
  suffix : option pystr;
  max_size : Z;
  _pages : list (list pystr);
  _current_page : list pystr;
  _count : Z;
}.

Definition opt_len (o : option pystr) : Z :=
  match o with Some s => len s | None => 0 end.

Definition start_count (pre : option pystr) : Z :=
  match pre with Some s => len s + 1 | None => 0 end.

(** Modelled from the spec: the page size of a paginator built without
    [max_size] is not in the sources; the spec gives 2000 as the largest
    page size. *)
Definition DEFAULT_MAX_SIZE : Z := 2000.

Definition mkPaginator (pre suf : option pystr) (size : Z) : Paginator :=
  {| prefix := pre; suffix := suf; max_size := size;
     _pages := []; _current_page := []; _count := start_count pre |}.

Definition close_page (p : Paginator) : Paginator :=
  {| prefix := prefix p; suffix := suffix p; max_size := max_size p;
     _pages := _pages p ++ [_current_page p];
     _current_page := []; _count := start_count (prefix p) |}.

Definition add_line (p : Paginator) (line : pystr) : Paginator :=
  let p := if _count p + len line + 1 >? max_size p - opt_len (suffix p)
           then match _current_page p with
                | [] => p
                | _ :: _ => close_page p
                end
           else p in
  {| prefix := prefix p; suffix := suffix p; max_size := max_size p;
     _pages := _pages p;
     _current_page := _current_page p ++ [line];
     _count := _count p + len line + 1 |}.

(** Modelled from the spec: [WrappedPaginator.add_line] is not part of the
    sources.  Text longer than a page can hold is split at its line
    boundaries and goes on the pages line by line; text that fits on a page
    is added as it is. *)
Definition wrapped_add_line (p : Paginator) (text : pystr) : Paginator :=
  if start_count (prefix p) + len text + 1 >? max_size p - opt_len (suffix p)
  then fold_left add_line (split_on 10%N text) p
  else add_line p text.

(** The pages as sequences of lines: the finished ones, then the current
    one when it holds a line. *)
Definition page_lines (p : Paginator) : list (list pystr) :=
  match _current_page p with
  | [] => _pages p
  | _ :: _ => _pages p ++ [_current_page p]
  end.

Definition opt_list (o : option pystr) : list pystr :=
  match o with Some s => [s] | None => [] end.

(** One rendered page: prefix, lines and suffix joined by newlines. *)
Definition render_page (p : Paginator) (lines : list pystr) : pystr :=
  join (lit (String "010"%char EmptyString))
       (opt_list (prefix p) ++ lines ++ opt_list (suffix p)).

(** [paginator.pages] *)
Definition pages (p : Paginator) : list pystr :=
  map (render_page p) (page_lines p).

(** The number of characters a sequence of lines takes, one newline each. *)
Definition text_size (lines : list pystr) : Z :=
  fold_right (fun l acc => len l + 1 + acc) 0 lines.

(** ** Values, scopes and the cog instance *)

(** The Python objects a REPL run can produce, as far as [jsk py] tells them
    apart: [None], files, embeds, paginator interfaces, strings, and any
    other object. *)
Inductive Value :=
| VNone
| VFile (name : pystr)
| VEmbed (title : pystr)
| VInterface (p : Paginator) (owner : User)
| VStr (s : pystr)
| VObj (id : nat).

(** Modelled from the spec: the [Scope] class of [jishaku.repl] is not part
    of the sources.  A scope is a mutable mapping from identifier to value;
    [Scope()] is the empty one. *)
Abbreviation Scope := (gmap pystr Value).

(** Modelled from the spec: [Scope.clear_intersection] is not part of the
    sources.  It clears the scope of just the injected variables, the keys
    of the mapping it is given. *)
Definition clear_intersection (scope : Scope) (arg_dict : gmap pystr Value) : Scope :=
  filter (fun kv => kv.1 ∉ dom arg_dict) scope.

(** Scope objects live in a store and are referred to by their position in
    it, so that two holders of the same scope see each other's writes. *)
Definition ScopeRef := nat.

(** The attributes set by [Jishaku.__init__]. *)
Record Jishaku := {
  bot : Bot;
  _scope : ScopeRef;
  retain : bool;
  last_result : Value;
  tasks : list CommandTask;
  task_count : Z;
  SCOPE_PREFIX : pystr;
}.

(** What a command leaves behind in a channel. *)
Inductive Sent :=
| Message (content : pystr)                 (* ctx.send(content) *)
| FileMessage (name : pystr)                (* ctx.send(file=...) *)
| EmbedMessage (title : pystr)              (* ctx.send(embed=...) *)
| Interface (p : Paginator) (owner : User). (* PaginatorInterface(...).send_to(ctx) *)

(** What the commands act on: the cog instance, the store of scope objects,
    what has been sent and the task handles that have been cancelled. *)
Record World := {
  cog : Jishaku;
  heap : list Scope;
  outbox : list Sent;
  cancelled : list Task;
}.

(** ** Exceptions and the command monad *)

(** The exceptions of the model: the rejection of [cog_check], the
    cancellation of a task, and any other exception, known by its formatted
    traceback. *)
Inductive PyExc :=
| NotOwner (message : pystr)
| CancelledError
| Exc (traceback : pystr).

(** How a block of code ends. *)
Inductive Outcome (A : Type) :=
| Ret (a : A)
| Raise (e : PyExc).
Arguments Ret {A} a.
Arguments Raise {A} e.

(** A command takes a world to the way it ends, returning or raising, and
    the world it leaves. *)
Definition Cmd (A : Type) : Type := World -> Outcome A * World.

Definition ret {A} (a : A) : Cmd A := fun w => (Ret a, w).

Definition raise {A} (e : PyExc) : Cmd A := fun w => (Raise e, w).

Definition bind {A B} (m : Cmd A) (k : A -> Cmd B) : Cmd B :=
  fun w =>
    match m w with
    | (Ret a, w') => k a w'
    | (Raise e, w') => (Raise e, w')
    end.

Notation "'do' x <- m ; k" := (bind m (fun x => k))
  (at level 10, x name, m at level 100, k at level 200).
Notation "'do_' m ; k" := (bind m (fun _ => k))
  (at level 10, m at level 100, k at level 200).

(** [try: body finally: cleanup] *)
Definition try_finally {A} (body : Cmd A) (cleanup : Cmd unit) : Cmd A :=
  fun w =>
    match body w with
    | (o, w') =>
        match cleanup w' with
        | (Ret _, w'') => (o, w'')
        | (Raise e, w'') => (Raise e, w'')
        end
    end.

Definition get_cog : Cmd Jishaku := fun w => (Ret (cog w), w).

Definition put_cog (c : Jishaku) : Cmd unit :=
  fun w => (Ret tt, {| cog := c; heap := heap w; outbox := outbox w;
                       cancelled := cancelled w |}).

(** [await ctx.send(...)] and [await interface.send_to(ctx)] *)
Definition send (m : Sent) : Cmd unit :=
  fun w => (Ret tt, {| cog := cog w; heap := heap w; outbox := outbox w ++ [m];
                       cancelled := cancelled w |}).

(** [task.cancel()] *)
Definition cancel (t : Task) : Cmd unit :=
  fun w => (Ret tt, {| cog := cog w; heap := heap w; outbox := outbox w;
                       cancelled := cancelled w ++ [t] |}).

(** [Scope()]: a new, empty scope object. *)
Definition new_scope : Cmd ScopeRef :=
  fun w => (Ret (length (heap w)),
            {| cog := cog w; heap := heap w ++ [∅]; outbox := outbox w;
               cancelled := cancelled w |}).

(** Reading and replacing the contents of a scope object. *)
Definition read_scope (r : ScopeRef) : Cmd Scope :=
  fun w => (Ret (default ∅ (heap w !! r)), w).

Definition write_scope (r : ScopeRef) (s : Scope) : Cmd unit :=
  fun w => (Ret tt, {| cog := cog w; heap := <[r := s]> (heap w);
                       outbox := outbox w; cancelled := cancelled w |}).

(** ** The host framework and the modules outside the sources *)

(** What a run of [AsyncCodeExecutor] over a code block does: the values it
    yields, the contents it leaves in the scope it was given, and the
    exception it ends with, if any. *)
Record Execution := {
  yielded : list Value;
  final_scope : Scope;
  failure : option PyExc;
}.

(** What reading a file object for display gives: its text as lines with
    the language detected for highlighting, or no encoding, or a line span
    that cannot be used. *)
Inductive FileContent :=
| Decoded (language : pystr) (lines : list pystr)
| Undecodable
| BadSpan (message : pystr).

(** What opening a file and constructing a [WrappedFilePaginator] on it
    does: the paginator, or the exception raised, by the constructor or by
    [open] itself. *)
Inductive FilePaginatorResult :=
| FileOk (p : Paginator)
| UnicodeDecodeError
| ValueError (message : pystr)
| OpenError (exc : PyExc).

(** The part of an HTTP response [jsk curl] reads. *)
Record Response := {
  data : list N;
  content_type : pystr;
  status : Z;
}.

Class Host := {
  (** [bot.is_owner(user)] *)
  is_owner : Bot -> User -> bool;
  (** [jishaku.repl.get_var_dict_from_ctx] *)
  get_var_dict_from_ctx : Context -> pystr -> gmap pystr Value;
  (** [AsyncCodeExecutor(code, scope, arg_dict=arg_dict)], run to its end
      on the current contents of the scope *)
  AsyncCodeExecutor : pystr -> Scope -> gmap pystr Value -> Execution;
  (** [repr(value)] *)
  repr : Value -> pystr;
  (** [jishaku.repl.all_inspections] *)
  all_inspections : Value -> list (pystr * pystr);
  (** [bot.load_extension], [bot.reload_extension], [bot.unload_extension]:
      the bot afterwards and the exception raised, if any; the calls are
      synchronous and what they raise is an [Exception] *)
  load_extension : Bot -> pystr -> Bot * option PyExc;
  reload_extension : Bot -> pystr -> Bot * option PyExc;
  unload_extension : Bot -> pystr -> Bot * option PyExc;
  (** [''.join(traceback.format_exception(type(exc), exc, exc.__traceback__, 1))] *)
  format_exception : PyExc -> pystr;
  (** [os.path.exists], [os.path.isdir], [os.path.getsize], and what
      [open(path, 'rb')] does: the bytes of the file, or the exception it
      raises (an [OSError] for a file that cannot be opened) *)
  os_path_exists : pystr -> bool;
  os_path_isdir : pystr -> bool;
  os_path_getsize : pystr -> Z;
  read_file : pystr -> list N + PyExc;
  (** the encoding and language detection of [WrappedFilePaginator], from
      the bytes, the line span and the language hints *)
  decode_file :
    list N -> option (Z * Z) -> option (pystr * pystr) -> FileContent;
  (** [Jishaku.__cat_line_regex.search(argument)]: groups 1, 2 and 3, the
      last two already read as integers *)
  cat_line_regex_search : pystr -> option (pystr * option Z * option Z);
  (** [session.get(url)]: the response, or the exception raised *)
  http_get : pystr -> Response + PyExc;
  (** [ShellReader(code)]: the output chunks and the close code *)
  ShellReader : pystr -> list pystr * Z;
  (** whether the user has closed the shell interface when chunk [n] arrives *)
  interface_closed : nat -> bool;
  (** [bot.get_command(name)] followed by [inspect.getsourcelines]: [None]
      for an unknown command, else [str(command)] and its source lines,
      [None] when the source cannot be read *)
  get_command_source : Bot -> pystr -> option (pystr * option (list pystr));
  (** [bot.voice_clients], each as channel name, guild id and guild name *)
  voice_clients : Bot -> list (pystr * Z * pystr);
}.

(** ** [Jishaku]: construction, the scope property and the task registry *)

Definition set_retain (self : Jishaku) (b : bool) : Jishaku :=
  {| bot := bot self; _scope := _scope self; retain := b;
     last_result := last_result self; tasks := tasks self;
     task_count := task_count self; SCOPE_PREFIX := SCOPE_PREFIX self |}.

Definition set__scope (self : Jishaku) (r : ScopeRef) : Jishaku :=
  {| bot := bot self; _scope := r; retain := retain self;
     last_result := last_result self; tasks := tasks self;
     task_count := task_count self; SCOPE_PREFIX := SCOPE_PREFIX self |}.

Definition set_last_result (self : Jishaku) (v : Value) : Jishaku :=
  {| bot := bot self; _scope := _scope self; retain := retain self;
     last_result := v; tasks := tasks self;
     task_count := task_count self; SCOPE_PREFIX := SCOPE_PREFIX self |}.

Definition set_tasks (self : Jishaku) (ts : list CommandTask) : Jishaku :=
  {| bot := bot self; _scope := _scope self; retain := retain self;
     last_result := last_result self; tasks := ts;
     task_count := task_count self; SCOPE_PREFIX := SCOPE_PREFIX self |}.

Definition set_task_count (self : Jishaku) (n : Z) : Jishaku :=
  {| bot := bot self; _scope := _scope self; retain := retain self;
     last_result := last_result self; tasks := tasks self;
     task_count := n; SCOPE_PREFIX := SCOPE_PREFIX self |}.

Definition set_bot (self : Jishaku) (b : Bot) : Jishaku :=
  {| bot := b; _scope := _scope self; retain := retain self;
     last_result := last_result self; tasks := tasks self;
     task_count := task_count self; SCOPE_PREFIX := SCOPE_PREFIX self |}.

(** [Jishaku.__init__(bot, scope)], with the value of [JISHAKU_RETAIN]: the
    world of a freshly constructed cog. *)
Definition init (b : Bot) (scope_prefix : pystr) (JISHAKU_RETAIN : bool) : World :=
  {| cog := {| bot := b; _scope := 0%nat; retain := JISHAKU_RETAIN;
               last_result := VNone; tasks := []; task_count := 0;
               SCOPE_PREFIX := scope_prefix |};
     heap := [∅]; outbox := []; cancelled := [] |}.

(** The [scope] property. *)
Definition scope : Cmd ScopeRef :=
  do self <- get_cog;
  if retain self then ret (_scope self) else new_scope.

(** [deque.remove(x)]: drops the first element equal to [x]. *)
Fixpoint deque_remove (x : CommandTask) (l : list CommandTask) : list CommandTask :=
  match l with
  | [] => []
  | y :: l' => if decide (y = x) then l' else y :: deque_remove x l'
  end.

(** [submit], entering the [with] block: the part before [yield]. *)
Definition submit_enter (c : Context) (current_task : Task) : Cmd CommandTask :=
  do self <- get_cog;
  let self := set_task_count self (task_count self + 1) in
  let cmdtask := {| index := task_count self; ctx := c; task := current_task |} in
  do_ put_cog (set_tasks self (tasks self ++ [cmdtask]));
  ret cmdtask.

(** [submit], leaving the [with] block: the [finally] clause. *)
Definition submit_exit (cmdtask : CommandTask) : Cmd unit :=
  do self <- get_cog;
  if bool_decide (cmdtask ∈ tasks self)
  then put_cog (set_tasks self (deque_remove cmdtask (tasks self)))
  else ret tt.

(** [with self.submit(ctx): body] *)
Definition submit {A} (c : Context) (current_task : Task)
    (body : CommandTask -> Cmd A) : Cmd A :=
  do cmdtask <- submit_enter c current_task;
  try_finally (body cmdtask) (submit_exit cmdtask).

(** The rejection [cog_check] raises. *)
Definition not_owner : PyExc :=
  NotOwner (lit "You must own this bot to use Jishaku.").

Section Cog.
Context `{Host}.

(** [cog_check] *)
Definition cog_check (c : Context) : Cmd bool :=
  do self <- get_cog;
  if negb (is_owner (bot self) (ctx_author c))
  then raise not_owner
  else ret true.

(** How the framework runs a command of the cog: the cog check first, the
    command's callback only when the check returns. *)
Definition invoke {A} (c : Context) (callback : Context -> Cmd A) : Cmd A :=
  do_ cog_check c;
  callback c.

(** Modelled from the spec: [ReplResponseReactor] is not part of the
    sources.  An exception leaving the block is caught at the command
    boundary and posted as a reply, never propagated. *)
Definition ReplResponseReactor {A} (body : Cmd A) : Cmd (option A) :=
  fun w =>
    match body w with
    | (Ret a, w') => (Ret (Some a), w')
    | (Raise e, w') =>
        (do_ send (Message (format_exception e)); ret None) w'
    end.

(** The line [jsk tasks] and [jsk cancel] print for a task. *)
Definition describe_task (t : CommandTask) : pystr :=
  str_of_Z (index t) ++ lit ": `" ++ ctx_qualified_name (ctx t)
  ++ lit "`, invoked at " ++ ctx_created_at (ctx t) ++ lit " UTC".

(** [commands.Paginator(max_size=1985)] *)
Definition jsk_tasks_paginator : Paginator :=
  mkPaginator (Some (lit "```")) (Some (lit "```")) 1985.

(** [jsk tasks] *)
Definition jsk_tasks (c : Context) : Cmd unit :=
  do self <- get_cog;
  match tasks self with
  | [] => send (Message (lit "No currently running tasks."))
  | _ :: _ =>
      let paginator := jsk_tasks_paginator in
      let paginator := fold_left (fun p t => add_line p (describe_task t))
                                 (tasks self) paginator in
      send (Interface paginator (ctx_author c))
  end.

(** [discord.utils.get(tasks, index=index)]: the first task with that
    index, if there is one. *)
Definition utils_get (ts : list CommandTask) (i : Z) : option CommandTask :=
  find (fun t => index t =? i) ts.

(** The end of [jsk cancel]: cancel the task's handle and say so. *)
Definition cancel_and_report (t : CommandTask) : Cmd unit :=
  do_ cancel (task t);
  send (Message (lit "Cancelled task " ++ describe_task t)).

(** [jsk cancel] *)
Definition jsk_cancel (c : Context) (i : Z) : Cmd unit :=
  do self <- get_cog;
  match tasks self with
  | [] => send (Message (lit "No tasks to cancel."))
  | first :: _ =>
      if i =? -1
      then
        (* task = self.tasks.pop() *)
        let t := List.last (tasks self) first in
        do_ put_cog (set_tasks self (removelast (tasks self)));
        cancel_and_report t
      else
        match utils_get (tasks self) i with
        | Some t =>
            do_ put_cog (set_tasks self (deque_remove t (tasks self)));
            cancel_and_report t
        | None => send (Message (lit "Unknown task."))
        end
  end.

(** [jsk retain] *)
Definition jsk_retain (c : Context) (toggle : option bool) : Cmd unit :=
  do self <- get_cog;
  match toggle with
  | None =>
      if retain self
      then send (Message (lit "Variable retention is set to ON."))
      else send (Message (lit "Variable retention is set to OFF."))
  | Some true =>
      if retain self
      then send (Message (lit "Variable retention is already set to ON."))
      else
        do fresh <- new_scope;
        do_ put_cog (set__scope (set_retain self true) fresh);
        send (Message (lit "Variable retention is ON. Future REPL sessions will retain their scope."))
  | Some false =>
      if negb (retain self)
      then send (Message (lit "Variable retention is already set to OFF."))
      else
        do_ put_cog (set_retain self false);
        send (Message (lit "Variable retention is OFF. Future REPL sessions will dispose their scope when done."))
  end.

(** ** The REPL commands *)

(** [for x in xs: body(x)] *)
Fixpoint for_each {A} (xs : list A) (body : A -> Cmd unit) : Cmd unit :=
  match xs with
  | [] => ret tt
  | x :: xs' => do_ body x; for_each xs' body
  end.

(** [AsyncCodeExecutor(code, scope, arg_dict=arg_dict)] consumed by
    [async for send, result in AsyncSender(executor)]: the code writes to
    the scope object, every yielded value goes through the loop body, and
    the exception the code ends with, if any, leaves the loop. *)
Definition run_executor (code : pystr) (scope : ScopeRef)
    (arg_dict : gmap pystr Value) (loop_body : Value -> Cmd unit) : Cmd unit :=
  do s <- read_scope scope;
  let execution := AsyncCodeExecutor code s arg_dict in
  do_ write_scope scope (final_scope execution);
  do_ for_each (yielded execution) loop_body;
  match failure execution with
  | Some e => raise e
  | None => ret tt
  end.

(** [scope.clear_intersection(arg_dict)] on a scope object. *)
Definition scope_clear_intersection (scope : ScopeRef)
    (arg_dict : gmap pystr Value) : Cmd unit :=
  do s <- read_scope scope;
  write_scope scope (clear_intersection s arg_dict).

(** [arg_dict = get_var_dict_from_ctx(ctx, self.SCOPE_PREFIX)] followed by
    [arg_dict["_"] = self.last_result] *)
Definition make_arg_dict (self : Jishaku) (c : Context) : gmap pystr Value :=
  <[lit "_" := last_result self]> (get_var_dict_from_ctx c (SCOPE_PREFIX self)).

(** The paginator [jsk py] builds for a result of more than 2000 characters. *)
Definition jsk_python_paginator : Paginator :=
  mkPaginator (Some (lit "```py")) (Some (lit "```")) 1985.

(** The body of the loop of [jsk py], for one yielded value. *)
Definition jsk_python_result (c : Context) (result : Value) : Cmd unit :=
  match result with
  | VNone => ret tt
  | _ =>
      do self <- get_cog;
      do_ put_cog (set_last_result self result);
      match result with
      | VFile f => send (FileMessage f)
      | VEmbed e => send (EmbedMessage e)
      | VInterface p owner => send (Interface p owner)
      | _ =>
          let result := match result with VStr s => s | _ => repr result end in
          if len result >? 2000
          then
            let paginator := wrapped_add_line jsk_python_paginator result in
            send (Interface paginator (ctx_author c))
          else
            let result := if decide (strip result = []) then ZWSP else result in
            send (Message (match ctx_guild c with
                           | Some _ => replace result (http_token (bot self))
                                               (lit "[NO_TOKEN]")
                           | None => result
                           end))
      end
  end.

(** The [try] block of [jsk py]. *)
Definition jsk_python_try (c : Context) (current_task : Task) (argument : pystr)
    (scope : ScopeRef) (arg_dict : gmap pystr Value) : Cmd unit :=
  do_ ReplResponseReactor
        (submit c current_task (fun _ =>
           run_executor argument scope arg_dict (jsk_python_result c)));
  ret tt.

(** [jsk py] *)
Definition jsk_python (c : Context) (current_task : Task) (argument : pystr)
    : Cmd unit :=
  do self <- get_cog;
  let arg_dict := make_arg_dict self c in
  do scope <- scope;
  try_finally (jsk_python_try c current_task argument scope arg_dict)
              (scope_clear_intersection scope arg_dict).

(** [f"{name:16.16}"]: cut to 16 characters, then padded to 16. *)
Definition format_16 (name : pystr) : pystr :=
  let cut := firstn 16 name in
  cut ++ repeat 32%N (16 - length cut).

(** The paginator [jsk py_inspect] builds for a result. *)
Definition jsk_python_inspect_paginator (header : pystr) : Paginator :=
  let newline := lit (String "010"%char EmptyString) in
  mkPaginator (Some (lit "```prolog" ++ newline ++ lit "=== " ++ header
                     ++ lit " ===" ++ newline))
              (Some (lit "```")) 1985.

(** The body of the loop of [jsk py_inspect], for one yielded value. *)
Definition jsk_python_inspect_result (c : Context) (result : Value) : Cmd unit :=
  do self <- get_cog;
  do_ put_cog (set_last_result self result);
  let header := replace (replace (repr result) (lit "``") (lit "`" ++ ZWSP ++ lit "`"))
                        (http_token (bot self)) (lit "[token omitted]") in
  let header := if len header >? 485
                then firstn 482 header ++ lit "..." else header in
  let paginator :=
    fold_left (fun p '(name, res) => add_line p (format_16 name ++ lit " :: " ++ res))
              (all_inspections result) (jsk_python_inspect_paginator header) in
  send (Interface paginator (ctx_author c)).

(** The [try] block of [jsk py_inspect]. *)
Definition jsk_python_inspect_try (c : Context) (current_task : Task)
    (argument : pystr) (scope : ScopeRef) (arg_dict : gmap pystr Value) : Cmd unit :=
  do_ ReplResponseReactor
        (submit c current_task (fun _ =>
           run_executor argument scope arg_dict (jsk_python_inspect_result c)));
  ret tt.

(** [jsk py_inspect] *)
Definition jsk_python_inspect (c : Context) (current_task : Task)
    (argument : pystr) : Cmd unit :=
  do self <- get_cog;
  let arg_dict := make_arg_dict self c in
  do scope <- scope;
  try_finally (jsk_python_inspect_try c current_task argument scope arg_dict)
              (scope_clear_intersection scope arg_dict).

(** ** Extension management *)

Definition newline : pystr := lit (String "010"%char EmptyString).

(** The icons of the report lines, as code points. *)
Definition ICON_RELOAD : pystr := [128257%N].  (* CLOCKWISE RIGHTWARDS AND LEFTWARDS OPEN CIRCLE ARROWS *)
Definition ICON_INBOX : pystr := [128229%N].   (* INBOX TRAY *)
Definition ICON_OUTBOX : pystr := [128228%N].  (* OUTBOX TRAY *)
Definition WARNING_SIGN : pystr := [9888%N].   (* WARNING SIGN *)

(** The two kinds of report line. *)
Definition success_line (icon extension : pystr) : pystr :=
  icon ++ lit " `" ++ extension ++ lit "`".

Definition failure_line (icon extension traceback_data : pystr) : pystr :=
  icon ++ WARNING_SIGN ++ lit " `" ++ extension ++ lit "`" ++ newline
  ++ lit "```py" ++ newline ++ traceback_data ++ newline ++ lit "```".

(** [WrappedPaginator(prefix='', suffix='')] *)
Definition report_paginator : Paginator :=
  mkPaginator (Some []) (Some []) DEFAULT_MAX_SIZE.

(** One turn of the loop of [jsk load]. *)
Definition jsk_load_step (paginator : Paginator) (extension : pystr)
    : Cmd Paginator :=
  do self <- get_cog;
  let '(method, icon) :=
    if bool_decide (extension ∈ extensions (bot self))
    then (reload_extension, ICON_RELOAD)
    else (load_extension, ICON_INBOX) in
  let '(bot', raised) := method (bot self) extension in
  do_ put_cog (set_bot self bot');
  match raised with
  | Some exc =>
      let traceback_data := format_exception exc in
      ret (add_line paginator (failure_line icon extension traceback_data))
  | None => ret (add_line paginator (success_line icon extension))
  end.

(** One turn of the loop of [jsk unload]. *)
Definition jsk_unload_step (paginator : Paginator) (extension : pystr)
    : Cmd Paginator :=
  do self <- get_cog;
  let icon := ICON_OUTBOX in
  let '(bot', raised) := unload_extension (bot self) extension in
  do_ put_cog (set_bot self bot');
  match raised with
  | Some exc =>
      let traceback_data := format_exception exc in
      ret (add_line paginator (failure_line icon extension traceback_data))
  | None => ret (add_line paginator (success_line icon extension))
  end.

(** A loop that threads the paginator through its turns. *)
Fixpoint loop_with {A} (step : Paginator -> A -> Cmd Paginator)
    (xs : list A) (paginator : Paginator) : Cmd Paginator :=
  match xs with
  | [] => ret paginator
  | x :: xs' => do paginator <- step paginator x; loop_with step xs' paginator
  end.

(** The report of [jsk load] and [jsk unload], before it is sent. *)
Definition jsk_load_report (exts : list (list pystr)) : Cmd Paginator :=
  loop_with jsk_load_step (concat exts) report_paginator.

Definition jsk_unload_report (exts : list (list pystr)) : Cmd Paginator :=
  loop_with jsk_unload_step (concat exts) report_paginator.

(** [jsk load]; [exts] are the converted arguments, chained by the loop. *)
Definition jsk_load (c : Context) (exts : list (list pystr)) : Cmd unit :=
  do paginator <- jsk_load_report exts;
  for_each (pages paginator) (fun page => send (Message page)).

(** [jsk unload] *)
Definition jsk_unload (c : Context) (exts : list (list pystr)) : Cmd unit :=
  do paginator <- jsk_unload_report exts;
  for_each (pages paginator) (fun page => send (Message page)).

(** ** Filesystem and network commands *)

(** Modelled from the spec: [WrappedFilePaginator] is not part of the
    sources.  File content is decoded by best-effort encoding detection and
    refused with a decode error if no encoding can be determined; the text
    goes line by line into a paginator of the given size whose pages are
    code blocks in the detected language. *)
Definition WrappedFilePaginator (fp : list N) (line_span : option (Z * Z))
    (language_hints : option (pystr * pystr)) (size : Z) : FilePaginatorResult :=
  match decode_file fp line_span language_hints with
  | Decoded language lines =>
      FileOk (fold_left add_line lines
                (mkPaginator (Some (lit "```" ++ language)) (Some (lit "```")) size))
  | Undecodable => UnicodeDecodeError
  | BadSpan message => ValueError message
  end.

(** The paginators [jsk cat] and [jsk curl] construct. *)
Definition jsk_cat_paginator (path : pystr) (line_span : option (Z * Z))
    : FilePaginatorResult :=
  match read_file path with
  | inl file => WrappedFilePaginator file line_span None 1985
  | inr exc => OpenError exc
  end.

Definition jsk_curl_paginator (response : Response) (url : pystr)
    : FilePaginatorResult :=
  let hints := (content_type response, url) in
  WrappedFilePaginator (data response) None (Some hints) 1985.

(** [jsk cat] *)
Definition jsk_cat (c : Context) (argument : pystr) : Cmd unit :=
  match cat_line_regex_search argument with
  | None => send (Message (lit "Couldn't parse this input."))
  | Some (path, group2, group3) =>
      let line_span :=
        match group2 with
        | Some start => Some (start, default start group3)
        | None => None
        end in
      if negb (os_path_exists path) || os_path_isdir path
      then send (Message (lit "`" ++ path ++ lit "`: No file by that name."))
      else
        let size := os_path_getsize path in
        if size <=? 0
        then send (Message (lit "`" ++ path
               ++ lit "`: Cowardly refusing to read a file with no size stat"
               ++ lit " (it may be empty, endless or inaccessible)."))
        else if size >? 50 * 1024 ^ 2
        then send (Message (lit "`" ++ path
               ++ lit "`: Cowardly refusing to read a file >50MB."))
        else
          match jsk_cat_paginator path line_span with
          | UnicodeDecodeError =>
              send (Message (lit "`" ++ path
                ++ lit "`: Couldn't determine the encoding of this file."))
          | ValueError exc =>
              send (Message (lit "`" ++ path
                ++ lit "`: Couldn't read this file, " ++ exc))
          | OpenError exc => raise exc   (* no [except] clause takes it *)
          | FileOk paginator => send (Interface paginator (ctx_author c))
          end
  end.

(** [s.lstrip(chars)] and [s.rstrip(chars)] for a single character. *)
Fixpoint lstrip_char (ch : N) (s : pystr) : pystr :=
  match s with
  | c :: s' => if N.eqb c ch then lstrip_char ch s' else s
  | [] => []
  end.

Definition rstrip_char (ch : N) (s : pystr) : pystr :=
  rev (lstrip_char ch (rev s)).

(** [jsk curl] *)
Definition jsk_curl (c : Context) (url : pystr) : Cmd unit :=
  let url := rstrip_char 62%N (lstrip_char 60%N url) in
  do_ ReplResponseReactor
        (match http_get url with
         | inr exc => raise exc
         | inl response =>
             let code := status response in
             match data response with
             | [] => send (Message (lit "HTTP response was empty (status code "
                                    ++ str_of_Z code ++ lit ")."))
             | _ :: _ =>
                 match jsk_curl_paginator response url with
                 | UnicodeDecodeError =>
                     send (Message
                       (lit "Couldn't determine the encoding of the response. (status code "
                        ++ str_of_Z code ++ lit ")"))
                 | ValueError exc =>
                     send (Message (lit "Couldn't read response (status code "
                                    ++ str_of_Z code ++ lit "), " ++ exc))
                 | OpenError exc => raise exc   (* no file is opened here *)
                 | FileOk paginator => send (Interface paginator (ctx_author c))
                 end
             end
         end);
  ret tt.

(** [jsk source] *)
Definition jsk_source_paginator : Paginator :=
  mkPaginator (Some (lit "```py")) (Some (lit "```")) 1985.

Definition escape_markdown (line : pystr) : pystr :=
  let esc (ch : string) (l : pystr) := replace l (lit ch) (ZWSP ++ lit ch) in
  esc "_" (esc ">" (esc "|" (esc "*" (esc "`" line)))).

Definition jsk_source (c : Context) (command_name : pystr) : Cmd unit :=
  do self <- get_cog;
  match get_command_source (bot self) command_name with
  | None => send (Message (lit "Couldn't find command `" ++ command_name ++ lit "`."))
  | Some (command, None) =>
      send (Message (lit "Was unable to retrieve the source for `" ++ command
                     ++ lit "` for some reason. Is it saved?"))
  | Some (_, Some source_lines) =>
      let source_lines := split_on 10%N (concat source_lines) in
      let paginator :=
        fold_left (fun p line => add_line p (escape_markdown line))
                  source_lines jsk_source_paginator in
      send (Interface paginator (ctx_author c))
  end.

(** ** The shell command *)

Definition jsk_shell_paginator : Paginator :=
  mkPaginator (Some (lit "```sh")) (Some (lit "```")) 1500.

(** The loop over the reader: stops, returning nothing, once the interface
    has been closed. *)
Fixpoint read_lines (n : nat) (lines : list pystr) (paginator : Paginator)
    : Paginator * bool :=
  match lines with
  | [] => (paginator, false)
  | line :: rest =>
      if interface_closed n then (paginator, true)
      else read_lines (S n) rest (add_line paginator line)
  end.

(** [jsk shell]; the interface shows the paginator as it stands at the end. *)
Definition jsk_shell (c : Context) (current_task : Task) (argument : pystr)
    : Cmd (option (option Z)) :=
  ReplResponseReactor
    (submit c current_task (fun _ =>
       let paginator := jsk_shell_paginator in
       let paginator := add_line paginator (lit "$ " ++ argument ++ newline) in
       let '(lines, close_code) := ShellReader argument in
       let '(paginator, closed) := read_lines 0 lines paginator in
       if closed
       then do_ send (Interface paginator (ctx_author c)); ret None
       else
         let paginator :=
           add_line paginator (newline ++ lit "[status] Return code "
                               ++ str_of_Z close_code) in
         do_ send (Interface paginator (ctx_author c));
         ret (Some close_code))).

(** ** Voice clients *)

(** [commands.Paginator()] *)
Definition jsk_vc_clients_paginator : Paginator :=
  mkPaginator (Some (lit "```")) (Some (lit "```")) DEFAULT_MAX_SIZE.

Definition client_line (number : Z) (client : pystr * Z * pystr) : pystr :=
  let '(channel_name, guild_id, guild_name) := client in
  str_of_Z number ++ lit ". " ++ channel_name ++ lit " (" ++ str_of_Z guild_id
  ++ lit ", " ++ guild_name ++ lit ")".

Fixpoint add_clients (number : Z) (clients : list (pystr * Z * pystr))
    (p : Paginator) : Paginator :=
  match clients with
  | [] => p
  | client :: rest => add_clients (number + 1) rest (add_line p (client_line number client))
  end.

(** [jsk voice clients] *)
Definition jsk_vc_clients (c : Context) : Cmd unit :=
  do self <- get_cog;
  let p := add_clients 1 (voice_clients (bot self)) jsk_vc_clients_paginator in
  match pages p with
  | [] => send (Message (lit "No connected voice clients."))
  | ps => for_each ps (fun page => send (Message page))
  end.

End Cog.

(** ** [jishaku.modules] *)

(** The file tree: a node is a file or a directory with named entries, in
    the order the directory lists them. *)
Inductive Node :=
| File
| Dir (entries : list (pystr * Node)).

Record FileSystem := {
  root : Node;
  cwd : list pystr;
}.

(** A [pathlib.Path], as its [parts]; an absolute path starts with its
    anchor, ["/"] or ["//"]. *)
Definition Path := list pystr.

Definition is_anchor (part : pystr) : bool :=
  bool_decide (part = lit "/") || bool_decide (part = lit "//").

(** [pathlib.Path(s)]: the components between slashes, without the empty
    ones and the single dots; a leading slash gives the anchor, exactly two
    leading slashes the anchor ["//"]. *)
Definition Path_of (s : pystr) : Path :=
  let comps := filter (fun comp => comp <> [] /\ comp <> lit ".")
                      (split_on 47%N s) in
  if startswith s (lit "///") then lit "/" :: comps
  else if startswith s (lit "//") then lit "//" :: comps
  else if startswith s (lit "/") then lit "/" :: comps
  else comps.

(** [path / part] *)
Definition joinpath (path : Path) (part : pystr) : Path :=
  match Path_of part with
  | first :: rest => if is_anchor first then first :: rest
                     else path ++ first :: rest
  | [] => path
  end.

Fixpoint assoc (name : pystr) (entries : list (pystr * Node)) : option Node :=
  match entries with
  | [] => None
  | (n, node) :: rest => if decide (n = name) then Some node else assoc name rest
  end.

(** The node at a location given by names from the root. *)
Fixpoint node_at (n : Node) (location : list pystr) : option Node :=
  match location with
  | [] => Some n
  | name :: rest =>
      match n with
      | Dir entries =>
          match assoc name entries with
          | Some m => node_at m rest
          | None => None
          end
      | File => None
      end
  end.

(** Following path components from a location: every step starts in a
    directory, and [".."] steps to the parent. *)
Fixpoint walk (r : Node) (location : list pystr) (comps : list pystr)
    : option (list pystr) :=
  match comps with
  | [] => Some location
  | comp :: rest =>
      match node_at r location with
      | Some (Dir _) =>
          if decide (comp = lit "..") then walk r (removelast location) rest
          else walk r (location ++ [comp]) rest
      | _ => None
      end
  end.

(** The node a path leads to, if any. *)
Definition stat (fs : FileSystem) (path : Path) : option Node :=
  let located :=
    match path with
    | first :: rest => if is_anchor first then walk (root fs) [] rest
                       else walk (root fs) (cwd fs) path
    | [] => walk (root fs) (cwd fs) []
    end in
  match located with
  | Some location => node_at (root fs) location
  | None => None
  end.

(** [path.is_dir()] *)
Definition is_dir (fs : FileSystem) (path : Path) : bool :=
  match stat fs path with
  | Some (Dir _) => true
  | _ => false
  end.

(** The entries of the directory at a path. *)
Definition listdir (fs : FileSystem) (path : Path) : list (pystr * Node) :=
  match stat fs path with
  | Some (Dir entries) => entries
  | _ => []
  end.

(** [path.glob('*.py')] *)
Definition glob_py (fs : FileSystem) (path : Path) : list Path :=
  map (fun entry => path ++ [entry.1])
      (filter (fun entry => endswith entry.1 (lit ".py") = true) (listdir fs path)).

Definition is_package (node : Node) : bool :=
  match node with
  | Dir entries => bool_decide (lit "__init__.py" ∈ map fst entries)
  | File => false
  end.

(** [path.glob('*/__init__.py')] *)
Definition glob_init (fs : FileSystem) (path : Path) : list Path :=
  map (fun entry => path ++ [entry.1; lit "__init__.py"])
      (filter (fun entry => is_package entry.2 = true) (listdir fs path)).

(** [name.rfind('.')], or nothing when there is no dot. *)
Fixpoint rfind_dot (name : pystr) : option nat :=
  match name with
  | [] => None
  | c :: name' =>
      match rfind_dot name' with
      | Some i => Some (S i)
      | None => if N.eqb c 46%N then Some 0%nat else None
      end
  end.

(** The final component without its suffix: the suffix starts at the last
    dot, unless that dot opens or ends the name. *)
Definition stem (name : pystr) : pystr :=
  match rfind_dot name with
  | Some i => if (0 <? i)%nat && (i <? length name - 1)%nat
              then firstn i name else name
  | None => name
  end.

(** [subpath.with_suffix('')] *)
Definition with_suffix_empty (subpath : Path) : Path :=
  match subpath with
  | [] => []
  | first :: rest => removelast subpath ++ [stem (List.last subpath first)]
  end.

(** [subpath.parent] *)
Definition parent (subpath : Path) : Path := removelast subpath.

(** [if parts[0] == '.': parts = parts[1:]] *)
Definition drop_dot (parts : list pystr) : list pystr :=
  match parts with
  | first :: rest => if decide (first = lit ".") then rest else parts
  | [] => []
  end.

(** [find_extensions_in] *)
Definition find_extensions_in (fs : FileSystem) (path : Path) : list pystr :=
  if negb (is_dir fs path) then []
  else
    let files :=
      map (fun subpath => join (lit ".") (drop_dot (with_suffix_empty subpath)))
          (glob_py fs path) in
    let packages :=
      map (fun subpath => join (lit ".") (drop_dot (parent subpath)))
          (glob_init fs path) in
    files ++ packages.

(** The directory a wildcard pattern names: [name[:-2]] split at dots, the
    first part opening the path and the others joined to it. *)
Definition pattern_path (name : pystr) : Path :=
  match split_on 46%N (drop_end 2 name) with
  | first :: module_parts => fold_left joinpath module_parts (Path_of first)
  | [] => []
  end.

(** [resolve_extensions] *)
Definition resolve_extensions (fs : FileSystem) (b : Bot) (name : pystr)
    : list pystr :=
  if endswith name (lit ".*") then find_extensions_in fs (pattern_path name)
  else if decide (name = lit "~") then extensions b
  else [name].

(** ** Vocabulary of the properties *)

(** The world after one text message has been sent, and nothing else. *)
Definition say (w : World) (content : pystr) : World :=
  {| cog := cog w; heap := heap w; outbox := outbox w ++ [Message content];
     cancelled := cancelled w |}.

(** The world after [self.last_result = result]. *)
Definition remember (w : World) (result : Value) : World :=
  {| cog := set_last_result (cog w) result; heap := heap w; outbox := outbox w;
     cancelled := cancelled w |}.

(** The world after [jsk cancel] has taken task [t] out, leaving [rest]. *)
Definition cancel_world (w : World) (t : CommandTask) (rest : list CommandTask)
    : World :=
  {| cog := set_tasks (cog w) rest; heap := heap w;
     outbox := outbox w ++ [Message (lit "Cancelled task " ++ describe_task t)];
     cancelled := cancelled w ++ [task t] |}.

(** The paginator interfaces among what has been sent. *)
Definition interfaces (sent : list Sent) : list Paginator :=
  flat_map (fun m => match m with Interface p _ => [p] | _ => [] end) sent.

(** [old] occurs in [s] as a substring. *)
Definition occurs (old s : pystr) : Prop :=
  exists before after, s = before ++ old ++ after.

(** The text [jsk py] shows for a result that is not [None], a file, an
    embed or an interface: a string as it is, another object by its [repr]. *)
Definition plain_text `{Host} (result : Value) : option pystr :=
  match result with
  | VStr s => Some s
  | VObj _ => Some (repr result)
  | _ => None
  end.




(** How a batch of extensions is gone through: every extension in turn is
    handed to the method chosen for it, on the bot as the earlier ones left
    it, and yields one line.  When the method returned, the line is the
    icon, a space and the name between backticks; when it raised, the line
    is the icon, the warning sign U+26A0, a space and the name between
    backticks, followed on the next lines by a [py] code block that holds
    the formatted traceback. *)
Inductive Attempted `{Host}
    (choose : Bot -> pystr -> (Bot -> pystr -> Bot * option PyExc) * pystr)
    : Bot -> list pystr -> list pystr -> Bot -> Prop :=
| attempted_nil (b : Bot) : Attempted choose b [] [] b
| attempted_ok (b b' b'' : Bot) (extension : pystr) (rest lines : list pystr)
    (method : Bot -> pystr -> Bot * option PyExc) (icon : pystr) :
    choose b extension = (method, icon) ->
    method b extension = (b', None) ->
    Attempted choose b' rest lines b'' ->
    Attempted choose b (extension :: rest)
              ((icon ++ lit " `" ++ extension ++ lit "`") :: lines) b''
| attempted_failed (b b' b'' : Bot) (extension : pystr) (rest lines : list pystr)
    (method : Bot -> pystr -> Bot * option PyExc) (icon : pystr) (exc : PyExc) :
    choose b extension = (method, icon) ->
    method b extension = (b', Some exc) ->
    Attempted choose b' rest lines b'' ->
    Attempted choose b (extension :: rest)
              ((icon ++ [9888%N] ++ lit " `" ++ extension ++ lit "`" ++ [10%N]
                ++ lit "```py" ++ [10%N] ++ format_exception exc ++ [10%N]
                ++ lit "```") :: lines) b''.

(** The method and icon [jsk load] picks for an extension: reloading, with
    the arrows U+1F501, for one that is loaded, and loading, with the inbox
    tray U+1F4E5, for one that is not; [jsk unload] always unloads, with
    the outbox tray U+1F4E4. *)
Definition load_choice `{Host} (b : Bot) (extension : pystr)
    : (Bot -> pystr -> Bot * option PyExc) * pystr :=
  if bool_decide (extension ∈ extensions b)
  then (reload_extension, [128257%N])
  else (load_extension, [128229%N]).

Definition unload_choice `{Host} (b : Bot) (extension : pystr)
    : (Bot -> pystr -> Bot * option PyExc) * pystr :=
  (unload_extension, [128228%N]).

(** The dotted name made from the parts of a path. *)
Definition dotted (parts : Path) : pystr := join (lit ".") (drop_dot parts).

(** ** The task registry over time *)

(** What happens to the registry while the bot runs: an invocation enters
    [with self.submit(ctx)], an invocation leaves its [with] block, or
    somebody runs [jsk cancel]. *)
Inductive RegistryOp :=
| OpSubmit (c : Context) (current_task : Task)
| OpRelease (cmdtask : CommandTask)
| OpCancel (c : Context) (i : Z).

#[global] Instance RegistryOp_eq_dec : EqDecision RegistryOp.
Proof. solve_decision. Defined.

Definition apply_op (w : World) (op : RegistryOp) : World :=
  match op with
  | OpSubmit c t => snd (submit_enter c t w)
  | OpRelease cmdtask => snd (submit_exit cmdtask w)
  | OpCancel c i => snd (jsk_cancel c i w)
  end.

Definition run_ops (ops : list RegistryOp) (w : World) : World :=
  fold_left apply_op ops w.

(** The task a submission in world [w] creates. *)
Definition submitted (c : Context) (current_task : Task) (w : World) : CommandTask :=
  {| index := task_count (cog w) + 1; ctx := c; task := current_task |}.

(** The tasks created by the submissions among [ops], in order. *)
Fixpoint assigned (ops : list RegistryOp) (w : World) : list CommandTask :=
  match ops with
  | [] => []
  | op :: rest =>
      match op with
      | OpSubmit c t => submitted c t w :: assigned rest (apply_op w op)
      | _ => assigned rest (apply_op w op)
      end
  end.

(** Submissions and releases only. *)
Definition lifecycle (op : RegistryOp) : Prop :=
  match op with
  | OpCancel _ _ => False
  | _ => True
  end.

(** How many times a task is in the task list. *)
Fixpoint occurrences (x : CommandTask) (l : list CommandTask) : nat :=
  match l with
  | [] => 0%nat
  | y :: l' => ((if decide (y = x) then 1 else 0) + occurrences x l')%nat
  end.

(** The order of submission. *)
Definition earlier (a b : CommandTask) : Prop := index a < index b.

(** The registry is in submission order and holds no index above the
    counter. *)
Definition registry_inv (self : Jishaku) : Prop :=
  StronglySorted earlier (tasks self)
  /\ Forall (fun t => index t <= task_count self) (tasks self).

(** A world whose task list is one the cog can have: that of a fresh cog
    after some registry operations. *)
Definition reachable (w : World) : Prop :=
  exists b scope_prefix r ops,
    tasks (cog w) = tasks (cog (run_ops ops (init b scope_prefix r))).

(** ** The REPL over time *)

(** The commands that touch the scope: [jsk retain], [jsk py] and
    [jsk py_inspect]. *)
Inductive ReplOp :=
| OpRetain (c : Context) (toggle : option bool)
| OpPython (c : Context) (current_task : Task) (code : pystr)
| OpInspect (c : Context) (current_task : Task) (code : pystr).

Definition is_retain (op : ReplOp) : Prop :=
  match op with OpRetain _ _ => True | _ => False end.

Definition is_invocation (op : ReplOp) : Prop :=
  match op with OpRetain _ _ => False | _ => True end.

(** [jsk retain off] is among the commands. *)
Definition turns_off (ops : list ReplOp) : Prop :=
  exists c, In (OpRetain c (Some false)) ops.

Definition apply_repl `{Host} (w : World) (op : ReplOp) : World :=
  match op with
  | OpRetain c toggle => snd (jsk_retain c toggle w)
  | OpPython c t code => snd (jsk_python c t code w)
  | OpInspect c t code => snd (jsk_python_inspect c t code w)
  end.

Definition run_repl `{Host} (ops : list ReplOp) (w : World) : World :=
  fold_left apply_repl ops w.

(** The scope object the [scope] property hands out in a world. *)
Definition scope_of (w : World) : ScopeRef :=
  match scope w with
  | (Ret r, _) => r
  | (Raise _, _) => 0%nat
  end.

(** The contents of a scope object. *)
Definition scope_at (w : World) (r : ScopeRef) : Scope := default ∅ (heap w !! r).

(** The retained scope of the cog is an object of the store. *)
Definition wf (w : World) : Prop := (_scope (cog w) < length (heap w))%nat.

(** World [w'] is world [wb] with scope object [r] cleared of the keys of
    [arg_dict], and nothing else changed. *)
Definition cleared (wb w' : World) (r : ScopeRef) (arg_dict : gmap pystr Value)
    : Prop :=
  (forall k, k ∈ dom arg_dict -> scope_at w' r !! k = None)
  /\ (forall k, k ∉ dom arg_dict -> scope_at w' r !! k = scope_at wb r !! k)
  /\ (forall r', r' <> r -> heap w' !! r' = heap wb !! r')
  /\ cog w' = cog wb /\ outbox w' = outbox wb /\ cancelled w' = cancelled wb.

(** A step that leaves the retention flag and the retained scope of the cog
    alone and drops no scope object. *)
Definition frame (w w' : World) : Prop :=
  retain (cog w') = retain (cog w)
  /\ _scope (cog w') = _scope (cog w)
  /\ (length (heap w) <= length (heap w'))%nat.

Definition framed {A} (m : Cmd A) : Prop :=
  forall w o w', m w = (o, w') -> frame w w'.

(** Since the scope objects of [base] were the whole store, only empty
    scopes have been created, and the retained scope of a cog with
    retention on is one of them. *)
Definition renewed (base : list Scope) (w : World) : Prop :=
  (exists k, heap w = base ++ replicate k ∅)
  /\ (retain (cog w) = true ->
      (length base <= _scope (cog w) < length (heap w))%nat).

(** Every scope object a cog with retention on would hand out is younger
    than the first [n] objects of the store. *)
Definition younger (n : nat) (w : World) : Prop :=
  (n <= length (heap w))%nat
  /\ (retain (cog w) = true -> (n <= _scope (cog w))%nat).

(** ** A concrete host, for running the commands on examples *)

(** An executor for a toy language: the code is a variable name, and running
    it binds that name to the string holding the code, next to the injected
    variables; nothing is yielded. *)
Definition example_executor (code : pystr) (s : Scope)
    (arg_dict : gmap pystr Value) : Execution :=
  {| yielded := [];
     final_scope := <[code := VStr code]> (arg_dict ∪ s);
     failure := None |}.

Definition example_host : Host :=
  {| is_owner := fun _ user => bool_decide (user = 1%nat);
     get_var_dict_from_ctx := fun c pre =>
       {[ pre ++ lit "ctx" := VObj (ctx_author c) ]};
     AsyncCodeExecutor := example_executor;
     repr := fun _ => lit "<object>";
     all_inspections := fun _ => [];
     load_extension := fun b name =>
       if bool_decide (name = lit "broken") then (b, Some (Exc (lit "ImportError")))
       else ({| extensions := extensions b ++ [name]; http_token := http_token b |}, None);
     reload_extension := fun b name => (b, None);
     unload_extension := fun b name =>
       if bool_decide (name ∈ extensions b)
       then ({| extensions := filter (fun n => n <> name) (extensions b);
                http_token := http_token b |}, None)
       else (b, Some (Exc (lit "ExtensionNotLoaded")));
     format_exception := fun e =>
       match e with
       | Exc tb => tb
       | NotOwner m => m
       | CancelledError => lit "CancelledError"
       end;
     os_path_exists := fun p => bool_decide (p <> lit "missing");
     os_path_isdir := fun _ => false;
     os_path_getsize := fun p =>
       if bool_decide (p = lit "empty") then 0
       else if bool_decide (p = lit "huge") then 50 * 1024 ^ 2 + 1
       else 10;
     read_file := fun p => inl p;
     decode_file := fun bytes _ _ =>
       if bool_decide (bytes = lit "binary") then Undecodable
       else Decoded (lit "py") (split_on 10%N bytes);
     cat_line_regex_search := fun a => Some (a, None, None);
     http_get := fun url =>
       inl {| data := if bool_decide (url = lit "void") then [] else url;
              content_type := lit "text/plain"; status := 200 |};
     ShellReader := fun code => ([code], 0);
     interface_closed := fun _ => false;
     get_command_source := fun _ _ => None;
     voice_clients := fun _ => [] |}.

Definition example_bot : Bot :=
  {| extensions := [lit "cogs.admin"]; http_token := lit "TOKEN.abc" |}.

Definition owner_ctx : Context :=
  {| ctx_author := 1%nat; ctx_guild := Some 7%nat;
     ctx_qualified_name := lit "jishaku py"; ctx_created_at := lit "2020-01-01 00:00:00" |}.

Definition stranger_ctx : Context :=
  {| ctx_author := 2%nat; ctx_guild := None;
     ctx_qualified_name := lit "jishaku py"; ctx_created_at := lit "2020-01-01 00:00:00" |}.

(** A cog constructed with retention on. *)
Definition example_world : World := init example_bot (lit "_") true.

(** A working directory holding the package [pkg] with [a.py], [b.py] and
    the subpackage [c], and a file [README]. *)
Definition example_fs : FileSystem :=
  {| root := Dir [(lit "pkg",
                   Dir [(lit "a.py", File); (lit "b.py", File);
                        (lit "c", Dir [(lit "__init__.py", File)]);
                        (lit "data", Dir [(lit "x.txt", File)])]);
                  (lit "README", File)];
     cwd := [] |}.

(** A world with two tasks in flight, numbered 1 and 2. *)
Definition two_tasks : World :=
  run_ops [OpSubmit owner_ctx 11%nat; OpSubmit stranger_ctx 12%nat] example_world.

(** ** Vocabulary of the further properties *)

(** A command that leaves a part [f] of the cog as it found it, however it
    ends. *)
Definition keeps {X A} (f : Jishaku -> X) (m : Cmd A) : Prop :=
  forall w o w', m w = (o, w') -> f (cog w') = f (cog w).

(** The task registry of the cog: the task list and the counter. *)
Definition registry (self : Jishaku) : list CommandTask * Z :=
  (tasks self, task_count self).

(** No task listed has an index above the counter. *)
Definition counted (self : Jishaku) : Prop :=
  Forall (fun t => index t <= task_count self) (tasks self).

(** World [w'] has the task list of [w] and a counter one higher: one task
    was submitted and released in between. *)
Definition one_task_later (w w' : World) : Prop :=
  tasks (cog w') = tasks (cog w)
  /\ task_count (cog w') = task_count (cog w) + 1.

(** A command that submits one task and has released it when it ends. *)
Definition balanced {A} (m : Cmd A) : Prop :=
  forall w o w', counted (cog w) -> m w = (o, w') -> one_task_later w w'.

(** The counter is not negative and every task listed has a positive index. *)
Definition positive (self : Jishaku) : Prop :=
  0 <= task_count self /\ Forall (fun t => 1 <= index t) (tasks self).

(** The world after one item has been sent, and nothing else. *)
Definition present (w : World) (item : Sent) : World :=
  {| cog := cog w; heap := heap w; outbox := outbox w ++ [item];
     cancelled := cancelled w |}.




(** [url.lstrip("<").rstrip(">")], as [jsk curl] and the voice commands
    remove embed maskers. *)
Definition unmask (url : pystr) : pystr :=
  rstrip_char 62%N (lstrip_char 60%N url).

(** A URL that carries no embed masker: no [<] in front, no [>] at the end. *)
Definition unmasked (url : pystr) : Prop :=
  (forall rest, url <> 60%N :: rest) /\ (forall front, url <> front ++ [62%N]).

(** The last result [jsk py] remembers after the values [vs] were yielded:
    the last of them that is not [None], and the old one if there is none. *)
Definition last_shown (vs : list Value) (old : Value) : Value :=
  fold_left (fun acc v => match v with VNone => acc | _ => v end) vs old.

(** The run of the executor an invocation in world [w] starts: on the
    contents of the scope object the [scope] property hands out, with the
    injected variables. *)
Definition execution_of `{Host} (c : Context) (code : pystr) (w : World) : Execution :=
  AsyncCodeExecutor code (scope_at (snd (scope w)) (scope_of w))
                    (make_arg_dict (cog w) c).






(** A module name segment that is also a single path component: not empty,
    not a single dot, and without dot or slash. *)
Definition plain_segment (part : pystr) : Prop :=
  part <> [] /\ 46%N ∉ part /\ 47%N ∉ part.

(** The module name a directory entry named [*.py] is listed under: the
    name without the suffix, or the whole name for the entry [.py]. *)
Definition module_of (base : pystr) : pystr :=
  match base with
  | [] => lit ".py"
  | _ :: _ => base
  end.

(** The characters [jsk source] escapes: backtick, asterisk, bar, greater
    than and underscore. *)
Definition is_markdown (c : N) : bool :=
  ((c =? 96) || (c =? 42) || (c =? 124) || (c =? 62) || (c =? 95))%N.

Definition escaped_char (c : N) : pystr :=
  if is_markdown c then ZWSP ++ [c] else [c].

(** A string without zero-width spaces. *)
Definition visible (s : pystr) : pystr := filter (fun c => c <> 8203%N) s.

(** A host like [example_host] whose bot knows the command [f], with a
    source of one line, and is connected to two voice channels, and where
    the file [locked] cannot be opened. *)
Definition busy_host : Host :=
  {| is_owner := @is_owner example_host;
     get_var_dict_from_ctx := @get_var_dict_from_ctx example_host;
     AsyncCodeExecutor := @AsyncCodeExecutor example_host;
     repr := @repr example_host;
     all_inspections := @all_inspections example_host;
     load_extension := @load_extension example_host;
     reload_extension := @reload_extension example_host;
     unload_extension := @unload_extension example_host;
     format_exception := @format_exception example_host;
     os_path_exists := @os_path_exists example_host;
     os_path_isdir := @os_path_isdir example_host;
     os_path_getsize := @os_path_getsize example_host;
     read_file := fun path =>
       if bool_decide (path = lit "locked")
       then inr (Exc (lit "PermissionError"))
       else @read_file example_host path;
     decode_file := @decode_file example_host;
     cat_line_regex_search := @cat_line_regex_search example_host;
     http_get := @http_get example_host;
     ShellReader := @ShellReader example_host;
     interface_closed := @interface_closed example_host;
     get_command_source := fun _ name =>
       if bool_decide (name = lit "f")
       then Some (lit "f", Some [lit "def f(a_b): return `x`"])
       else None;
     voice_clients := fun _ =>
       [(lit "General", 7, lit "Guild"); (lit "Music", 8, lit "Other")] |}.

(** ** The REPL prefix *)

Definition set_SCOPE_PREFIX (self : Jishaku) (scope_prefix : pystr) : Jishaku :=
  {| bot := bot self; _scope := _scope self; retain := retain self;
     last_result := last_result self; tasks := tasks self;
     task_count := task_count self; SCOPE_PREFIX := scope_prefix |}.

(** [jsk prefixrepl]; the argument is [None], a boolean or a string. *)
Definition jsk_prefix_repl (c : Context) (toggle : option (bool + pystr))
    : Cmd unit :=
  do self <- get_cog;
  match toggle with
  | None => send (Message (lit "Prefix: " ++ SCOPE_PREFIX self))
  | Some toggle =>
      do_ put_cog (set_SCOPE_PREFIX self
                     match toggle with
                     | inl true => lit "_"
                     | inl false => []
                     | inr toggle => toggle
                     end);
      send (Message (lit "Done."))
  end.

(** The prefix an argument of [jsk prefixrepl] stands for. *)
Definition prefix_of (toggle : bool + pystr) : pystr :=
  match toggle with
  | inl b => if b then lit "_" else []
  | inr s => s
  end.

(** ** The help command *)

(** A help command object, known by its class and its identity; [NoHelp] is
    [None]. *)
Inductive HelpCommand :=
| MinimalEmbedPaginatorHelp (instance : nat)
| DefaultEmbedPaginatorHelp (instance : nat)
| OtherHelp (instance : nat)
| NoHelp.

(** The two attributes of the bot [jsk embedhelp] works on, and the number
    of help command objects constructed so far. *)
Record HelpBot := {
  help_command : HelpCommand;
  old_help_command : HelpCommand;
  constructed : nat;
}.

(** [self.bot.old_help_command = bot.help_command] in [Jishaku.__init__] *)
Definition init_help (current : HelpCommand) (constructed : nat) : HelpBot :=
  {| help_command := current; old_help_command := current;
     constructed := constructed |}.

(** [isinstance(h, (MinimalEmbedPaginatorHelp, DefaultEmbedPaginatorHelp))] *)
Definition is_embedded (h : HelpCommand) : bool :=
  match h with
  | MinimalEmbedPaginatorHelp _ | DefaultEmbedPaginatorHelp _ => true
  | OtherHelp _ | NoHelp => false
  end.

(** [jsk embedhelp]: the bot afterwards and the message sent. *)
Definition jsk_help_toggle (b : HelpBot) (minimal : bool) : HelpBot * pystr :=
  if is_embedded (help_command b)
  then ({| help_command := old_help_command b;
           old_help_command := old_help_command b;
           constructed := constructed b |},
        lit "Returned to the original help command.")
  else if minimal
  then ({| help_command := MinimalEmbedPaginatorHelp (constructed b);
           old_help_command := help_command b;
           constructed := S (constructed b) |},
        lit "Set help command to the minimal embedded help command.")
  else ({| help_command := DefaultEmbedPaginatorHelp (constructed b);
           old_help_command := help_command b;
           constructed := S (constructed b) |},
        lit "Set help command to the embedded help command.").

(** The bot after a series of [jsk embedhelp] invocations. *)
Definition toggled (flags : list bool) (b : HelpBot) : HelpBot :=
  fold_left (fun b minimal => fst (jsk_help_toggle b minimal)) flags b.

(** ** Running other commands *)

(** The command framework, as [jsk sudo] and [jsk repeat] use it. *)
Class Dispatcher := {
  (** a command together with the context it was found for *)
  BoundCommand : Type;
  (** [copy_context_with(ctx, content=ctx.prefix + command_string)]: the
      [invoked_with] and the [command] of the new context *)
  copy_context_with : Context -> pystr -> Cmd (option pystr * option BoundCommand);
  (** [alt_ctx.command.reinvoke(alt_ctx)] *)
  reinvoke : BoundCommand -> Cmd unit;
}.

(** [f'Command "{alt_ctx.invoked_with}" is not found'] *)
Definition not_found (invoked_with : option pystr) : Sent :=
  Message (lit "Command " ++ [34%N] ++ default (lit "None") invoked_with
           ++ [34%N] ++ lit " is not found").

Section Invocation.
Context `{Dispatcher}.

(** [jsk sudo] *)
Definition jsk_sudo (c : Context) (command_string : pystr) : Cmd unit :=
  do alt_ctx <- copy_context_with c command_string;
  match alt_ctx.2 with
  | None => send (not_found alt_ctx.1)
  | Some command => reinvoke command
  end.

(** The loop of [jsk repeat], with [n] rounds to go; an unknown command
    ends it. *)
Fixpoint repeat_loop (c : Context) (command_string : pystr) (n : nat)
    : Cmd unit :=
  match n with
  | O => ret tt
  | S n' =>
      do alt_ctx <- copy_context_with c command_string;
      match alt_ctx.2 with
      | None => send (not_found alt_ctx.1)
      | Some command =>
          do_ reinvoke command;
          repeat_loop c command_string n'
      end
  end.

(** [jsk repeat]; [range(times)] is empty for a count below one. *)
Definition jsk_repeat (c : Context) (current_task : Task) (times : Z)
    (command_string : pystr) : Cmd unit :=
  submit c current_task (fun _ => repeat_loop c command_string (Z.to_nat times)).

End Invocation.

(** A framework that knows the one command [ping], which answers [pong]. *)
Definition example_dispatcher : Dispatcher :=
  {| BoundCommand := unit;
     copy_context_with := fun _ command_string =>
       ret (if decide (command_string = lit "ping")
            then (Some (lit "ping"), Some tt)
            else (Some command_string, None));
     reinvoke := fun _ => send (Message (lit "pong")) |}.

(** ** The URL played by [jsk voice youtube_dl] *)

(** The URL handed to the player: embed maskers removed, and cut at the
    first [&] when the text after the last [&] starts with [index=]. *)
Definition youtube_dl_url (url : pystr) : pystr :=
  let url := unmask url in
  let _url := split_on 38%N url in
  if (1 <? length _url)%nat && startswith (List.last _url []) (lit "index=")
  then hd [] _url
  else url.

(** The world with the task counter one higher. *)
Definition counted_once (w : World) : World :=
  {| cog := set_task_count (cog w) (task_count (cog w) + 1);
     heap := heap w; outbox := outbox w; cancelled := cancelled w |}.

(** * Properties *)

(** ** Unfolding the monad *)

Ltac cmd_unfold :=
  unfold bind, ret, raise, get_cog, put_cog, send, cancel, new_scope,
    read_scope, write_scope, try_finally in *.

(** ** Prefixes, suffixes and splitting at a separator *)

Lemma startswith_spec (s p : pystr) :
  startswith s p = true <-> exists rest, s = p ++ rest.
Proof.
  revert s. induction p as [|c p IH]; intros s; simpl.
  - split; [intros _; exists s; reflexivity | intros _; destruct s; reflexivity].
  - destruct s as [|d s]; simpl.
    + split; [discriminate | intros (rest & E); discriminate E].
    + destruct (N.eqb_spec c d) as [->|Hne].
      * rewrite IH. split; intros (rest & E); exists rest; congruence.
      * split; [discriminate | intros (rest & E); congruence].
Qed.

Lemma endswith_app (s p : pystr) : endswith (s ++ p) p = true.
Proof.
  unfold endswith. rewrite rev_app_distr. apply startswith_spec. eauto.
Qed.

Lemma drop_end_app {A} (s p : list A) : drop_end (length p) (s ++ p) = s.
Proof.
  unfold drop_end. rewrite length_app.
  replace (length s + length p - length p)%nat with (length s) by lia.
  rewrite firstn_app, Nat.sub_diag, firstn_all. simpl. apply app_nil_r.
Qed.

Lemma split_on_absent (sep : N) (s : pystr) : sep ∉ s -> split_on sep s = [s].
Proof.
  induction s as [|c s IH]; intros Hn; [reflexivity|].
  simpl. destruct (N.eqb_spec c sep) as [->|Hne].
  - exfalso. apply Hn. left.
  - rewrite IH; [reflexivity|]. intros Hin. apply Hn. right. exact Hin.
Qed.

Lemma split_on_app (sep : N) (s rest : pystr) :
  sep ∉ s -> split_on sep (s ++ sep :: rest) = s :: split_on sep rest.
Proof.
  induction s as [|c s IH]; intros Hn; simpl.
  - rewrite N.eqb_refl. reflexivity.
  - destruct (N.eqb_spec c sep) as [->|Hne].
    + exfalso. apply Hn. left.
    + rewrite IH; [reflexivity|]. intros Hin. apply Hn. right. exact Hin.
Qed.

(** Splitting a dotted name gives back the segments it was joined from. *)
Lemma split_on_join (sep : N) (parts : list pystr) :
  parts <> [] -> Forall (fun part => sep ∉ part) parts ->
  split_on sep (join [sep] parts) = parts.
Proof.
  induction parts as [|p parts IH]; [congruence|]. intros _ Hall.
  inversion Hall as [|? ? Hp Hrest]; subst.
  destruct parts as [|q parts].
  - simpl. apply split_on_absent, Hp.
  - change (join [sep] (p :: q :: parts)) with (p ++ sep :: join [sep] (q :: parts)).
    rewrite split_on_app by assumption. f_equal. apply IH; [discriminate | assumption].
Qed.

Lemma Path_of_plain (part : pystr) : plain_segment part -> Path_of part = [part].
Proof.
  intros (Hne & Hdot & Hslash). unfold Path_of.
  rewrite (split_on_absent 47%N part Hslash).
  assert (Hkeep : part <> [] /\ part <> lit ".").
  { split; [assumption|]. intros ->. apply Hdot. left. }
  rewrite filter_cons_True by exact Hkeep. rewrite filter_nil.
  destruct part as [|c part]; [congruence|].
  assert (Hc : c <> 47%N) by (intros ->; apply Hslash; left).
  assert (Hs : forall rest, startswith (c :: part) (47%N :: rest) = false).
  { intros rest. cbn [startswith]. destruct (N.eqb_spec 47 c); [congruence | reflexivity]. }
  change (lit "///") with (47%N :: lit "//").
  change (lit "//") with (47%N :: lit "/").
  change (lit "/") with (47%N :: []).
  rewrite !Hs. reflexivity.
Qed.

Lemma joinpath_plain (path : Path) (part : pystr) :
  plain_segment part -> joinpath path part = path ++ [part].
Proof.
  intros Hp. unfold joinpath. rewrite (Path_of_plain part Hp).
  destruct Hp as (Hne & _ & Hslash).
  assert (Ha : is_anchor part = false).
  { unfold is_anchor. apply orb_false_iff. split; apply bool_decide_eq_false;
      intros ->; apply Hslash; left. }
  rewrite Ha. reflexivity.
Qed.

Lemma fold_joinpath_plain (path : Path) (parts : list pystr) :
  Forall plain_segment parts -> fold_left joinpath parts path = path ++ parts.
Proof.
  revert path. induction parts as [|p parts IH]; intros path Hall; simpl.
  - now rewrite app_nil_r.
  - inversion Hall; subst. rewrite joinpath_plain by assumption.
    rewrite IH by assumption. rewrite <- app_assoc. reflexivity.
Qed.

Lemma pattern_path_plain (parts : list pystr) :
  parts <> [] -> Forall plain_segment parts ->
  pattern_path (join (lit ".") parts ++ lit ".*") = parts.
Proof.
  intros Hne Hall. unfold pattern_path.
  change 2%nat with (length (lit ".*")). rewrite drop_end_app.
  change (lit ".") with [46%N]. rewrite split_on_join; [|assumption|].
  - destruct parts as [|first rest]; [congruence|].
    inversion Hall; subst. rewrite Path_of_plain by assumption.
    apply (fold_joinpath_plain [first] rest). assumption.
  - eapply List.Forall_impl; [|exact Hall]. intros part (_ & Hd & _). exact Hd.
Qed.

Lemma rfind_dot_py (base : pystr) :
  rfind_dot (base ++ lit ".py") = Some (length base).
Proof.
  induction base as [|c base IH]; [reflexivity|].
  change ((c :: base) ++ lit ".py") with (c :: (base ++ lit ".py")).
  cbn [rfind_dot]. rewrite IH. reflexivity.
Qed.

Lemma stem_py (base : pystr) : stem (base ++ lit ".py") = module_of base.
Proof.
  unfold stem. rewrite rfind_dot_py.
  destruct base as [|c base]; [reflexivity|].
  rewrite length_app. change (length (lit ".py")) with 3%nat.
  replace (0 <? length (c :: base))%nat with true
    by (symmetry; apply Nat.ltb_lt; simpl; lia).
  replace (length (c :: base) <? length (c :: base) + 3 - 1)%nat with true
    by (symmetry; apply Nat.ltb_lt; lia).
  cbn [andb module_of].
  rewrite firstn_app, Nat.sub_diag, firstn_all. simpl firstn. apply app_nil_r.
Qed.

Lemma endswith_spec (s p : pystr) :
  endswith s p = true <-> exists base, s = base ++ p.
Proof.
  unfold endswith. rewrite startswith_spec. split.
  - intros (rest & E). exists (rev rest).
    rewrite <- (rev_involutive s), E, rev_app_distr, rev_involutive. reflexivity.
  - intros (base & ->). exists (rev base). apply rev_app_distr.
Qed.

Lemma split_on_nonempty (sep : N) (s : pystr) : split_on sep s <> [].
Proof.
  destruct s as [|c s]; [discriminate|]. simpl.
  destruct (N.eqb c sep); [discriminate|]. destruct (split_on sep s); discriminate.
Qed.



(** ** Owner check *)

Section OwnerCheck.
Context `{Host}.

(** C8. For every command callback of the cog and every invocation: when
    the invoker is not an owner of the bot, the cog check raises the
    not-owner rejection and the framework's invocation ends with it, the
    world untouched, so no part of the callback has run; when the invoker is
    an owner, the check returns [True] and the invocation is the callback. *)
Theorem cog_check_owner_only {A} (c : Context) (callback : Context -> Cmd A)
    (w : World) :
  cog_check c w =
    (if is_owner (bot (cog w)) (ctx_author c) then Ret true else Raise not_owner, w)
  /\ invoke c callback w =
    (if is_owner (bot (cog w)) (ctx_author c) then callback c w
     else (Raise not_owner, w)).
Proof.
  unfold invoke, cog_check. cmd_unfold. simpl.
  destruct (is_owner (bot (cog w)) (ctx_author c)); simpl; split; reflexivity.
Qed.

End OwnerCheck.

(** ** Resource errors of [jsk cat] and [jsk curl] *)

Section Resources.
Context `{Host}.

Lemma interfaces_say (w : World) (content : pystr) :
  interfaces (outbox (say w content)) = interfaces (outbox w).
Proof.
  unfold say, interfaces; simpl. rewrite flat_map_app; simpl.
  apply app_nil_r.
Qed.

(** C7. [jsk cat] answers a path whose size stat is zero or negative, a
    file of more than 50 MB and a file whose encoding cannot be determined,
    and [jsk curl] answers an empty response body and a response whose
    encoding cannot be determined, each with its own message as the only
    thing sent: the file or response is read once, and the paginator
    interfaces presented are those presented before. *)
Theorem resource_errors_short_circuit (c : Context) (w : World) :
  (forall argument path group2 group3,
     cat_line_regex_search argument = Some (path, group2, group3) ->
     os_path_exists path = true -> os_path_isdir path = false ->
     let size := os_path_getsize path in
     let line_span := match group2 with
                      | Some start => Some (start, default start group3)
                      | None => None
                      end in
     (size <= 0 ->
      jsk_cat c argument w =
        (Ret tt, say w (lit "`" ++ path
           ++ lit "`: Cowardly refusing to read a file with no size stat"
           ++ lit " (it may be empty, endless or inaccessible).")))
     /\ (size > 50 * 1024 ^ 2 ->
      jsk_cat c argument w =
        (Ret tt, say w (lit "`" ++ path
           ++ lit "`: Cowardly refusing to read a file >50MB.")))
     /\ (0 < size <= 50 * 1024 ^ 2 ->
      jsk_cat_paginator path line_span = UnicodeDecodeError ->
      jsk_cat c argument w =
        (Ret tt, say w (lit "`" ++ path
           ++ lit "`: Couldn't determine the encoding of this file."))))
  /\ (forall url response,
     let target := rstrip_char 62%N (lstrip_char 60%N url) in
     http_get target = inl response ->
     (data response = [] ->
      jsk_curl c url w =
        (Ret tt, say w (lit "HTTP response was empty (status code "
           ++ str_of_Z (status response) ++ lit ").")))
     /\ (data response <> [] ->
      jsk_curl_paginator response target = UnicodeDecodeError ->
      jsk_curl c url w =
        (Ret tt, say w (lit "Couldn't determine the encoding of the response. (status code "
           ++ str_of_Z (status response) ++ lit ")"))))
  /\ (forall content, interfaces (outbox (say w content)) = interfaces (outbox w)).
Proof.
  split; [|split].
  - intros argument path g2 g3 Hre Hex Hdir size line_span.
    unfold jsk_cat. rewrite Hre, Hex, Hdir. simpl. fold size.
    repeat split.
    + intros Hs. apply Z.leb_le in Hs. rewrite Hs. reflexivity.
    + intros Hs. destruct (size <=? 0) eqn:E1; [apply Z.leb_le in E1; lia|].
      destruct (size >? 50 * 1024 ^ 2) eqn:E2; [reflexivity|].
      rewrite Z.gtb_ltb in E2. apply Z.ltb_ge in E2. lia.
    + intros [Hlo Hhi] Hdec.
      destruct (size <=? 0) eqn:E1; [apply Z.leb_le in E1; lia|].
      destruct (size >? 50 * 1024 ^ 2) eqn:E2.
      { rewrite Z.gtb_ltb in E2. apply Z.ltb_lt in E2. lia. }
      fold line_span. rewrite Hdec. reflexivity.
  - intros url response target Hget. unfold jsk_curl. fold target. rewrite Hget.
    split.
    + intros Hd. rewrite Hd. reflexivity.
    + intros Hd Hdec. destruct (data response) as [|b bs] eqn:E; [congruence|].
      rewrite Hdec. reflexivity.
  - intros content. apply interfaces_say.
Qed.

End Resources.

(** Each refusal of C7 on the example host: the files [empty], [huge] and
    [binary], the URL [<void>] and the URL [binary]. *)
Lemma resource_errors_short_circuit_witness :
  @jsk_cat example_host owner_ctx (lit "empty") example_world =
    (Ret tt, say example_world (lit "`empty`: Cowardly refusing to read a file with no size stat (it may be empty, endless or inaccessible)."))
  /\ @jsk_cat example_host owner_ctx (lit "huge") example_world =
    (Ret tt, say example_world (lit "`huge`: Cowardly refusing to read a file >50MB."))
  /\ @jsk_cat example_host owner_ctx (lit "binary") example_world =
    (Ret tt, say example_world (lit "`binary`: Couldn't determine the encoding of this file."))
  /\ @jsk_curl example_host owner_ctx (lit "<void>") example_world =
    (Ret tt, say example_world (lit "HTTP response was empty (status code 200)."))
  /\ @jsk_curl example_host owner_ctx (lit "binary") example_world =
    (Ret tt, say example_world (lit "Couldn't determine the encoding of the response. (status code 200)")).
Proof.
  pose proof (@resource_errors_short_circuit example_host owner_ctx example_world)
    as [Hcat [Hcurl _]].
  split; [|split; [|split; [|split]]].
  - apply (Hcat (lit "empty") (lit "empty") None None);
      first [reflexivity | vm_compute; discriminate].
  - apply (Hcat (lit "huge") (lit "huge") None None); reflexivity.
  - apply (Hcat (lit "binary") (lit "binary") None None);
      first [reflexivity | split; vm_compute; [reflexivity | discriminate]].
  - exact (proj1 (Hcurl (lit "<void>") _ eq_refl) eq_refl).
  - refine (proj2 (Hcurl (lit "binary") _ eq_refl) _ eq_refl).
    vm_compute. discriminate.
Defined.

(** ** Paginators *)


Lemma text_size_nonneg (xs : list pystr) : 0 <= text_size xs.
Proof. induction xs as [|x xs IH]; simpl; unfold len; lia. Qed.

Lemma add_line_max_size (p : Paginator) (line : pystr) :
  max_size (add_line p line) = max_size p
  /\ prefix (add_line p line) = prefix p
  /\ suffix (add_line p line) = suffix p.
Proof.
  unfold add_line. destruct (_ >? _); [destruct (_current_page p)|]; simpl; auto.
Qed.

Lemma add_lines_max_size (lines : list pystr) (p : Paginator) :
  max_size (fold_left add_line lines p) = max_size p
  /\ prefix (fold_left add_line lines p) = prefix p
  /\ suffix (fold_left add_line lines p) = suffix p.
Proof.
  revert p. induction lines as [|l ls IH]; intros p; simpl; [auto|].
  destruct (IH (add_line p l)) as (-> & -> & ->). apply add_line_max_size.
Qed.

(** Adding a line puts it, whole, after the lines already there. *)
Lemma add_line_concat (p : Paginator) (line : pystr) :
  concat (page_lines (add_line p line)) = concat (page_lines p) ++ [line].
Proof.
  unfold add_line, page_lines.
  destruct (_ >? _); simpl; destruct (_current_page p) as [|x xs] eqn:E; simpl;
    rewrite ?E; simpl; rewrite ?concat_app; simpl; rewrite ?app_nil_r;
    rewrite <- ?app_assoc; try reflexivity.
Qed.

Lemma add_lines_concat (lines : list pystr) (p : Paginator) :
  concat (page_lines (fold_left add_line lines p)) = concat (page_lines p) ++ lines.
Proof.
  revert p. induction lines as [|l ls IH]; intros p; simpl.
  - now rewrite app_nil_r.
  - rewrite IH, add_line_concat, <- app_assoc. reflexivity.
Qed.

Lemma add_line_current_nonempty (p : Paginator) (line : pystr) :
  _current_page (add_line p line) <> [].
Proof.
  unfold add_line.
  destruct (_ >? _); [destruct (_current_page p)|]; simpl; intros E;
    try discriminate; apply app_eq_nil in E; destruct E; discriminate.
Qed.






Section Thresholds.
Context `{Host}.

Lemma WrappedFilePaginator_max_size (fp : list N) (line_span : option (Z * Z))
    (hints : option (pystr * pystr)) (size : Z) (p : Paginator) :
  WrappedFilePaginator fp line_span hints size = FileOk p -> max_size p = size.
Proof.
  unfold WrappedFilePaginator.
  destruct (decode_file fp line_span hints); intros E; inversion E; subst.
  destruct (add_lines_max_size lines
              (mkPaginator (Some (lit "```" ++ language)) (Some (lit "```")) size))
    as (Hm & _). exact Hm.
Qed.




End Thresholds.



(** ** Loading and unloading extensions *)

Section Extensions.
Context `{Host}.

Lemma for_each_send (contents : list pystr) (w : World) :
  exists w',
    for_each contents (fun page => send (Message page)) w = (Ret tt, w')
    /\ cog w' = cog w
    /\ outbox w' = outbox w ++ map Message contents.
Proof.
  revert w. induction contents as [|x xs IH]; intros w; simpl.
  - exists w. rewrite app_nil_r. auto.
  - unfold bind, send at 1. simpl.
    destruct (IH {| cog := cog w; heap := heap w;
                    outbox := outbox w ++ [Message x];
                    cancelled := cancelled w |}) as (w' & Hrun & Hcog & Hout).
    exists w'. rewrite Hrun. simpl in *. rewrite Hout, <- app_assoc. auto.
Qed.

Lemma jsk_load_loop (xs : list pystr) (p : Paginator) (w : World) :
  exists lines w',
    loop_with jsk_load_step xs p w = (Ret (fold_left add_line lines p), w')
    /\ Attempted load_choice (bot (cog w)) xs lines (bot (cog w'))
    /\ outbox w' = outbox w.
Proof.
  revert p w. induction xs as [|x xs IH]; intros p w; simpl.
  - exists [], w. repeat split. constructor.
  - unfold bind, jsk_load_step at 1. cmd_unfold. simpl.
    destruct (load_choice (bot (cog w)) x) as [method icon] eqn:Ech.
    unfold load_choice in Ech.
    destruct (bool_decide (x ∈ extensions (bot (cog w)))) eqn:Emem;
      inversion Ech; subst method icon; clear Ech.
    + destruct (reload_extension (bot (cog w)) x) as [b' [exc|]] eqn:Em; simpl;
        match goal with |- context [loop_with _ xs ?q ?v] =>
          destruct (IH q v) as (lines & w' & Hrun & Hatt & Hout) end;
        rewrite Hrun; simpl in *.
      * exists (failure_line ICON_RELOAD x (format_exception exc) :: lines), w'.
        repeat split; auto.
        eapply attempted_failed; eauto. unfold load_choice. now rewrite Emem.
      * exists (success_line ICON_RELOAD x :: lines), w'.
        repeat split; auto.
        eapply attempted_ok; eauto. unfold load_choice. now rewrite Emem.
    + destruct (load_extension (bot (cog w)) x) as [b' [exc|]] eqn:Em; simpl;
        match goal with |- context [loop_with _ xs ?q ?v] =>
          destruct (IH q v) as (lines & w' & Hrun & Hatt & Hout) end;
        rewrite Hrun; simpl in *.
      * exists (failure_line ICON_INBOX x (format_exception exc) :: lines), w'.
        repeat split; auto.
        eapply attempted_failed; eauto. unfold load_choice. now rewrite Emem.
      * exists (success_line ICON_INBOX x :: lines), w'.
        repeat split; auto.
        eapply attempted_ok; eauto. unfold load_choice. now rewrite Emem.
Qed.

Lemma jsk_unload_loop (xs : list pystr) (p : Paginator) (w : World) :
  exists lines w',
    loop_with jsk_unload_step xs p w = (Ret (fold_left add_line lines p), w')
    /\ Attempted unload_choice (bot (cog w)) xs lines (bot (cog w'))
    /\ outbox w' = outbox w.
Proof.
  revert p w. induction xs as [|x xs IH]; intros p w; simpl.
  - exists [], w. repeat split. constructor.
  - unfold bind, jsk_unload_step at 1. cmd_unfold. simpl.
    destruct (unload_extension (bot (cog w)) x) as [b' [exc|]] eqn:Em; simpl;
      match goal with |- context [loop_with _ xs ?q ?v] =>
        destruct (IH q v) as (lines & w' & Hrun & Hatt & Hout) end;
      rewrite Hrun; simpl in *.
    + exists (failure_line ICON_OUTBOX x (format_exception exc) :: lines), w'.
      repeat split; auto. eapply attempted_failed; eauto; reflexivity.
    + exists (success_line ICON_OUTBOX x :: lines), w'.
      repeat split; auto. eapply attempted_ok; eauto; reflexivity.
Qed.

Lemma Attempted_length choose (b b' : Bot) (xs lines : list pystr) :
  Attempted choose b xs lines b' -> length lines = length xs.
Proof. induction 1; simpl; congruence. Qed.



End Extensions.

(** On the example host, loading [broken] fails and [cogs.fun], after it,
    is still loaded, and [cogs.admin], loaded before, is reloaded: the
    report has the failure line with the traceback, then the two success
    lines. *)
Example jsk_load_after_failure :
  exists w1 w2 report,
    @jsk_load_report example_host
       [[lit "broken"]; [lit "cogs.fun"; lit "cogs.admin"]] example_world
    = (Ret report, w1)
    /\ concat (page_lines report)
       = [[128229%N; 9888%N] ++ lit " `broken`" ++ [10%N] ++ lit "```py" ++ [10%N]
          ++ lit "ImportError" ++ [10%N] ++ lit "```";
          [128229%N] ++ lit " `cogs.fun`";
          [128257%N] ++ lit " `cogs.admin`"]
    /\ extensions (bot (cog w1)) = [lit "cogs.admin"; lit "cogs.fun"]
    /\ @jsk_load example_host owner_ctx
         [[lit "broken"]; [lit "cogs.fun"; lit "cogs.admin"]] example_world
       = (Ret tt, w2)
    /\ outbox w2 = map Message (pages report).
Proof. eexists _, _, _. repeat split; vm_compute; reflexivity. Qed.

(** Unloading on the example host: [cogs.admin] is unloaded, [cogs.none]
    was never loaded and gives the failure line. *)
Example jsk_unload_after_failure :
  exists w1 report,
    @jsk_unload_report example_host [[lit "cogs.none"; lit "cogs.admin"]] example_world
    = (Ret report, w1)
    /\ concat (page_lines report)
       = [[128228%N; 9888%N] ++ lit " `cogs.none`" ++ [10%N] ++ lit "```py" ++ [10%N]
          ++ lit "ExtensionNotLoaded" ++ [10%N] ++ lit "```";
          [128228%N] ++ lit " `cogs.admin`"]
    /\ extensions (bot (cog w1)) = [].
Proof. eexists _, _. repeat split; vm_compute; reflexivity. Qed.

(** ** Resolving extension names *)

Lemma removelast_snoc {A} (l : list A) (x : A) : removelast (l ++ [x]) = l.
Proof. apply removelast_last. Qed.

Lemma with_suffix_empty_snoc (path : Path) (name : pystr) :
  with_suffix_empty (path ++ [name]) = path ++ [stem name].
Proof.
  unfold with_suffix_empty.
  destruct (path ++ [name]) as [|first rest] eqn:E.
  - destruct path; discriminate.
  - rewrite <- E, removelast_snoc, last_last. reflexivity.
Qed.

Lemma parent_init (path : Path) (name : pystr) :
  parent (path ++ [name; lit "__init__.py"]) = path ++ [name].
Proof.
  unfold parent.
  change (path ++ [name; lit "__init__.py"])
    with (path ++ [name] ++ [lit "__init__.py"]).
  rewrite app_assoc. apply removelast_snoc.
Qed.

Lemma listdir_not_dir (fs : FileSystem) (path : Path) :
  is_dir fs path = false -> listdir fs path = [].
Proof.
  unfold is_dir, listdir. destruct (stat fs path) as [[|entries]|]; congruence.
Qed.

(** What [find_extensions_in] returns: the dotted names of the entries of
    the directory named [*.py], without the suffix, and of the entries that
    are directories holding [__init__.py]. *)
Lemma find_extensions_in_spec (fs : FileSystem) (path : Path) (n : pystr) :
  In n (find_extensions_in fs path) <->
  exists entry node,
    In (entry, node) (listdir fs path)
    /\ ((endswith entry (lit ".py") = true /\ n = dotted (path ++ [stem entry]))
        \/ (is_package node = true /\ n = dotted (path ++ [entry]))).
Proof.
  unfold find_extensions_in.
  destruct (is_dir fs path) eqn:Edir; simpl.
  - rewrite in_app_iff, !in_map_iff. unfold glob_py, glob_init.
    split.
    + intros [(sub & Hn & Hsub) | (sub & Hn & Hsub)];
        apply in_map_iff in Hsub as ([entry node] & Hs & Hin);
        apply list_elem_of_In, list_elem_of_filter in Hin as [HP Hin];
        apply list_elem_of_In in Hin; simpl in *; subst sub;
        exists entry, node; split; auto.
      * left. split; [assumption|]. rewrite with_suffix_empty_snoc in Hn. auto.
      * right. split; [assumption|]. rewrite parent_init in Hn. auto.
    + intros (entry & node & Hin & [[Hpy Hn] | [Hpk Hn]]).
      * left. exists (path ++ [entry]). rewrite with_suffix_empty_snoc.
        split; [auto|]. apply in_map_iff. exists (entry, node). split; [reflexivity|].
        apply list_elem_of_In, list_elem_of_filter. split; [assumption|].
        apply list_elem_of_In; assumption.
      * right. exists (path ++ [entry; lit "__init__.py"]). rewrite parent_init.
        split; [auto|]. apply in_map_iff. exists (entry, node). split; [reflexivity|].
        apply list_elem_of_In, list_elem_of_filter. split; [assumption|].
        apply list_elem_of_In; assumption.
  - rewrite (listdir_not_dir _ _ Edir). simpl.
    split; [tauto | intros (? & ? & [] & _)].
Qed.

Lemma is_package_spec (node : Node) :
  is_package node = true <->
  exists entries, node = Dir entries /\ In (lit "__init__.py") (map fst entries).
Proof.
  destruct node as [|entries]; simpl.
  - split; [discriminate | intros (entries & E & _); discriminate E].
  - rewrite bool_decide_eq_true, list_elem_of_In. split.
    + intros Hin. exists entries. auto.
    + intros (entries' & E & Hin). inversion E; subst. exact Hin.
Qed.

Lemma dotted_plain (parts : list pystr) (segment : pystr) :
  parts <> [] -> Forall plain_segment parts ->
  dotted (parts ++ [segment]) = join (lit ".") (parts ++ [segment]).
Proof.
  intros Hne Hall. unfold dotted. f_equal.
  destruct parts as [|first rest]; [congruence|].
  inversion Hall as [|? ? (_ & Hd & _) _]; subst.
  change ((first :: rest) ++ [segment]) with (first :: rest ++ [segment]).
  unfold drop_dot. destruct (decide (first = lit ".")) as [->|_];
    [exfalso; apply Hd; left | reflexivity].
Qed.

(** C5. [resolve_extensions] returns, for a literal name, the list holding
    just that name, and for [~] the loaded extensions.  For a name ending
    in [.*] it returns a name for every entry [base.py] and for every
    directory holding [__init__.py] found directly in the directory the
    pattern names, and nothing else; the list is empty when that directory
    does not exist.  When the pattern is made of plain segments joined by
    dots, that directory is the one with these segments as path components
    and the names are the segments and then [base], or the name of the
    package directory, joined by dots: [pkg.*] over [a.py], [b.py] and
    [c/__init__.py] gives [pkg.a], [pkg.b] and [pkg.c].  It is a total
    function: no case raises. *)
Theorem resolve_extensions_spec (fs : FileSystem) (b : Bot) (name : pystr) :
  (endswith name (lit ".*") = false -> name <> lit "~" ->
   resolve_extensions fs b name = [name])
  /\ (endswith name (lit ".*") = true ->
      let path := pattern_path name in
      (forall n,
         In n (resolve_extensions fs b name) <->
         exists entry node,
           In (entry, node) (listdir fs path)
           /\ ((exists base,
                  entry = base ++ lit ".py"
                  /\ n = join (lit ".") (drop_dot (path ++ [module_of base])))
               \/ ((exists entries,
                      node = Dir entries
                      /\ In (lit "__init__.py") (map fst entries))
                   /\ n = join (lit ".") (drop_dot (path ++ [entry])))))
      /\ (is_dir fs path = false -> resolve_extensions fs b name = []))
  /\ (forall parts,
        parts <> [] -> Forall plain_segment parts ->
        name = join (lit ".") parts ++ lit ".*" ->
        pattern_path name = parts
        /\ forall n,
             In n (resolve_extensions fs b name) <->
             exists entry node,
               In (entry, node) (listdir fs parts)
               /\ ((exists base,
                      entry = base ++ lit ".py"
                      /\ n = join (lit ".") (parts ++ [module_of base]))
                   \/ ((exists entries,
                          node = Dir entries
                          /\ In (lit "__init__.py") (map fst entries))
                       /\ n = join (lit ".") (parts ++ [entry]))))
  /\ resolve_extensions fs b (lit "~") = extensions b.
Proof.
  assert (Hwildcard : forall path n,
    In n (find_extensions_in fs path) <->
    exists entry node,
      In (entry, node) (listdir fs path)
      /\ ((exists base,
             entry = base ++ lit ".py"
             /\ n = join (lit ".") (drop_dot (path ++ [module_of base])))
          \/ ((exists entries,
                 node = Dir entries /\ In (lit "__init__.py") (map fst entries))
              /\ n = join (lit ".") (drop_dot (path ++ [entry]))))).
  { intros path n. rewrite find_extensions_in_spec. unfold dotted. split.
    - intros (entry & node & Hin & [[Hpy ->] | [Hpk ->]]);
        exists entry, node; (split; [exact Hin|]).
      + left. apply endswith_spec in Hpy as (base & ->).
        exists base. rewrite stem_py. auto.
      + right. split; [apply is_package_spec, Hpk | reflexivity].
    - intros (entry & node & Hin & [(base & -> & ->) | [Hpk ->]]);
        eexists _, node; (split; [exact Hin|]).
      + left. rewrite stem_py. split; [|reflexivity].
        apply endswith_spec. eauto.
      + right. split; [apply is_package_spec, Hpk | reflexivity]. }
  split; [|split; [|split]].
  - intros Hlit Hmark. unfold resolve_extensions. rewrite Hlit.
    destruct (decide (name = lit "~")); [contradiction | reflexivity].
  - intros Hwild path. unfold resolve_extensions. rewrite Hwild. fold path.
    split.
    + intros n. apply Hwildcard.
    + intros Hdir. unfold find_extensions_in. rewrite Hdir. reflexivity.
  - intros parts Hne Hall ->.
    pose proof (pattern_path_plain parts Hne Hall) as Hpath.
    split; [exact Hpath|]. intros n.
    unfold resolve_extensions. rewrite endswith_app, Hpath, Hwildcard.
    pose proof (dotted_plain parts) as Hdot. unfold dotted in Hdot.
    split; intros (entry & node & Hin & [(base & -> & ->) | [Hpk ->]]);
      eexists _, node; (split; [exact Hin|]).
    + left. exists base. split; [reflexivity | apply Hdot; assumption].
    + right. split; [exact Hpk | apply Hdot; assumption].
    + left. exists base. split; [reflexivity | symmetry; apply Hdot; assumption].
    + right. split; [exact Hpk | symmetry; apply Hdot; assumption].
  - reflexivity.
Qed.

(** C5 on the example tree: a literal name, the three names of the
    specification's example (two module files and a package), and a
    directory that does not exist. *)
Lemma resolve_extensions_spec_witness :
  resolve_extensions example_fs example_bot (lit "cogs.admin") = [lit "cogs.admin"]
  /\ In (lit "pkg.a") (resolve_extensions example_fs example_bot (lit "pkg.*"))
  /\ In (lit "pkg.b") (resolve_extensions example_fs example_bot (lit "pkg.*"))
  /\ In (lit "pkg.c") (resolve_extensions example_fs example_bot (lit "pkg.*"))
  /\ resolve_extensions example_fs example_bot (lit "nowhere.*") = [].
Proof.
  assert (Hplain : Forall plain_segment [lit "pkg"]).
  { repeat constructor; try discriminate;
      intros Hin; vm_compute in Hin;
      repeat (apply elem_of_cons in Hin as [Hin|Hin]; [discriminate Hin|]);
      inversion Hin. }
  pose proof (proj2 (proj1 (proj2 (proj2
                (resolve_extensions_spec example_fs example_bot (lit "pkg.*"))))
                [lit "pkg"] ltac:(discriminate) Hplain eq_refl)) as Hpkg.
  split; [|split; [|split; [|split]]].
  - apply (proj1 (resolve_extensions_spec example_fs example_bot (lit "cogs.admin")));
      [reflexivity | discriminate].
  - apply Hpkg. exists (lit "a.py"), File.
    split; [vm_compute; tauto|]. left. exists (lit "a"). split; reflexivity.
  - apply Hpkg. exists (lit "b.py"), File.
    split; [vm_compute; tauto|]. left. exists (lit "b"). split; reflexivity.
  - apply Hpkg. exists (lit "c"), (Dir [(lit "__init__.py", File)]).
    split; [vm_compute; tauto|]. right.
    split; [|reflexivity]. eexists. split; [reflexivity|]. left. reflexivity.
  - apply (proj2 (proj1 (proj2 (resolve_extensions_spec example_fs example_bot
                                  (lit "nowhere.*"))) eq_refl)).
    reflexivity.
Defined.

(** The example of the specification: [pkg.*] over a directory with [a.py],
    [b.py] and [c/__init__.py]. *)
Example resolve_extensions_pkg :
  resolve_extensions example_fs example_bot (lit "pkg.*")
  = [lit "pkg.a"; lit "pkg.b"; lit "pkg.c"].
Proof. vm_compute. reflexivity. Qed.

(** ** The task registry *)

Lemma sorted_snoc {A} (R : A -> A -> Prop) (l : list A) (x : A) :
  StronglySorted R l -> Forall (fun a => R a x) l -> StronglySorted R (l ++ [x]).
Proof.
  induction 1 as [|a l Hl IH Ha]; intros Hx; simpl.
  - repeat constructor.
  - inversion Hx; subst. constructor; [auto|].
    apply Forall_app. split; [assumption | repeat constructor; assumption].
Qed.

Lemma removelast_incl {A} (l : list A) (x : A) :
  In x (removelast l) -> In x l.
Proof.
  induction l as [|a l IH]; simpl; [tauto|].
  destruct l as [|b l']; simpl in *; tauto.
Qed.

Lemma sorted_removelast {A} (R : A -> A -> Prop) (l : list A) :
  StronglySorted R l -> StronglySorted R (removelast l).
Proof.
  induction 1 as [|a l Hl IH Ha]; simpl; [constructor|].
  destruct l as [|b l']; [constructor|].
  constructor; [assumption|].
  rewrite List.Forall_forall in *. intros x Hx. apply Ha.
  apply removelast_incl. exact Hx.
Qed.

Lemma deque_remove_incl (x : CommandTask) (l : list CommandTask) (y : CommandTask) :
  In y (deque_remove x l) -> In y l.
Proof.
  induction l as [|a l IH]; simpl; [tauto|].
  destruct (decide (a = x)); simpl; tauto.
Qed.

Lemma sorted_deque_remove (x : CommandTask) (l : list CommandTask) :
  StronglySorted earlier l -> StronglySorted earlier (deque_remove x l).
Proof.
  induction 1 as [|a l Hl IH Ha]; simpl; [constructor|].
  destruct (decide (a = x)); [assumption|].
  constructor; [assumption|].
  rewrite List.Forall_forall in *. intros y Hy. apply Ha.
  eapply deque_remove_incl; eauto.
Qed.

Lemma Forall_deque_remove (P : CommandTask -> Prop) (x : CommandTask)
    (l : list CommandTask) :
  Forall P l -> Forall P (deque_remove x l).
Proof.
  rewrite !List.Forall_forall. intros H y Hy. apply H.
  eapply deque_remove_incl; eauto.
Qed.

Lemma Forall_removelast {A} (P : A -> Prop) (l : list A) :
  Forall P l -> Forall P (removelast l).
Proof.
  rewrite !List.Forall_forall. intros H x Hx. apply H, removelast_incl, Hx.
Qed.

Lemma deque_remove_notin (x : CommandTask) (l : list CommandTask) :
  ~ In x l -> deque_remove x l = l.
Proof.
  induction l as [|a l IH]; simpl; [reflexivity|].
  intros Hn. destruct (decide (a = x)); [tauto|]. f_equal. tauto.
Qed.

(** What each registry operation does to the task list and the counter. *)
Lemma submit_enter_spec (c : Context) (t : Task) (w : World) :
  exists w',
    submit_enter c t w = (Ret (submitted c t w), w')
    /\ tasks (cog w') = tasks (cog w) ++ [submitted c t w]
    /\ task_count (cog w') = task_count (cog w) + 1
    /\ cancelled w' = cancelled w /\ outbox w' = outbox w /\ heap w' = heap w.
Proof. eexists. unfold submit_enter. cmd_unfold. simpl. repeat split. Qed.

Lemma submit_exit_spec (x : CommandTask) (w : World) :
  exists w',
    submit_exit x w = (Ret tt, w')
    /\ tasks (cog w') = deque_remove x (tasks (cog w))
    /\ task_count (cog w') = task_count (cog w)
    /\ cancelled w' = cancelled w /\ outbox w' = outbox w /\ heap w' = heap w.
Proof.
  unfold submit_exit. cmd_unfold. simpl.
  destruct (bool_decide (x ∈ tasks (cog w))) eqn:E.
  - eexists. simpl. repeat split.
  - exists w. repeat split. symmetry. apply deque_remove_notin.
    apply bool_decide_eq_false in E. rewrite list_elem_of_In in E. exact E.
Qed.

Lemma jsk_cancel_spec (c : Context) (i : Z) (w : World) :
  jsk_cancel c i w =
  match tasks (cog w) with
  | [] => (Ret tt, say w (lit "No tasks to cancel."))
  | first :: _ =>
      if i =? -1
      then (Ret tt, cancel_world w (List.last (tasks (cog w)) first)
                                 (removelast (tasks (cog w))))
      else match utils_get (tasks (cog w)) i with
           | Some t => (Ret tt, cancel_world w t (deque_remove t (tasks (cog w))))
           | None => (Ret tt, say w (lit "Unknown task."))
           end
  end.
Proof.
  unfold jsk_cancel, cancel_and_report. cmd_unfold. cbv beta iota.
  destruct (tasks (cog w)) as [|first rest]; [reflexivity|].
  destruct (i =? -1); [reflexivity|].
  destruct (utils_get (first :: rest) i); reflexivity.
Qed.

Lemma jsk_cancel_count (c : Context) (i : Z) (w : World) :
  task_count (cog (snd (jsk_cancel c i w))) = task_count (cog w)
  /\ (tasks (cog (snd (jsk_cancel c i w))) = tasks (cog w)
      \/ tasks (cog (snd (jsk_cancel c i w))) = removelast (tasks (cog w))
      \/ exists t, tasks (cog (snd (jsk_cancel c i w))) = deque_remove t (tasks (cog w))).
Proof.
  rewrite jsk_cancel_spec.
  destruct (tasks (cog w)) as [|first rest] eqn:E; [rewrite <- E; auto|].
  destruct (i =? -1).
  - split; [reflexivity|]. right. left. reflexivity.
  - destruct (utils_get (first :: rest) i) as [t|].
    + split; [reflexivity|]. right. right. exists t. reflexivity.
    + rewrite <- E. auto.
Qed.

Lemma apply_op_spec (op : RegistryOp) (w : World) :
  match op with
  | OpSubmit c t =>
      tasks (cog (apply_op w op)) = tasks (cog w) ++ [submitted c t w]
      /\ task_count (cog (apply_op w op)) = task_count (cog w) + 1
  | OpRelease x =>
      tasks (cog (apply_op w op)) = deque_remove x (tasks (cog w))
      /\ task_count (cog (apply_op w op)) = task_count (cog w)
  | OpCancel c i =>
      task_count (cog (apply_op w op)) = task_count (cog w)
      /\ (tasks (cog (apply_op w op)) = tasks (cog w)
          \/ tasks (cog (apply_op w op)) = removelast (tasks (cog w))
          \/ exists t, tasks (cog (apply_op w op)) = deque_remove t (tasks (cog w)))
  end.
Proof.
  destruct op as [c t | x | c i]; cbn [apply_op].
  - destruct (submit_enter_spec c t w) as (w' & -> & H1 & H2 & _). auto.
  - destruct (submit_exit_spec x w) as (w' & -> & H1 & H2 & _). auto.
  - apply jsk_cancel_count.
Qed.

Lemma registry_inv_init (b : Bot) (scope_prefix : pystr) (r : bool) :
  registry_inv (cog (init b scope_prefix r)).
Proof. split; simpl; constructor. Qed.

Lemma registry_inv_step (op : RegistryOp) (w : World) :
  registry_inv (cog w) -> registry_inv (cog (apply_op w op)).
Proof.
  intros [Hs Hb]. pose proof (apply_op_spec op w) as H.
  unfold registry_inv.
  destruct op as [c t | x | c i].
  - destruct H as [-> ->]. split.
    + apply sorted_snoc; [assumption|].
      eapply List.Forall_impl; [|exact Hb]. unfold earlier, submitted. simpl. lia.
    + apply Forall_app. split.
      * eapply List.Forall_impl; [|exact Hb]. simpl. lia.
      * repeat constructor. simpl. lia.
  - destruct H as [-> ->]. split.
    + apply sorted_deque_remove; assumption.
    + apply Forall_deque_remove; assumption.
  - destruct H as [-> [-> | [-> | [t ->]]]]; split; auto.
    + apply sorted_removelast; assumption.
    + apply Forall_removelast; assumption.
    + apply sorted_deque_remove; assumption.
    + apply Forall_deque_remove; assumption.
Qed.

Lemma registry_inv_run (ops : list RegistryOp) (w : World) :
  registry_inv (cog w) -> registry_inv (cog (run_ops ops w)).
Proof.
  revert w. induction ops as [|op ops IH]; intros w Hw; simpl; [assumption|].
  apply IH, registry_inv_step, Hw.
Qed.

Lemma reachable_sorted (w : World) :
  reachable w -> StronglySorted earlier (tasks (cog w)).
Proof.
  intros (b & pre & r & ops & ->).
  apply (registry_inv_run ops (init b pre r)), registry_inv_init.
Qed.

Lemma task_count_step (op : RegistryOp) (w : World) :
  task_count (cog w) <= task_count (cog (apply_op w op)).
Proof.
  pose proof (apply_op_spec op w) as H.
  destruct op; destruct H as [H1 H2]; try rewrite H1; try rewrite H2; lia.
Qed.

Lemma task_count_run (ops : list RegistryOp) (w : World) :
  task_count (cog w) <= task_count (cog (run_ops ops w)).
Proof.
  revert w. induction ops as [|op ops IH]; intros w; simpl; [lia|].
  etransitivity; [apply (task_count_step op w) | apply IH].
Qed.

(** Every submission gets an index above the counter, hence above every
    index given out before. *)
Lemma assigned_fresh (ops : list RegistryOp) (w : World) :
  Forall (fun a => task_count (cog w) < index a) (assigned ops w)
  /\ StronglySorted earlier (assigned ops w).
Proof.
  revert w. induction ops as [|op ops IH]; intros w; simpl.
  - split; constructor.
  - destruct (IH (apply_op w op)) as [Hf Hs].
    pose proof (task_count_step op w) as Hm.
    assert (Hf' : Forall (fun a => task_count (cog w) < index a)
                         (assigned ops (apply_op w op))).
    { eapply List.Forall_impl; [|exact Hf]. simpl. lia. }
    destruct op as [c t | x | c i]; try (split; assumption).
    split.
    + constructor; [simpl; lia | assumption].
    + constructor; [assumption|].
      eapply List.Forall_impl; [|exact Hf]. unfold earlier.
      pose proof (apply_op_spec (OpSubmit c t) w) as [_ Hc].
      rewrite Hc. simpl. lia.
Qed.

Lemma occurrences_app (x : CommandTask) (l l' : list CommandTask) :
  occurrences x (l ++ l') = (occurrences x l + occurrences x l')%nat.
Proof. induction l as [|a l IH]; simpl; [reflexivity | rewrite IH; lia]. Qed.

Lemma occurrences_notin (x : CommandTask) (l : list CommandTask) :
  ~ In x l -> occurrences x l = 0%nat.
Proof.
  induction l as [|a l IH]; simpl; [reflexivity|].
  intros Hn. destruct (decide (a = x)); [tauto|]. simpl. tauto.
Qed.

Lemma occurrences_deque_remove_ne (x y : CommandTask) (l : list CommandTask) :
  y <> x -> occurrences x (deque_remove y l) = occurrences x l.
Proof.
  intros Hne. induction l as [|a l IH]; simpl; [reflexivity|].
  destruct (decide (a = y)) as [->|Hay]; simpl.
  - destruct (decide (y = x)); [contradiction | reflexivity].
  - rewrite IH. reflexivity.
Qed.

Lemma occurrences_deque_remove_eq (x : CommandTask) (l : list CommandTask) :
  occurrences x (deque_remove x l) = pred (occurrences x l).
Proof.
  induction l as [|a l IH]; simpl; [reflexivity|].
  destruct (decide (a = x)) as [->|Hax]; simpl; [reflexivity|].
  destruct (decide (a = x)); [contradiction|]. simpl. exact IH.
Qed.

Lemma occurrences_deque_remove_le (x y : CommandTask) (l : list CommandTask) :
  (occurrences x (deque_remove y l) <= occurrences x l)%nat.
Proof.
  destruct (decide (y = x)) as [->|Hne].
  - rewrite occurrences_deque_remove_eq. lia.
  - rewrite occurrences_deque_remove_ne by assumption. lia.
Qed.

Lemma occurrences_removelast_le (x : CommandTask) (l : list CommandTask) :
  (occurrences x (removelast l) <= occurrences x l)%nat.
Proof.
  induction l as [|a l IH]; simpl; [lia|].
  destruct l as [|b l']; simpl in *; lia.
Qed.

(** A task whose index is not above the counter is never added again: its
    occurrences can only go down, and stay as they are while nobody removes
    it. *)
Lemma occurrences_step_le (x : CommandTask) (op : RegistryOp) (w : World) :
  index x <= task_count (cog w) ->
  (occurrences x (tasks (cog (apply_op w op))) <= occurrences x (tasks (cog w)))%nat.
Proof.
  intros Hx. pose proof (apply_op_spec op w) as H.
  destruct op as [c t | y | c i].
  - destruct H as [-> _]. rewrite occurrences_app. simpl.
    destruct (decide (submitted c t w = x)) as [<-|]; [simpl in Hx; lia | lia].
  - destruct H as [-> _]. apply occurrences_deque_remove_le.
  - destruct H as [_ [-> | [-> | [t ->]]]].
    + lia.
    + apply occurrences_removelast_le.
    + apply occurrences_deque_remove_le.
Qed.

Lemma occurrences_run_le (x : CommandTask) (ops : list RegistryOp) (w : World) :
  index x <= task_count (cog w) ->
  (occurrences x (tasks (cog (run_ops ops w))) <= occurrences x (tasks (cog w)))%nat.
Proof.
  revert w. induction ops as [|op ops IH]; intros w Hx; simpl; [lia|].
  etransitivity; [apply IH | apply occurrences_step_le; assumption].
  pose proof (task_count_step op w). lia.
Qed.

Lemma occurrences_run_keep (x : CommandTask) (ops : list RegistryOp) (w : World) :
  index x <= task_count (cog w) ->
  Forall lifecycle ops ->
  ~ In (OpRelease x) ops ->
  occurrences x (tasks (cog (run_ops ops w))) = occurrences x (tasks (cog w)).
Proof.
  revert w. induction ops as [|op ops IH]; intros w Hx Hl Hn; simpl; [reflexivity|].
  inversion Hl as [|? ? Hop Hops]; subst.
  rewrite IH; [| pose proof (task_count_step op w); lia | assumption
               | intros Hin; apply Hn; right; exact Hin].
  pose proof (apply_op_spec op w) as H.
  destruct op as [c t | y | c i]; [| |destruct Hop].
  - destruct H as [-> _]. rewrite occurrences_app. simpl.
    destruct (decide (submitted c t w = x)) as [<-|]; [simpl in Hx; lia | lia].
  - destruct H as [-> _]. apply occurrences_deque_remove_ne.
    intros ->. apply Hn. left. reflexivity.
Qed.

Lemma occurrences_run_released (x : CommandTask) (ops : list RegistryOp) (w : World) :
  index x <= task_count (cog w) ->
  (occurrences x (tasks (cog w)) <= 1)%nat ->
  In (OpRelease x) ops ->
  occurrences x (tasks (cog (run_ops ops w))) = 0%nat.
Proof.
  intros Hx Hone Hin.
  apply in_split in Hin as (before & after & ->).
  unfold run_ops. rewrite fold_left_app. cbn [fold_left].
  fold (run_ops before w). set (w1 := run_ops before w).
  fold (run_ops after (apply_op w1 (OpRelease x))).
  assert (Hx1 : index x <= task_count (cog w1)).
  { pose proof (task_count_run before w). subst w1. lia. }
  assert (H1 : (occurrences x (tasks (cog w1)) <= 1)%nat).
  { pose proof (occurrences_run_le x before w Hx). subst w1. lia. }
  pose proof (apply_op_spec (OpRelease x) w1) as [Ht Hc].
  assert (H0 : occurrences x (tasks (cog (apply_op w1 (OpRelease x)))) = 0%nat).
  { rewrite Ht, occurrences_deque_remove_eq. lia. }
  pose proof (occurrences_run_le x after (apply_op w1 (OpRelease x))) as Hle.
  rewrite Hc in Hle. specialize (Hle Hx1). lia.
Qed.

(** The [with] block releases the task on every way out. *)
Lemma submit_releases {A} (c : Context) (t : Task) (body : CommandTask -> Cmd A)
    (w : World) (o : Outcome A) (w2 : World) :
  body (submitted c t w) (snd (submit_enter c t w)) = (o, w2) ->
  submit c t body w = (o, apply_op w2 (OpRelease (submitted c t w))).
Proof.
  intros Hbody. unfold submit, bind.
  destruct (submit_enter_spec c t w) as (w1 & Henter & _).
  rewrite Henter in *. simpl in Hbody. unfold try_finally. rewrite Hbody.
  cbn [apply_op].
  destruct (submit_exit_spec (submitted c t w) w2) as (w3 & -> & _).
  reflexivity.
Qed.

(** C3. The registry under any sequence of operations on a fresh cog:
    the [with] block of [submit] runs the release on the world its body
    leaves, whether the body returned, raised or was cancelled; the indices
    given to submitted tasks are strictly increasing, so none is given
    twice; and a submitted task is in the task list at most once, exactly
    once while only submissions and releases follow and it has not been
    released, and not at all once it has been released. *)
Theorem task_registry_invariant (b : Bot) (scope_prefix : pystr) (r : bool) :
  (forall A (c : Context) (t : Task) (body : CommandTask -> Cmd A)
          (w : World) (o : Outcome A) (w2 : World),
      body (submitted c t w) (snd (submit_enter c t w)) = (o, w2) ->
      submit c t body w = (o, apply_op w2 (OpRelease (submitted c t w))))
  /\ (forall ops, StronglySorted earlier (assigned ops (init b scope_prefix r)))
  /\ (forall ops1 c t ops2,
        let w1 := run_ops ops1 (init b scope_prefix r) in
        let cmdtask := submitted c t w1 in
        let final := run_ops (ops1 ++ OpSubmit c t :: ops2) (init b scope_prefix r) in
        (occurrences cmdtask (tasks (cog final)) <= 1)%nat
        /\ (Forall lifecycle ops2 -> ~ In (OpRelease cmdtask) ops2 ->
            occurrences cmdtask (tasks (cog final)) = 1%nat)
        /\ (In (OpRelease cmdtask) ops2 ->
            occurrences cmdtask (tasks (cog final)) = 0%nat)).
Proof.
  split; [|split].
  - intros A c t body w o w2. apply submit_releases.
  - intros ops. apply assigned_fresh.
  - intros ops1 c t ops2 w1 cmdtask final.
    assert (Hinv : registry_inv (cog w1)).
    { apply registry_inv_run, registry_inv_init. }
    destruct Hinv as [_ Hbound].
    set (w1' := apply_op w1 (OpSubmit c t)).
    assert (Hfinal : final = run_ops ops2 w1').
    { subst final w1' w1. unfold run_ops. rewrite fold_left_app. reflexivity. }
    pose proof (apply_op_spec (OpSubmit c t) w1) as [Ht Hc]. fold w1' in Ht, Hc.
    assert (Hx : index cmdtask <= task_count (cog w1')).
    { rewrite Hc. subst cmdtask. simpl. lia. }
    assert (Hone : occurrences cmdtask (tasks (cog w1')) = 1%nat).
    { rewrite Ht, occurrences_app. fold cmdtask. simpl.
      destruct (decide (cmdtask = cmdtask)); [|contradiction].
      rewrite occurrences_notin; [reflexivity|].
      intros Hin. rewrite List.Forall_forall in Hbound.
      specialize (Hbound _ Hin). subst cmdtask. simpl in Hbound. lia. }
    rewrite Hfinal. split; [|split].
    + pose proof (occurrences_run_le cmdtask ops2 w1' Hx). lia.
    + intros Hl Hn. rewrite occurrences_run_keep; assumption.
    + intros Hin. apply occurrences_run_released; [assumption | lia | assumption].
Qed.

(** C3 on the example world: two invocations enter, the first leaves by an
    exception in between; the second is in the list once, the first gone. *)
Lemma task_registry_invariant_witness :
  submit owner_ctx 11%nat (fun _ => @raise unit (Exc (lit "boom"))) example_world
    = (Raise (Exc (lit "boom")),
       apply_op (snd (submit_enter owner_ctx 11%nat example_world))
                (OpRelease (submitted owner_ctx 11%nat example_world)))
  /\ occurrences
       (submitted owner_ctx 12%nat (run_ops [OpSubmit owner_ctx 11%nat] example_world))
       (tasks (cog (run_ops ([OpSubmit owner_ctx 11%nat] ++ OpSubmit owner_ctx 12%nat
                               :: [OpRelease (submitted owner_ctx 11%nat example_world)])
                            example_world))) = 1%nat
  /\ occurrences
       (submitted owner_ctx 11%nat (run_ops [] example_world))
       (tasks (cog (run_ops ([] ++ OpSubmit owner_ctx 11%nat
                               :: [OpRelease (submitted owner_ctx 11%nat example_world)])
                            example_world))) = 0%nat.
Proof.
  pose proof (task_registry_invariant example_bot (lit "_") true)
    as (Hexit & _ & Hflight).
  split; [|split].
  - apply (Hexit unit owner_ctx 11%nat (fun _ => raise (Exc (lit "boom")))
             example_world). reflexivity.
  - apply (Hflight [OpSubmit owner_ctx 11%nat] owner_ctx 12%nat
             [OpRelease (submitted owner_ctx 11%nat example_world)]).
    + repeat constructor.
    + vm_compute. intros [E|[]]. discriminate E.
  - apply (Hflight [] owner_ctx 11%nat
             [OpRelease (submitted owner_ctx 11%nat example_world)]).
    left. reflexivity.
Defined.

(** ** Cancelling tasks *)

Lemma sorted_snoc_inv {A} (R : A -> A -> Prop) (l : list A) (x : A) :
  StronglySorted R (l ++ [x]) -> Forall (fun a => R a x) l.
Proof.
  induction l as [|a l IH]; simpl; intros Hs; [constructor|].
  inversion Hs as [|? ? Hl Ha]; subst.
  constructor; [|auto].
  rewrite List.Forall_forall in Ha. apply Ha, in_or_app. right. left. reflexivity.
Qed.

Lemma sorted_unique_index (l : list CommandTask) (a b : CommandTask) :
  StronglySorted earlier l -> In a l -> In b l -> index a = index b -> a = b.
Proof.
  induction 1 as [|x l Hl IH Hx]; simpl; [tauto|].
  rewrite List.Forall_forall in Hx. unfold earlier in Hx.
  intros [<-|Ha] [<-|Hb] E; auto.
  - specialize (Hx _ Hb). lia.
  - specialize (Hx _ Ha). lia.
Qed.

Lemma sorted_last_latest (l : list CommandTask) (d t : CommandTask) :
  StronglySorted earlier l -> In t l -> t <> List.last l d ->
  earlier t (List.last l d) /\ In t (removelast l).
Proof.
  intros Hs Hin Hne.
  destruct l as [|a l']; [destruct Hin|].
  assert (Hnil : a :: l' <> []) by discriminate.
  pose proof (app_removelast_last d Hnil) as E.
  rewrite E in Hs, Hin.
  apply sorted_snoc_inv in Hs. rewrite List.Forall_forall in Hs.
  apply in_app_or in Hin as [Hin | [<- | []]].
  - split; [apply Hs|]; assumption.
  - contradiction.
Qed.

Lemma sorted_last_removed (l : list CommandTask) (d : CommandTask) :
  StronglySorted earlier l -> l <> [] ->
  In (List.last l d) l /\ ~ In (List.last l d) (removelast l).
Proof.
  intros Hs Hnil. pose proof (app_removelast_last d Hnil) as E.
  split.
  - rewrite E at 2. apply in_or_app. right. left. reflexivity.
  - rewrite E in Hs. apply sorted_snoc_inv in Hs.
    rewrite List.Forall_forall in Hs. intros Hin. specialize (Hs _ Hin).
    unfold earlier in Hs. lia.
Qed.

Lemma utils_get_found (l : list CommandTask) (t : CommandTask) :
  StronglySorted earlier l -> In t l -> utils_get l (index t) = Some t.
Proof.
  intros Hs Hin. unfold utils_get.
  destruct (find (fun t0 => index t0 =? index t) l) as [t0|] eqn:E.
  - apply find_some in E as [Hin0 Hi]. apply Z.eqb_eq in Hi.
    f_equal. eapply sorted_unique_index; eauto.
  - eapply find_none in E; [|exact Hin]. simpl in E.
    rewrite Z.eqb_refl in E. discriminate.
Qed.

Lemma utils_get_unknown (l : list CommandTask) (i : Z) :
  (forall t, In t l -> index t <> i) -> utils_get l i = None.
Proof.
  intros Hno. unfold utils_get.
  destruct (find (fun t0 => index t0 =? i) l) as [t0|] eqn:E; [|reflexivity].
  apply find_some in E as [Hin0 Hi]. apply Z.eqb_eq in Hi.
  exfalso. eapply Hno; eauto.
Qed.

Lemma deque_remove_sorted_In (l : list CommandTask) (t t' : CommandTask) :
  StronglySorted earlier l ->
  In t' (deque_remove t l) <-> In t' l /\ t' <> t.
Proof.
  induction 1 as [|x l Hl IH Hx]; simpl; [tauto|].
  rewrite List.Forall_forall in Hx. unfold earlier in Hx.
  destruct (decide (x = t)) as [->|Hne]; simpl.
  - split.
    + intros Hin. split; [tauto|]. intros ->. specialize (Hx _ Hin). lia.
    + intros [[<-|Hin] Hn]; [contradiction | assumption].
  - rewrite IH. split.
    + intros [<-|[Hin Hn]]; auto.
    + intros [[<-|Hin] Hn]; auto.
Qed.

(** C4. In a world the cog can be in, with a task in the registry:
    [jsk cancel -1] cancels the handle of the last task of the list and
    removes it, and that task has a higher index than every other task
    listed, so it is the one submitted most recently; [jsk cancel i] for a
    listed index cancels and removes the one task with that index and
    leaves the others; and for an index of no listed task it only says
    [Unknown task.], returning normally, with the registry and the
    cancelled handles as they were. *)
Theorem jsk_cancel_behaviour (c : Context) (i : Z) (w : World) :
  reachable w ->
  tasks (cog w) <> [] ->
  (i = -1 ->
   exists t,
     jsk_cancel c i w = (Ret tt, cancel_world w t (removelast (tasks (cog w))))
     /\ In t (tasks (cog w))
     /\ ~ In t (removelast (tasks (cog w)))
     /\ (forall t', In t' (tasks (cog w)) -> t' <> t ->
           index t' < index t /\ In t' (removelast (tasks (cog w)))))
  /\ (i <> -1 ->
      forall t, In t (tasks (cog w)) -> index t = i ->
        (forall t', In t' (tasks (cog w)) -> index t' = i -> t' = t)
        /\ jsk_cancel c i w
           = (Ret tt, cancel_world w t (deque_remove t (tasks (cog w))))
        /\ (forall t', In t' (deque_remove t (tasks (cog w)))
                       <-> In t' (tasks (cog w)) /\ t' <> t))
  /\ (i <> -1 ->
      (forall t, In t (tasks (cog w)) -> index t <> i) ->
      jsk_cancel c i w = (Ret tt, say w (lit "Unknown task."))).
Proof.
  intros Hreach Hne. apply reachable_sorted in Hreach as Hsorted.
  rewrite jsk_cancel_spec.
  destruct (tasks (cog w)) as [|first rest] eqn:E; [contradiction|].
  rewrite <- E in *. split; [|split].
  - intros ->. exists (List.last (tasks (cog w)) first).
    destruct (sorted_last_removed _ first Hsorted Hne) as [Hin Hout].
    split; [reflexivity|]. split; [assumption|]. split; [assumption|].
    intros t' Hin' Hne'. apply sorted_last_latest; assumption.
  - intros Hi t Hin Hidx.
    assert (Hb : (i =? -1) = false) by (apply Z.eqb_neq; assumption).
    rewrite Hb. subst i. rewrite (utils_get_found _ _ Hsorted Hin).
    split; [|split].
    + intros t' Hin' E'. eapply sorted_unique_index; eauto.
    + reflexivity.
    + intros t'. apply deque_remove_sorted_In. assumption.
  - intros Hi Hno.
    assert (Hb : (i =? -1) = false) by (apply Z.eqb_neq; assumption).
    rewrite Hb, (utils_get_unknown _ _ Hno). reflexivity.
Qed.

(** C4 with tasks 1 and 2 in flight: [-1] cancels task 2, [1] cancels task
    1, and [9] is an unknown task. *)
Lemma jsk_cancel_behaviour_witness :
  (exists t,
     jsk_cancel owner_ctx (-1) two_tasks
       = (Ret tt, cancel_world two_tasks t (removelast (tasks (cog two_tasks))))
     /\ index t = 2)
  /\ jsk_cancel owner_ctx 1 two_tasks
     = (Ret tt, cancel_world two_tasks
                  {| index := 1; ctx := owner_ctx; task := 11%nat |}
                  (deque_remove {| index := 1; ctx := owner_ctx; task := 11%nat |}
                                (tasks (cog two_tasks))))
  /\ jsk_cancel owner_ctx 9 two_tasks = (Ret tt, say two_tasks (lit "Unknown task.")).
Proof.
  assert (Hreach : reachable two_tasks).
  { exists example_bot, (lit "_"), true,
      [OpSubmit owner_ctx 11%nat; OpSubmit stranger_ctx 12%nat]. reflexivity. }
  assert (Hne : tasks (cog two_tasks) <> []) by (vm_compute; discriminate).
  split; [|split].
  - destruct (proj1 (jsk_cancel_behaviour owner_ctx (-1) two_tasks Hreach Hne) eq_refl)
      as (t & Hrun & Hin & _).
    exists t. split; [exact Hrun|].
    vm_compute in Hin. destruct Hin as [<-|[<-|[]]].
    + exfalso.
      rewrite jsk_cancel_spec in Hrun. vm_compute in Hrun. discriminate Hrun.
    + reflexivity.
  - refine (proj1 (proj2 (proj1 (proj2
      (jsk_cancel_behaviour owner_ctx 1 two_tasks Hreach Hne)) _ _ _ _))).
    + discriminate.
    + vm_compute. left. reflexivity.
    + reflexivity.
  - apply (proj2 (proj2 (jsk_cancel_behaviour owner_ctx 9 two_tasks Hreach Hne))).
    + discriminate.
    + intros t Hin. vm_compute in Hin. destruct Hin as [<-|[<-|[]]]; discriminate.
Defined.

(** ** Scope retention *)

Lemma frame_refl (w : World) : frame w w.
Proof. unfold frame. auto. Qed.

Lemma frame_trans (w1 w2 w3 : World) : frame w1 w2 -> frame w2 w3 -> frame w1 w3.
Proof. unfold frame. intros (-> & -> & ?) (-> & -> & ?). repeat split; lia. Qed.

Lemma framed_bind {A B} (m : Cmd A) (k : A -> Cmd B) :
  framed m -> (forall a, framed (k a)) -> framed (bind m k).
Proof.
  intros Hm Hk w o w' E. unfold bind in E.
  destruct (m w) as [[a|e] w1] eqn:Em.
  - eapply frame_trans; [eapply Hm | eapply Hk]; eauto.
  - inversion E; subst. eapply Hm; eauto.
Qed.

Ltac frame_solve :=
  unfold frame; simpl; rewrite ?length_insert, ?length_app; simpl;
  repeat split; first [reflexivity | lia].

Lemma framed_ret {A} (a : A) : framed (ret a).
Proof. intros w o w' E. inversion E; subst. frame_solve. Qed.

Lemma framed_raise {A} (e : PyExc) : framed (@raise A e).
Proof. intros w o w' E. inversion E; subst. frame_solve. Qed.

Lemma framed_send (m : Sent) : framed (send m).
Proof. intros w o w' E. inversion E; subst. frame_solve. Qed.

Lemma framed_cancel (t : Task) : framed (cancel t).
Proof. intros w o w' E. inversion E; subst. frame_solve. Qed.

Lemma framed_read_scope (r : ScopeRef) : framed (read_scope r).
Proof. intros w o w' E. inversion E; subst. frame_solve. Qed.

Lemma framed_write_scope (r : ScopeRef) (s : Scope) : framed (write_scope r s).
Proof. intros w o w' E. inversion E; subst. frame_solve. Qed.

Lemma framed_new_scope : framed new_scope.
Proof. intros w o w' E. inversion E; subst. frame_solve. Qed.

Lemma framed_scope : framed scope.
Proof.
  intros w o w' E. unfold scope, bind, get_cog in E.
  destruct (retain (cog w)).
  - inversion E; subst. frame_solve.
  - eapply framed_new_scope; eauto.
Qed.

(** Updating the tasks, the counter, the last result or the bot of the cog
    within a command. *)
Lemma framed_update {A} (f : Jishaku -> Jishaku) (k : Jishaku -> Cmd A) :
  (forall self, retain (f self) = retain self /\ _scope (f self) = _scope self) ->
  (forall self, framed (k self)) ->
  framed (do self <- get_cog; do_ put_cog (f self); k self).
Proof.
  intros Hf Hk w o w' E. unfold bind, get_cog, put_cog in E.
  apply Hk in E. destruct E as (E1 & E2 & E3). simpl in *.
  destruct (Hf (cog w)) as [F1 F2]. unfold frame. rewrite E1, E2. auto.
Qed.

Lemma framed_for_each {A} (xs : list A) (body : A -> Cmd unit) :
  (forall x, framed (body x)) -> framed (for_each xs body).
Proof.
  intros Hb. induction xs as [|x xs IH]; simpl.
  - apply framed_ret.
  - apply framed_bind; auto.
Qed.

Lemma framed_try_finally {A} (body : Cmd A) (cleanup : Cmd unit) :
  framed body -> framed cleanup -> framed (try_finally body cleanup).
Proof.
  intros Hb Hc w o w' E. unfold try_finally in E.
  destruct (body w) as [o1 w1] eqn:Eb.
  destruct (cleanup w1) as [[[]|e] w2] eqn:Ec; inversion E; subst;
    (eapply frame_trans; [eapply Hb | eapply Hc]; eauto).
Qed.

Lemma framed_submit_enter (c : Context) (t : Task) : framed (submit_enter c t).
Proof. intros w o w' E. inversion E; subst. frame_solve. Qed.

Lemma framed_submit_exit (x : CommandTask) : framed (submit_exit x).
Proof.
  intros w o w' E. unfold submit_exit, bind, get_cog in E.
  destruct (bool_decide _); inversion E; subst; frame_solve.
Qed.

Lemma framed_submit {A} (c : Context) (t : Task) (body : CommandTask -> Cmd A) :
  (forall x, framed (body x)) -> framed (submit c t body).
Proof.
  intros Hb. unfold submit. apply framed_bind; [apply framed_submit_enter|].
  intros x. apply framed_try_finally; [apply Hb | apply framed_submit_exit].
Qed.

Section Repl.
Context `{Host}.

Lemma framed_ReplResponseReactor {A} (body : Cmd A) :
  framed body -> framed (ReplResponseReactor body).
Proof.
  intros Hb w o w' E. unfold ReplResponseReactor in E.
  destruct (body w) as [[a|e] w1] eqn:Eb.
  - inversion E; subst. eapply Hb; eauto.
  - eapply frame_trans; [eapply Hb; eauto|].
    revert E. apply framed_bind; [apply framed_send | intros; apply framed_ret].
Qed.

Lemma framed_jsk_python_result (c : Context) (result : Value) :
  framed (jsk_python_result c result).
Proof.
  unfold jsk_python_result.
  destruct result; try apply framed_ret;
    apply (framed_update (fun self => set_last_result self _));
    try (intros; split; reflexivity); intros self;
    try apply framed_send;
    repeat match goal with
           | |- framed (if ?b then _ else _) => destruct b
           | |- framed (send _) => apply framed_send
           end.
Qed.

Lemma framed_jsk_python_inspect_result (c : Context) (result : Value) :
  framed (jsk_python_inspect_result c result).
Proof.
  unfold jsk_python_inspect_result.
  apply (framed_update (fun self => set_last_result self result)).
  - intros; split; reflexivity.
  - intros self. apply framed_send.
Qed.

Lemma framed_run_executor (code : pystr) (r : ScopeRef)
    (arg_dict : gmap pystr Value) (loop_body : Value -> Cmd unit) :
  (forall v, framed (loop_body v)) ->
  framed (run_executor code r arg_dict loop_body).
Proof.
  intros Hb. unfold run_executor.
  apply framed_bind; [apply framed_read_scope|]. intros s.
  apply framed_bind; [apply framed_write_scope|]. intros _.
  apply framed_bind; [apply framed_for_each, Hb|]. intros _.
  destruct (failure _); [apply framed_raise | apply framed_ret].
Qed.

Lemma framed_jsk_python_try c t code r arg_dict :
  framed (jsk_python_try c t code r arg_dict).
Proof.
  unfold jsk_python_try.
  apply framed_bind; [|intros; apply framed_ret].
  apply framed_ReplResponseReactor, framed_submit. intros _.
  apply framed_run_executor, framed_jsk_python_result.
Qed.

Lemma framed_jsk_python_inspect_try c t code r arg_dict :
  framed (jsk_python_inspect_try c t code r arg_dict).
Proof.
  unfold jsk_python_inspect_try.
  apply framed_bind; [|intros; apply framed_ret].
  apply framed_ReplResponseReactor, framed_submit. intros _.
  apply framed_run_executor, framed_jsk_python_inspect_result.
Qed.

Lemma framed_scope_clear_intersection r arg_dict :
  framed (scope_clear_intersection r arg_dict).
Proof.
  unfold scope_clear_intersection.
  apply framed_bind; [apply framed_read_scope | intros; apply framed_write_scope].
Qed.

(** What the [scope] property returns. *)
Lemma scope_spec (w : World) :
  scope w =
  if retain (cog w) then (Ret (_scope (cog w)), w)
  else (Ret (length (heap w)),
        {| cog := cog w; heap := heap w ++ [∅]; outbox := outbox w;
           cancelled := cancelled w |}).
Proof. unfold scope, bind, get_cog, new_scope, ret. destruct (retain (cog w)); reflexivity. Qed.

Lemma scope_returns (w : World) :
  wf w ->
  scope w = (Ret (scope_of w), snd (scope w))
  /\ (scope_of w < length (heap (snd (scope w))))%nat
  /\ cog (snd (scope w)) = cog w.
Proof.
  unfold scope_of, wf. rewrite scope_spec.
  destruct (retain (cog w)); simpl; intros Hwf.
  - auto.
  - split; [reflexivity|]. rewrite length_app. simpl. split; [lia | reflexivity].
Qed.

(** The [finally] clause: whatever the block did, the scope object is
    cleared of the injected keys and of nothing else. *)
Lemma cleanup_spec {A} (body : Cmd A) (r : ScopeRef) (arg_dict : gmap pystr Value)
    (w0 wb : World) (o : Outcome A) :
  body w0 = (o, wb) ->
  (r < length (heap wb))%nat ->
  exists w',
    try_finally body (scope_clear_intersection r arg_dict) w0 = (o, w')
    /\ cleared wb w' r arg_dict.
Proof.
  intros Hb Hr. unfold try_finally, scope_clear_intersection. rewrite Hb.
  cmd_unfold. simpl. eexists. split; [reflexivity|].
  unfold cleared, scope_at; simpl.
  rewrite list_lookup_insert_eq by assumption. simpl.
  repeat split; try reflexivity.
  - intros k Hk. unfold clear_intersection.
    apply map_lookup_filter_None_2. right. intros v _. simpl. tauto.
  - intros k Hk. unfold clear_intersection.
    destruct (default ∅ (heap wb !! r) !! k) as [v|] eqn:E.
    + apply map_lookup_filter_Some_2; auto.
    + apply map_lookup_filter_None_2. left. assumption.
  - intros r' Hne. apply list_lookup_insert_ne. congruence.
Qed.

Lemma make_arg_dict_last_result (self : Jishaku) (c : Context) :
  lit "_" ∈ dom (make_arg_dict self c).
Proof. unfold make_arg_dict. rewrite dom_insert_L. set_solver. Qed.

Lemma jsk_python_unfold (c : Context) (t : Task) (code : pystr) (w : World) :
  wf w ->
  jsk_python c t code w =
  try_finally (jsk_python_try c t code (scope_of w) (make_arg_dict (cog w) c))
              (scope_clear_intersection (scope_of w) (make_arg_dict (cog w) c))
              (snd (scope w)).
Proof.
  intros Hwf. destruct (scope_returns w Hwf) as (Hs & _).
  unfold jsk_python, bind, get_cog. rewrite Hs. reflexivity.
Qed.

Lemma jsk_python_inspect_unfold (c : Context) (t : Task) (code : pystr) (w : World) :
  wf w ->
  jsk_python_inspect c t code w =
  try_finally (jsk_python_inspect_try c t code (scope_of w) (make_arg_dict (cog w) c))
              (scope_clear_intersection (scope_of w) (make_arg_dict (cog w) c))
              (snd (scope w)).
Proof.
  intros Hwf. destruct (scope_returns w Hwf) as (Hs & _).
  unfold jsk_python_inspect, bind, get_cog. rewrite Hs. reflexivity.
Qed.

(** C2. A REPL invocation, [jsk py] or [jsk py_inspect], takes its scope
    object [r] and builds [arg_dict], which has the last-result key ["_"];
    whatever its [try] block does, return or raise, the [finally] clause
    then removes from [r] exactly the keys of [arg_dict]: they are unbound
    afterwards, every other key of [r] is bound as the block left it, and
    neither another scope object nor the cog changes. *)
Theorem repl_clears_injected (c : Context) (t : Task) (code : pystr) (w : World) :
  wf w ->
  let arg_dict := make_arg_dict (cog w) c in
  let r := scope_of w in
  let w0 := snd (scope w) in
  lit "_" ∈ dom arg_dict
  /\ (forall A (block : Cmd A) (o : Outcome A) (wb : World),
        block w0 = (o, wb) -> (r < length (heap wb))%nat ->
        exists w',
          try_finally block (scope_clear_intersection r arg_dict) w0 = (o, w')
          /\ cleared wb w' r arg_dict)
  /\ (exists o wb w',
        jsk_python_try c t code r arg_dict w0 = (o, wb)
        /\ jsk_python c t code w = (o, w')
        /\ cleared wb w' r arg_dict)
  /\ (exists o wb w',
        jsk_python_inspect_try c t code r arg_dict w0 = (o, wb)
        /\ jsk_python_inspect c t code w = (o, w')
        /\ cleared wb w' r arg_dict).
Proof.
  intros Hwf arg_dict r w0.
  destruct (scope_returns w Hwf) as (Hs & Hr & _). fold r w0 in Hr.
  split; [apply make_arg_dict_last_result|].
  split; [intros A block o wb; apply cleanup_spec|].
  split.
  - destruct (jsk_python_try c t code r arg_dict w0) as [o wb] eqn:Eb.
    assert (Hlen : (r < length (heap wb))%nat).
    { apply framed_jsk_python_try in Eb as (_ & _ & Hl). lia. }
    destruct (cleanup_spec _ r arg_dict w0 wb o Eb Hlen) as (w' & Hrun & Hcl).
    exists o, wb, w'. rewrite jsk_python_unfold by assumption. auto.
  - destruct (jsk_python_inspect_try c t code r arg_dict w0) as [o wb] eqn:Eb.
    assert (Hlen : (r < length (heap wb))%nat).
    { apply framed_jsk_python_inspect_try in Eb as (_ & _ & Hl). lia. }
    destruct (cleanup_spec _ r arg_dict w0 wb o Eb Hlen) as (w' & Hrun & Hcl).
    exists o, wb, w'. rewrite jsk_python_inspect_unfold by assumption. auto.
Qed.

End Repl.

(** C2 on the example host: running the code [x] in the retained scope
    leaves [x] bound and the injected [_ctx] and [_] unbound. *)
Lemma repl_clears_injected_witness :
  wf example_world
  /\ exists o wb w',
      @jsk_python example_host owner_ctx 5%nat (lit "x") example_world = (o, w')
      /\ cleared wb w' (scope_of example_world)
                 (@make_arg_dict example_host (cog example_world) owner_ctx)
      /\ scope_at wb (scope_of example_world) !! lit "_ctx" = Some (VObj 1)
      /\ scope_at w' (scope_of example_world) !! lit "_ctx" = None
      /\ scope_at w' (scope_of example_world) !! lit "x" = Some (VStr (lit "x")).
Proof.
  assert (Hwf : wf example_world) by (vm_compute; lia).
  split; [exact Hwf|].
  destruct (@repl_clears_injected example_host owner_ctx 5%nat (lit "x")
              example_world Hwf) as (_ & _ & (o & wb & w' & Htry & Hrun & Hcl) & _).
  exists o, wb, w'. split; [exact Hrun|]. split; [exact Hcl|].
  assert (Hw' : w' = snd (@jsk_python example_host owner_ctx 5%nat (lit "x") example_world))
    by (rewrite Hrun; reflexivity).
  assert (Hwb : wb = snd (@jsk_python_try example_host owner_ctx 5%nat (lit "x")
                            (scope_of example_world)
                            (@make_arg_dict example_host (cog example_world) owner_ctx)
                            (snd (scope example_world))))
    by (rewrite Htry; reflexivity).
  rewrite Hw', Hwb. vm_compute. auto.
Defined.

Section Retention.
Context `{Host}.

Lemma framed_get_cog_bind {A} (k : Jishaku -> Cmd A) :
  (forall self, framed (k self)) -> framed (do self <- get_cog; k self).
Proof. intros Hk w o w' E. unfold bind, get_cog in E. eapply Hk; eauto. Qed.

Lemma framed_jsk_python (c : Context) (t : Task) (code : pystr) :
  framed (jsk_python c t code).
Proof.
  unfold jsk_python. apply framed_get_cog_bind. intros self.
  apply framed_bind; [apply framed_scope|]. intros r.
  apply framed_try_finally;
    [apply framed_jsk_python_try | apply framed_scope_clear_intersection].
Qed.

Lemma framed_jsk_python_inspect (c : Context) (t : Task) (code : pystr) :
  framed (jsk_python_inspect c t code).
Proof.
  unfold jsk_python_inspect. apply framed_get_cog_bind. intros self.
  apply framed_bind; [apply framed_scope|]. intros r.
  apply framed_try_finally;
    [apply framed_jsk_python_inspect_try | apply framed_scope_clear_intersection].
Qed.

Lemma invocation_frame (inv : ReplOp) (w : World) :
  is_invocation inv -> frame w (apply_repl w inv).
Proof.
  destruct inv as [c toggle | c t code | c t code]; simpl; intros Hinv;
    [destruct Hinv | |].
  - destruct (jsk_python c t code w) as [o w'] eqn:E.
    apply framed_jsk_python in E. exact E.
  - destruct (jsk_python_inspect c t code w) as [o w'] eqn:E.
    apply framed_jsk_python_inspect in E. exact E.
Qed.

(** An invocation leaves its scope object in the store. *)
Lemma invocation_keeps_scope (inv : ReplOp) (w : World) :
  wf w -> is_invocation inv ->
  (scope_of w < length (heap (apply_repl w inv)))%nat.
Proof.
  intros Hwf Hinv. destruct (scope_returns w Hwf) as (_ & Hr & _).
  destruct inv as [c toggle | c t code | c t code]; simpl; [destruct Hinv | |].
  - rewrite jsk_python_unfold by assumption.
    destruct (try_finally _ _ (snd (scope w))) as [o w'] eqn:E. simpl.
    apply (framed_try_finally _ _ (framed_jsk_python_try c t code _ _)
             (framed_scope_clear_intersection _ _)) in E as (_ & _ & Hl). lia.
  - rewrite jsk_python_inspect_unfold by assumption.
    destruct (try_finally _ _ (snd (scope w))) as [o w'] eqn:E. simpl.
    apply (framed_try_finally _ _ (framed_jsk_python_inspect_try c t code _ _)
             (framed_scope_clear_intersection _ _)) in E as (_ & _ & Hl). lia.
Qed.

(** What [jsk retain] does to the flag, the retained scope and the store. *)
Lemma jsk_retain_spec (c : Context) (toggle : option bool) (w : World) :
  let w' := apply_repl w (OpRetain c toggle) in
  match toggle with
  | Some true =>
      if retain (cog w) then cog w' = cog w /\ heap w' = heap w
      else retain (cog w') = true /\ _scope (cog w') = length (heap w)
           /\ heap w' = heap w ++ [∅]
  | Some false =>
      retain (cog w') = false /\ _scope (cog w') = _scope (cog w)
      /\ heap w' = heap w
  | None => cog w' = cog w /\ heap w' = heap w
  end.
Proof.
  unfold apply_repl, jsk_retain. cmd_unfold. cbv beta iota zeta.
  destruct toggle as [[|]|]; destruct (retain (cog w)) eqn:E; simpl; auto.
Qed.

Lemma retain_run_on (ops : list ReplOp) (w : World) :
  Forall is_retain ops -> retain (cog w) = true -> ~ turns_off ops ->
  cog (run_repl ops w) = cog w /\ heap (run_repl ops w) = heap w.
Proof.
  revert w. induction ops as [|op ops IH]; intros w Hall Hon Hoff; simpl; [auto|].
  inversion Hall as [|? ? Hop Hops]; subst.
  destruct op as [c toggle | |]; try destruct Hop.
  pose proof (jsk_retain_spec c toggle w) as Hstep. cbv zeta in Hstep.
  assert (Hsame : cog (apply_repl w (OpRetain c toggle)) = cog w
                  /\ heap (apply_repl w (OpRetain c toggle)) = heap w).
  { destruct toggle as [[|]|]; [rewrite Hon in Hstep; exact Hstep | | exact Hstep].
    exfalso. apply Hoff. exists c. left. reflexivity. }
  destruct Hsame as [Hc Hh].
  destruct (IH (apply_repl w (OpRetain c toggle))) as [Hc' Hh']; auto.
  - rewrite Hc. exact Hon.
  - intros (c' & Hin). apply Hoff. exists c'. right. exact Hin.
  - fold (run_repl ops (apply_repl w (OpRetain c toggle))).
    rewrite Hc', Hh'. auto.
Qed.

Lemma renewed_step (base : list Scope) (op : ReplOp) (w : World) :
  is_retain op -> renewed base w -> renewed base (apply_repl w op).
Proof.
  intros Hop [[k Hk] Hs].
  destruct op as [c toggle | |]; try destruct Hop.
  pose proof (jsk_retain_spec c toggle w) as Hstep. cbv zeta in Hstep.
  unfold renewed.
  destruct toggle as [[|]|].
  - destruct (retain (cog w)) eqn:Eon.
    + destruct Hstep as [-> ->]. rewrite Eon. split; [eauto | exact Hs].
    + destruct Hstep as (-> & -> & ->). split.
      * exists (S k). rewrite Hk, <- app_assoc. f_equal.
        change [∅] with (replicate 1 (∅ : Scope)).
        rewrite <- replicate_add. f_equal. lia.
      * intros _. rewrite Hk, !length_app, length_replicate. simpl. lia.
  - destruct Hstep as (-> & _ & ->). split; [eauto | discriminate].
  - destruct Hstep as [-> ->]. split; [eauto | exact Hs].
Qed.

Lemma renewed_run (base : list Scope) (ops : list ReplOp) (w : World) :
  Forall is_retain ops -> renewed base w -> renewed base (run_repl ops w).
Proof.
  revert w. induction ops as [|op ops IH]; intros w Hall Hw; simpl; [assumption|].
  inversion Hall; subst. apply IH; [assumption|]. apply renewed_step; assumption.
Qed.

Lemma renewed_off (w : World) : retain (cog w) = false -> renewed (heap w) w.
Proof.
  intros Hoff. split; [exists 0%nat; simpl; now rewrite app_nil_r|].
  rewrite Hoff. discriminate.
Qed.

(** In a renewed world the [scope] property hands out an empty scope that
    is not among the base objects. *)
Lemma renewed_scope (base : list Scope) (w : World) :
  renewed base w ->
  (length base <= scope_of w)%nat
  /\ scope_at (snd (scope w)) (scope_of w) = ∅.
Proof.
  intros [[k Hk] Hs]. unfold scope_of, scope_at. rewrite scope_spec.
  destruct (retain (cog w)) eqn:Eon; simpl.
  - specialize (Hs eq_refl). split; [lia|].
    rewrite Hk in *. rewrite lookup_app_r by lia.
    rewrite length_app, length_replicate in Hs.
    rewrite lookup_replicate_2 by lia. reflexivity.
  - split; [rewrite Hk, length_app; lia|].
    rewrite lookup_app_r by lia. rewrite Nat.sub_diag. reflexivity.
Qed.

(** The first [jsk retain off] of a run of commands. *)
Lemma first_turn_off (ops : list ReplOp) :
  turns_off ops ->
  exists before c after,
    ops = before ++ OpRetain c (Some false) :: after /\ ~ turns_off before.
Proof.
  induction ops as [|op ops IH]; intros (c & Hin); [destruct Hin|].
  destruct op as [c0 [[|]|] | c0 t0 code0 | c0 t0 code0].
  2: { exists [], c0, ops. split; [reflexivity|]. intros (? & []). }
  all: destruct Hin as [E|Hin]; [discriminate E|];
    destruct IH as (before & c' & after & -> & Hno); [exists c; exact Hin|];
    eexists (_ :: before), c', after; split; [reflexivity|];
    intros (c'' & [E|Hin']); [discriminate E | apply Hno; exists c''; exact Hin'].
Qed.

Lemma younger_step (n : nat) (op : ReplOp) (w : World) :
  younger n w -> younger n (apply_repl w op).
Proof.
  intros [Hn Hs]. unfold younger.
  destruct op as [c toggle | c t code | c t code].
  - pose proof (jsk_retain_spec c toggle w) as Hstep. cbv zeta in Hstep.
    destruct toggle as [[|]|].
    + destruct (retain (cog w)) eqn:Eon.
      * destruct Hstep as [-> ->]. rewrite Eon. auto.
      * destruct Hstep as (-> & -> & ->). rewrite length_app. simpl.
        split; [lia | intros _; lia].
    + destruct Hstep as (-> & _ & ->). split; [assumption | discriminate].
    + destruct Hstep as [-> ->]. auto.
  - destruct (invocation_frame (OpPython c t code) w I) as (-> & -> & Hl).
    split; [lia | assumption].
  - destruct (invocation_frame (OpInspect c t code) w I) as (-> & -> & Hl).
    split; [lia | assumption].
Qed.

Lemma younger_run (n : nat) (ops : list ReplOp) (w : World) :
  younger n w -> younger n (run_repl ops w).
Proof.
  revert w. induction ops as [|op ops IH]; intros w Hw; simpl; [assumption|].
  apply IH, younger_step, Hw.
Qed.

Lemma classic_turns_off (ops : list ReplOp) : turns_off ops \/ ~ turns_off ops.
Proof.
  induction ops as [|op ops [IH|IH]].
  - right. intros (? & []).
  - left. destruct IH as (c & Hin). exists c. right. exact Hin.
  - destruct op as [c [[|]|] | c t code | c t code].
    2: { left. exists c. left. reflexivity. }
    all: right; intros (c' & [E|Hin]); [discriminate E | apply IH; exists c'; exact Hin].
Qed.

(** The retained scope stays an object of the store. *)
Lemma wf_init (b : Bot) (scope_prefix : pystr) (r : bool) :
  wf (init b scope_prefix r).
Proof. unfold wf. simpl. lia. Qed.

Lemma wf_step (op : ReplOp) (w : World) : wf w -> wf (apply_repl w op).
Proof.
  unfold wf. intros Hwf.
  destruct op as [c toggle | c t code | c t code].
  - pose proof (jsk_retain_spec c toggle w) as Hstep. cbv zeta in Hstep.
    destruct toggle as [[|]|].
    + destruct (retain (cog w)).
      * destruct Hstep as [-> ->]. exact Hwf.
      * destruct Hstep as (_ & -> & ->). rewrite length_app. simpl. lia.
    + destruct Hstep as (_ & -> & ->). exact Hwf.
    + destruct Hstep as [-> ->]. exact Hwf.
  - destruct (invocation_frame (OpPython c t code) w I) as (_ & -> & Hl). lia.
  - destruct (invocation_frame (OpInspect c t code) w I) as (_ & -> & Hl). lia.
Qed.

Lemma wf_run (ops : list ReplOp) (w : World) : wf w -> wf (run_repl ops w).
Proof.
  revert w. induction ops as [|op ops IH]; intros w Hw; simpl; [assumption|].
  apply IH, wf_step, Hw.
Qed.

Lemma retention_between (inv : ReplOp) (ops : list ReplOp) (w : World) :
  wf w -> is_invocation inv -> Forall is_retain ops ->
  let r1 := scope_of w in
  let w1 := apply_repl w inv in
  let w2 := run_repl ops w1 in
  let r2 := scope_of w2 in
  let w3 := snd (scope w2) in
  (retain (cog w) = true /\ ~ turns_off ops ->
   r2 = r1 /\ scope_at w3 r2 = scope_at w1 r1 /\ retain (cog w2) = true)
  /\ (~ (retain (cog w) = true /\ ~ turns_off ops) ->
      (length (heap w1) <= r2)%nat /\ r2 <> r1 /\ scope_at w3 r2 = ∅).
Proof.
  intros Hwf Hinv Hall r1 w1 w2 r2 w3.
  destruct (invocation_frame inv w Hinv) as (Hret & Hsc & Hlen). fold w1 in Hret, Hsc, Hlen.
  pose proof (invocation_keeps_scope inv w Hwf Hinv) as Hr1. fold w1 r1 in Hr1.
  split.
  - intros [Hon Hoff].
    destruct (retain_run_on ops w1 Hall) as [Hc Hh]; [congruence | assumption |].
    fold w2 in Hc, Hh.
    assert (Hon2 : retain (cog w2) = true) by (rewrite Hc; congruence).
    subst r2 w3 r1. unfold scope_of, scope_at. rewrite !scope_spec, Hon2, Hon. simpl.
    rewrite Hc, Hh, Hsc. auto.
  - intros Hnot.
    assert (Hren : renewed (heap w1) w2).
    { destruct (retain (cog w)) eqn:Eon.
      - assert (Hoff : turns_off ops).
        { destruct (classic_turns_off ops) as [?|Hno]; [assumption|].
          exfalso. apply Hnot. auto. }
        apply first_turn_off in Hoff
          as (before & c & after & -> & Hno).
        apply Forall_app in Hall as [Hb Ha].
        inversion Ha as [|? ? _ Hafter]; subst.
        subst w2. unfold run_repl. rewrite fold_left_app. cbn [fold_left].
        fold (run_repl before w1).
        destruct (retain_run_on before w1 Hb) as [Hc Hh]; [congruence | assumption |].
        pose proof (jsk_retain_spec c (Some false) (run_repl before w1)) as Hstep.
        cbv zeta in Hstep. destruct Hstep as (Hr & _ & Hheap).
        apply renewed_run; [assumption|].
        rewrite <- Hh, <- Hheap. apply renewed_off. exact Hr.
      - subst w2. apply renewed_run; [assumption|].
        apply renewed_off. congruence. }
    destruct (renewed_scope _ _ Hren) as [Hge Hempty]. fold r2 w3 in Hge, Hempty.
    split; [assumption|]. split; [lia | assumption].
Qed.

(** C1, as amended.  The [scope] property returns the one retained scope
    object, in an unchanged world, when retention is on, and a new, empty
    scope object when it is off.  The scope object of one REPL invocation,
    with everything the invocation left in it, is the scope object of the
    next invocation if and only if retention was on at the first and no
    [jsk retain off] came between the two, in which case it is also on at
    the second; otherwise the next invocation gets an empty scope object
    that did not exist when the first ended.  And once retention is off,
    every later invocation, whatever was run in between, gets a scope
    object created after that point. *)
Theorem scope_retention :
  (forall w, retain (cog w) = true -> scope w = (Ret (_scope (cog w)), w))
  /\ (forall w, retain (cog w) = false ->
        scope_of w = length (heap w)
        /\ scope_at (snd (scope w)) (scope_of w) = ∅
        /\ cog (snd (scope w)) = cog w
        /\ (forall r, (r < length (heap w))%nat ->
              heap (snd (scope w)) !! r = heap w !! r))
  /\ (forall inv ops w,
        wf w -> is_invocation inv -> Forall is_retain ops ->
        let r1 := scope_of w in
        let w1 := apply_repl w inv in
        let w2 := run_repl ops w1 in
        let r2 := scope_of w2 in
        let w3 := snd (scope w2) in
        (r2 = r1 <-> retain (cog w) = true /\ ~ turns_off ops)
        /\ (r2 = r1 -> scope_at w3 r2 = scope_at w1 r1
                       /\ retain (cog w) = true /\ retain (cog w2) = true)
        /\ (r2 <> r1 -> scope_at w3 r2 = ∅ /\ (length (heap w1) <= r2)%nat))
  /\ (forall ops w,
        retain (cog w) = false ->
        (length (heap w) <= scope_of (run_repl ops w))%nat).
Proof.
  split; [|split; [|split]].
  - intros w Hon. rewrite scope_spec, Hon. reflexivity.
  - intros w Hoff. unfold scope_of, scope_at. rewrite scope_spec, Hoff. simpl.
    split; [reflexivity|]. split.
    + rewrite lookup_app_r by lia. rewrite Nat.sub_diag. reflexivity.
    + split; [reflexivity|]. intros r Hr. apply lookup_app_l. exact Hr.
  - intros inv ops w Hwf Hinv Hall r1 w1 w2 r2 w3.
    destruct (retention_between inv ops w Hwf Hinv Hall) as [Hyes Hno].
    fold r1 w1 w2 r2 w3 in Hyes, Hno.
    assert (Hdec : (retain (cog w) = true /\ ~ turns_off ops)
                   \/ ~ (retain (cog w) = true /\ ~ turns_off ops)).
    { destruct (retain (cog w)); destruct (classic_turns_off ops); intuition congruence. }
    destruct Hdec as [Hc|Hc].
    + destruct (Hyes Hc) as (Heq & Hsame & Hon2).
      split; [tauto|]. split; [intros _; tauto | intros Hne; contradiction].
    + destruct (Hno Hc) as (Hge & Hne & Hempty).
      split; [split; [intros E; contradiction | intros Hc'; contradiction]|].
      split; [intros E; contradiction | intros _; auto].
  - intros ops w Hoff.
    assert (Hy : younger (length (heap w)) (run_repl ops w)).
    { apply younger_run. split; [lia | rewrite Hoff; discriminate]. }
    destruct Hy as [Hn Hs]. unfold scope_of. rewrite scope_spec.
    destruct (retain (cog (run_repl ops w))); simpl; auto.
Qed.

End Retention.

(** C1 on the example host, retention on: [y] left by one invocation is in
    the scope of the next when only [jsk retain on] is run in between. *)
Lemma scope_retention_witness :
  wf example_world
  /\ scope_of (@run_repl example_host [OpRetain owner_ctx (Some true)]
                 (@apply_repl example_host example_world
                    (OpPython owner_ctx 5%nat (lit "y"))))
     = scope_of example_world
  /\ scope_at (@apply_repl example_host example_world
                 (OpPython owner_ctx 5%nat (lit "y")))
              (scope_of example_world) !! lit "y" = Some (VStr (lit "y")).
Proof.
  assert (Hwf : wf example_world) by (vm_compute; lia).
  split; [exact Hwf|]. split; [|vm_compute; reflexivity].
  destruct (@scope_retention example_host) as (_ & _ & Hbetween & _).
  apply (Hbetween (OpPython owner_ctx 5%nat (lit "y"))
                  [OpRetain owner_ctx (Some true)] example_world Hwf I).
  - repeat constructor.
  - split; [reflexivity|]. intros (c & [E|[]]). discriminate E.
Defined.

(** C1 as stated fails: retention is on at both invocations, but
    [jsk retain off] and [jsk retain on] were run in between, and the [y]
    the first invocation left in its scope is not in the scope of the
    second. *)
Lemma retention_on_at_both_times_not_enough :
  let w1 := @apply_repl example_host example_world
              (OpPython owner_ctx 5%nat (lit "y")) in
  let w2 := @run_repl example_host
              [OpRetain owner_ctx (Some false); OpRetain owner_ctx (Some true)] w1 in
  retain (cog example_world) = true
  /\ retain (cog w2) = true
  /\ scope_at w1 (scope_of example_world) !! lit "y" = Some (VStr (lit "y"))
  /\ scope_at (snd (scope w2)) (scope_of w2) !! lit "y" = None
  /\ scope_of w2 <> scope_of example_world.
Proof. vm_compute. repeat split; try reflexivity. discriminate. Qed.

(** ** Replacing the token *)

Lemma replace_skip (old new x rest : pystr) :
  replace_nonempty old new (x ++ rest) (length x) = replace_nonempty old new rest 0.
Proof.
  induction x as [|c x IH]; simpl; [destruct rest; reflexivity | exact IH].
Qed.

Lemma replace_hit (old new rest : pystr) :
  old <> [] ->
  replace_nonempty old new (old ++ rest) 0 = new ++ replace_nonempty old new rest 0.
Proof.
  destruct old as [|c old']; [congruence|]. intros _.
  assert (Hs : startswith ((c :: old') ++ rest) (c :: old') = true).
  { apply startswith_spec. eauto. }
  change ((c :: old') ++ rest) with (c :: (old' ++ rest)) in *.
  cbn [replace_nonempty]. rewrite Hs. f_equal.
  replace (length (c :: old') - 1)%nat with (length old') by (simpl; lia).
  apply replace_skip.
Qed.

Lemma replace_miss (old new : pystr) (c : N) (s : pystr) :
  startswith (c :: s) old = false ->
  replace_nonempty old new (c :: s) 0 = c :: replace_nonempty old new s 0.
Proof. intros Hs. cbn [replace_nonempty]. rewrite Hs. reflexivity. Qed.

(** Text without the token is sent as it is. *)
Lemma replace_absent (s old new : pystr) :
  ~ occurs old s -> replace s old new = s.
Proof.
  intros Hno. unfold replace. destruct old as [|o old'].
  { exfalso. apply Hno. exists [], s. reflexivity. }
  induction s as [|c s IH]; [reflexivity|].
  rewrite replace_miss.
  - f_equal. apply IH. intros (before & after & ->). apply Hno.
    exists (c :: before), after. reflexivity.
  - destruct (startswith (c :: s) (o :: old')) eqn:E; [|reflexivity].
    apply startswith_spec in E as (rest & E). exfalso. apply Hno.
    exists [], rest. exact E.
Qed.

(** If the replaced text starts with a string that avoids the first
    character of the replacement, so did the original text. *)
Lemma replace_prefix (old new' : pystr) (a : N) (s t : pystr) :
  old <> [] -> a ∉ t ->
  (exists post, replace_nonempty old (a :: new') s 0 = t ++ post) ->
  exists post, s = t ++ post.
Proof.
  intros Hold. revert t. induction s as [|c s IH]; intros t Ha (post & E).
  - simpl in E. destruct t; [eauto | discriminate].
  - destruct t as [|d t]; [eauto|].
    destruct (startswith (c :: s) old) eqn:Es.
    + apply startswith_spec in Es as (rest & Es). rewrite Es in E.
      rewrite replace_hit in E by assumption. simpl in E.
      inversion E; subst. exfalso. apply Ha. left.
    + rewrite replace_miss in E by assumption. inversion E; subst.
      destruct (IH t) as (post' & ->); [|eauto|eauto].
      intros Hin. apply Ha. right. exact Hin.
Qed.

(** After the replacement no occurrence of [old] is left, provided [old]
    has neither the first nor the last character of the replacement and is
    longer than what lies between them. *)
Lemma replace_removes (old mid : pystr) (a z : N) (s : pystr) :
  a ∉ old -> z ∉ old -> (length mid < length old)%nat ->
  ~ occurs old (replace_nonempty old (a :: mid ++ [z]) s 0).
Proof.
  intros Ha Hz Hlen.
  assert (Hold : old <> []) by (destruct old; [simpl in Hlen; lia | discriminate]).
  remember (length s) as n eqn:Hn. revert s Hn.
  induction n as [n IH] using lt_wf_ind. intros s Hn.
  destruct s as [|c s].
  { simpl. intros (before & after & E). destruct before, old; try discriminate.
    congruence. }
  destruct (startswith (c :: s) old) eqn:Es.
  - apply startswith_spec in Es as (rest & Es). rewrite Es.
    rewrite replace_hit by assumption.
    set (out := replace_nonempty old (a :: mid ++ [z]) rest 0).
    assert (IHrest : ~ occurs old out).
    { apply (IH (length rest)); [|reflexivity].
      subst n. rewrite Es, length_app. destruct old; [congruence | simpl; lia]. }
    intros (before & after & E).
    destruct (decide (length (a :: mid ++ [z]) <= length before)%nat) as [Hle|Hgt].
    + (* the occurrence lies after the replacement *)
      apply IHrest.
      assert (Htake : take (length (a :: mid ++ [z])) ((a :: mid ++ [z]) ++ out)
                      = take (length (a :: mid ++ [z])) (before ++ old ++ after))
        by (rewrite E; reflexivity).
      assert (Hdrop : drop (length (a :: mid ++ [z])) ((a :: mid ++ [z]) ++ out)
                      = drop (length (a :: mid ++ [z])) (before ++ old ++ after))
        by (rewrite E; reflexivity).
      rewrite drop_app_length in Hdrop.
      rewrite drop_app_le in Hdrop by assumption.
      exists (drop (length (a :: mid ++ [z])) before), after. exact Hdrop.
    + (* the occurrence starts inside the replacement *)
      assert (Hk : (length before < length (a :: mid ++ [z]))%nat) by lia.
      destruct before as [|b before'].
      * (* at its first character *)
        destruct old as [|o old']; [congruence|]. simpl in E.
        inversion E; subst. apply Ha. left.
      * (* later: the last character of the replacement is in [old] *)
        set (k := length (b :: before')) in *.
        set (j := (1 + length mid)%nat).
        assert (Hj : ((a :: mid ++ [z]) ++ out) !! j = Some z).
        { rewrite lookup_app_l by (simpl; rewrite length_app; simpl; lia).
          subst j. simpl. rewrite lookup_app_r by lia.
          rewrite Nat.sub_diag. reflexivity. }
        rewrite E in Hj.
        assert (Hkj : (k <= j)%nat).
        { subst k j. simpl in Hk. rewrite length_app in Hk. simpl in *. lia. }
        rewrite lookup_app_r in Hj by (fold k; lia). fold k in Hj.
        rewrite lookup_app_l in Hj by (subst k j; simpl; lia).
        apply Hz. eapply list_elem_of_lookup_2. exact Hj.
  - rewrite replace_miss by assumption.
    intros (before & after & E).
    destruct before as [|b before'].
    + simpl in E.
      assert (Hpre : exists post, c :: s = old ++ post).
      { apply (replace_prefix old (mid ++ [z]) a); [assumption | assumption |].
        rewrite replace_miss by assumption. eauto. }
      apply startswith_spec in Hpre. congruence.
    + simpl in E. inversion E; subst.
      apply (IH (length s)) with (s := s); [simpl; lia | reflexivity |].
      exists before', after. assumption.
Qed.

(** ** Plain-text results of [jsk py] *)

Section PlainText.
Context `{Host}.

Lemma jsk_python_result_text (c : Context) (result : Value) (text : pystr)
    (w : World) :
  plain_text result = Some text -> len text <= 2000 ->
  jsk_python_result c result w =
  (Ret tt,
   say (remember w result)
       (let shown := if decide (strip text = []) then ZWSP else text in
        match ctx_guild c with
        | Some _ => replace shown (http_token (bot (cog w))) (lit "[NO_TOKEN]")
        | None => shown
        end)).
Proof.
  intros Htext Hlen.
  assert (Hshort : (len text >? 2000) = false).
  { rewrite Z.gtb_ltb. apply Z.ltb_ge. exact Hlen. }
  unfold jsk_python_result.
  destruct result; simpl in Htext; try discriminate Htext;
    inversion Htext; subst text; cmd_unfold; cbv beta iota zeta;
    rewrite Hshort; reflexivity.
Qed.

Lemma occurs_single (old : pystr) (ch : N) :
  old <> [] -> old <> [ch] -> ~ occurs old [ch].
Proof.
  intros Hne Hch (before & after & E).
  assert (Hlen : length [ch] = length (before ++ old ++ after)) by (rewrite <- E; reflexivity).
  rewrite !length_app in Hlen. simpl in Hlen.
  destruct old as [|o [|o' old']]; [congruence | | simpl in Hlen; lia].
  destruct before; [|simpl in Hlen; lia].
  simpl in E. inversion E. congruence.
Qed.

(** C10. For a result of [jsk py] that is a string, or another object
    shown by its [repr], of at most 2000 characters: in a guild the
    message sent is the text with the bot's token replaced by [[NO_TOKEN]];
    outside a guild it is the text itself; and a text that is empty or all
    whitespace is sent as the single character U+200B.  The replacement
    leaves text without the token as it is, and leaves no occurrence of a
    token that has no square bracket and more than eight characters. *)
Theorem jsk_python_plain_text (c : Context) (result : Value) (text : pystr)
    (w : World) :
  plain_text result = Some text ->
  len text <= 2000 ->
  let shown := if decide (strip text = []) then ZWSP else text in
  let token := http_token (bot (cog w)) in
  (forall g, ctx_guild c = Some g ->
     jsk_python_result c result w =
       (Ret tt, say (remember w result) (replace shown token (lit "[NO_TOKEN]"))))
  /\ (ctx_guild c = None ->
      jsk_python_result c result w = (Ret tt, say (remember w result) shown))
  /\ (strip text = [] ->
      shown = ZWSP
      /\ (token <> [] -> token <> ZWSP ->
          replace shown token (lit "[NO_TOKEN]") = ZWSP))
  /\ (~ occurs token shown -> replace shown token (lit "[NO_TOKEN]") = shown)
  /\ (91%N ∉ token -> 93%N ∉ token -> (8 < length token)%nat ->
      ~ occurs token (replace shown token (lit "[NO_TOKEN]"))).
Proof.
  intros Htext Hlen shown token.
  pose proof (jsk_python_result_text c result text w Htext Hlen) as Hrun.
  cbv zeta in Hrun. fold shown token in Hrun.
  split; [|split; [|split; [|split]]].
  - intros g Hg. rewrite Hrun, Hg. reflexivity.
  - intros Hg. rewrite Hrun, Hg. reflexivity.
  - intros Hblank. subst shown. destruct (decide (strip text = [])); [|contradiction].
    split; [reflexivity|]. intros Hne Hz. apply replace_absent.
    apply occurs_single; assumption.
  - apply replace_absent.
  - intros Ha Hz Hl. unfold replace.
    destruct token as [|o token'] eqn:E; [simpl in Hl; lia|]. rewrite <- E in *.
    change (lit "[NO_TOKEN]") with (91%N :: lit "NO_TOKEN" ++ [93%N]).
    apply replace_removes; [assumption | assumption | exact Hl].
Qed.

End PlainText.

(** C10 on the example host, whose token is [TOKEN.abc]: in a guild the
    token inside a result is replaced, in a direct message it is not, and a
    blank result is sent as U+200B. *)
Lemma jsk_python_plain_text_witness :
  @jsk_python_result example_host owner_ctx (VStr (lit "key=TOKEN.abc!")) example_world
    = (Ret tt, say (remember example_world (VStr (lit "key=TOKEN.abc!")))
                   (lit "key=[NO_TOKEN]!"))
  /\ @jsk_python_result example_host stranger_ctx (VStr (lit "key=TOKEN.abc!")) example_world
    = (Ret tt, say (remember example_world (VStr (lit "key=TOKEN.abc!")))
                   (lit "key=TOKEN.abc!"))
  /\ @jsk_python_result example_host owner_ctx (VStr (lit "  ")) example_world
    = (Ret tt, say (remember example_world (VStr (lit "  "))) ZWSP).
Proof.
  split; [|split].
  - refine (proj1 (@jsk_python_plain_text example_host owner_ctx
                     (VStr (lit "key=TOKEN.abc!")) (lit "key=TOKEN.abc!")
                     example_world eq_refl _) 7%nat eq_refl).
    vm_compute. discriminate.
  - refine (proj1 (proj2 (@jsk_python_plain_text example_host stranger_ctx
                     (VStr (lit "key=TOKEN.abc!")) (lit "key=TOKEN.abc!")
                     example_world eq_refl _)) eq_refl).
    vm_compute. discriminate.
  - refine (proj1 (@jsk_python_plain_text example_host owner_ctx
                     (VStr (lit "  ")) (lit "  ")
                     example_world eq_refl _) 7%nat eq_refl).
    vm_compute. discriminate.
Defined.

(** * Further properties *)

(** ** Parts of the cog a command leaves alone *)

Lemma keeps_ret {X A} (f : Jishaku -> X) (a : A) : keeps f (ret a).
Proof. intros w o w' E. inversion E; subst. reflexivity. Qed.

Lemma keeps_raise {X A} (f : Jishaku -> X) (e : PyExc) : keeps f (@raise A e).
Proof. intros w o w' E. inversion E; subst. reflexivity. Qed.

Lemma keeps_send {X} (f : Jishaku -> X) (m : Sent) : keeps f (send m).
Proof. intros w o w' E. inversion E; subst. reflexivity. Qed.

Lemma keeps_cancel {X} (f : Jishaku -> X) (t : Task) : keeps f (cancel t).
Proof. intros w o w' E. inversion E; subst. reflexivity. Qed.

Lemma keeps_read_scope {X} (f : Jishaku -> X) (r : ScopeRef) :
  keeps f (read_scope r).
Proof. intros w o w' E. inversion E; subst. reflexivity. Qed.

Lemma keeps_write_scope {X} (f : Jishaku -> X) (r : ScopeRef) (s : Scope) :
  keeps f (write_scope r s).
Proof. intros w o w' E. inversion E; subst. reflexivity. Qed.

Lemma keeps_scope {X} (f : Jishaku -> X) : keeps f scope.
Proof.
  intros w o w' E. unfold scope, bind, get_cog, new_scope, ret in E.
  destruct (retain (cog w)); inversion E; subst; reflexivity.
Qed.

Lemma keeps_bind {X A B} (f : Jishaku -> X) (m : Cmd A) (k : A -> Cmd B) :
  keeps f m -> (forall a, keeps f (k a)) -> keeps f (bind m k).
Proof.
  intros Hm Hk w o w' E. unfold bind in E.
  destruct (m w) as [[a|e] w1] eqn:Em.
  - rewrite (Hk a w1 o w' E). eapply Hm; eauto.
  - inversion E; subst. eapply Hm; eauto.
Qed.

Lemma keeps_get_cog_bind {X A} (f : Jishaku -> X) (k : Jishaku -> Cmd A) :
  (forall self, keeps f (k self)) -> keeps f (do self <- get_cog; k self).
Proof. intros Hk w o w' E. unfold bind, get_cog in E. eapply Hk; eauto. Qed.

Lemma keeps_update {X A} (f : Jishaku -> X) (g : Jishaku -> Jishaku)
    (k : Jishaku -> Cmd A) :
  (forall self, f (g self) = f self) ->
  (forall self, keeps f (k self)) ->
  keeps f (do self <- get_cog; do_ put_cog (g self); k self).
Proof.
  intros Hg Hk w o w' E. unfold bind, get_cog, put_cog in E.
  apply Hk in E. simpl in E. rewrite E. apply Hg.
Qed.

Lemma keeps_for_each {X A} (f : Jishaku -> X) (xs : list A) (body : A -> Cmd unit) :
  (forall x, keeps f (body x)) -> keeps f (for_each xs body).
Proof.
  intros Hb. induction xs as [|x xs IH]; simpl.
  - apply keeps_ret.
  - apply keeps_bind; auto.
Qed.

Lemma keeps_try_finally {X A} (f : Jishaku -> X) (body : Cmd A) (cleanup : Cmd unit) :
  keeps f body -> keeps f cleanup -> keeps f (try_finally body cleanup).
Proof.
  intros Hb Hc w o w' E. unfold try_finally in E.
  destruct (body w) as [o1 w1] eqn:Eb.
  destruct (cleanup w1) as [[[]|e] w2] eqn:Ec; inversion E; subst;
    (rewrite (Hc _ _ _ Ec); eapply Hb; eauto).
Qed.

Lemma keeps_scope_clear_intersection {X} (f : Jishaku -> X) r arg_dict :
  keeps f (scope_clear_intersection r arg_dict).
Proof.
  unfold scope_clear_intersection.
  apply keeps_bind; [apply keeps_read_scope | intros; apply keeps_write_scope].
Qed.

(** ** The [with self.submit(ctx)] block is balanced *)

Lemma deque_remove_snoc (x : CommandTask) (l : list CommandTask) :
  ~ In x l -> deque_remove x (l ++ [x]) = l.
Proof.
  induction l as [|a l IH]; simpl; intros Hn.
  - destruct (decide (x = x)); [reflexivity | contradiction].
  - destruct (decide (a = x)); [tauto|]. f_equal. tauto.
Qed.

Lemma counted_fresh (c : Context) (t : Task) (w : World) :
  counted (cog w) -> ~ In (submitted c t w) (tasks (cog w)).
Proof.
  unfold counted. rewrite List.Forall_forall. intros Hc Hin.
  specialize (Hc _ Hin). simpl in Hc. lia.
Qed.

Lemma submit_one_task_later {A} (c : Context) (t : Task)
    (body : CommandTask -> Cmd A) :
  (forall x, keeps registry (body x)) -> balanced (submit c t body).
Proof.
  intros Hbody w o w' Hcount E.
  destruct (submit_enter_spec c t w) as (w1 & Henter & Ht1 & Hc1 & _).
  destruct (body (submitted c t w) w1) as [ob wb] eqn:Eb.
  assert (Eb' : body (submitted c t w) (snd (submit_enter c t w)) = (ob, wb))
    by (rewrite Henter; exact Eb).
  rewrite (submit_releases c t body w ob wb Eb') in E.
  injection E as Ho Hw. subst w'.
  pose proof (Hbody _ _ _ _ Eb) as Hreg. unfold registry in Hreg.
  inversion Hreg as [[Htb Hcb]].
  pose proof (apply_op_spec (OpRelease (submitted c t w)) wb) as [Hrel Hcnt].
  cbn [apply_op] in Hrel, Hcnt.
  unfold one_task_later. rewrite Hrel, Hcnt, Htb, Hcb, Ht1, Hc1.
  split; [|reflexivity]. apply deque_remove_snoc, counted_fresh, Hcount.
Qed.

(** X1. A [with self.submit(ctx)] block whose body leaves the registry as
    it is after entering ends, on every way out, with the task list it
    started from and the counter one higher, and with the outcome of its
    body: the finished task is never left behind and no other task is
    removed. *)
Theorem submit_balanced {A} (c : Context) (t : Task) (body : CommandTask -> Cmd A)
    (w : World) (o : Outcome A) (w' : World) :
  counted (cog w) ->
  (forall x, keeps registry (body x)) ->
  submit c t body w = (o, w') ->
  tasks (cog w') = tasks (cog w)
  /\ task_count (cog w') = task_count (cog w) + 1
  /\ o = fst (body (submitted c t w) (snd (submit_enter c t w))).
Proof.
  intros Hcount Hbody E.
  destruct (submit_one_task_later c t body Hbody w o w' Hcount E) as [Ht Hc].
  split; [exact Ht|]. split; [exact Hc|].
  destruct (body (submitted c t w) (snd (submit_enter c t w))) as [ob wb] eqn:Eb.
  rewrite (submit_releases c t body w ob wb Eb) in E. inversion E; subst.
  reflexivity.
Qed.

(** X1 with two tasks in flight and a body that raises: the two tasks are
    still listed afterwards, the third is gone, and the exception comes out. *)
Lemma submit_balanced_witness :
  tasks (cog (snd (submit owner_ctx 13%nat
                     (fun _ => @raise unit (Exc (lit "boom"))) two_tasks)))
    = tasks (cog two_tasks)
  /\ task_count (cog (snd (submit owner_ctx 13%nat
                     (fun _ => @raise unit (Exc (lit "boom"))) two_tasks))) = 3
  /\ fst (submit owner_ctx 13%nat
            (fun _ => @raise unit (Exc (lit "boom"))) two_tasks)
     = Raise (Exc (lit "boom")).
Proof.
  assert (Hc : counted (cog two_tasks)).
  { unfold counted. vm_compute. repeat constructor; discriminate. }
  destruct (submit owner_ctx 13%nat (fun _ => @raise unit (Exc (lit "boom")))
              two_tasks) as [o w'] eqn:E.
  destruct (submit_balanced owner_ctx 13%nat
              (fun _ => @raise unit (Exc (lit "boom"))) two_tasks o w' Hc
              (fun x => keeps_raise registry (Exc (lit "boom"))) E)
    as (Ht & Hn & Ho).
  simpl fst. simpl snd. split; [exact Ht|]. split; [exact Hn | exact Ho].
Defined.

(** ** The tracked commands leave the registry as they found it *)

Lemma counted_same (w w' : World) :
  registry (cog w') = registry (cog w) -> counted (cog w) -> counted (cog w').
Proof. unfold registry, counted. intros E. inversion E as [[Ht Hc]]. rewrite Ht, Hc. auto. Qed.

Lemma balanced_keeps_then {A B} (m : Cmd A) (k : A -> Cmd B) :
  keeps registry m -> (forall w, exists a w', m w = (Ret a, w')) ->
  (forall a, balanced (k a)) -> balanced (bind m k).
Proof.
  intros Hm Hret Hk w o w' Hc E. unfold bind in E.
  destruct (Hret w) as (a & w1 & Em). rewrite Em in E.
  pose proof (Hm _ _ _ Em) as Hreg.
  destruct (Hk a w1 o w' (counted_same _ _ Hreg Hc) E) as [Ht Hn].
  unfold registry in Hreg. inversion Hreg as [[Ht1 Hc1]].
  unfold one_task_later. rewrite Ht, Hn, Ht1, Hc1. auto.
Qed.

Lemma balanced_then_keeps {A B} (m : Cmd A) (k : A -> Cmd B) :
  balanced m -> (forall a, keeps registry (k a)) -> balanced (bind m k).
Proof.
  intros Hm Hk w o w' Hc E. unfold bind in E.
  destruct (m w) as [[a|e] w1] eqn:Em.
  - destruct (Hm _ _ _ Hc Em) as [Ht Hn].
    pose proof (Hk a _ _ _ E) as Hreg. unfold registry in Hreg.
    inversion Hreg as [[Ht1 Hc1]].
    unfold one_task_later. rewrite Ht1, Hc1. auto.
  - inversion E; subst. eapply Hm; eauto.
Qed.

Lemma balanced_get_cog_bind {A} (k : Jishaku -> Cmd A) :
  (forall self, balanced (k self)) -> balanced (do self <- get_cog; k self).
Proof. intros Hk w o w' Hc E. unfold bind, get_cog in E. eapply Hk; eauto. Qed.

Lemma balanced_try_finally {A} (body : Cmd A) (cleanup : Cmd unit) :
  balanced body -> keeps registry cleanup -> balanced (try_finally body cleanup).
Proof.
  intros Hb Hc w o w' Hcount E. unfold try_finally in E.
  destruct (body w) as [o1 w1] eqn:Eb.
  destruct (Hb _ _ _ Hcount Eb) as [Ht Hn].
  destruct (cleanup w1) as [[[]|e] w2] eqn:Ec; inversion E; subst;
    pose proof (Hc _ _ _ Ec) as Hreg; unfold registry in Hreg;
    inversion Hreg as [[Ht1 Hc1]]; unfold one_task_later;
    rewrite Ht1, Hc1; auto.
Qed.

Section Tracked.
Context `{Host}.

Lemma balanced_ReplResponseReactor {A} (body : Cmd A) :
  balanced body -> balanced (ReplResponseReactor body).
Proof.
  intros Hb w o w' Hc E. unfold ReplResponseReactor in E.
  destruct (body w) as [[a|e] w1] eqn:Eb.
  - inversion E; subst. eapply Hb; eauto.
  - destruct (Hb _ _ _ Hc Eb) as [Ht Hn].
    unfold bind, send, ret in E. inversion E; subst. split; assumption.
Qed.

Lemma keeps_ReplResponseReactor {X A} (f : Jishaku -> X) (body : Cmd A) :
  keeps f body -> keeps f (ReplResponseReactor body).
Proof.
  intros Hb w o w' E. unfold ReplResponseReactor in E.
  destruct (body w) as [[a|e] w1] eqn:Eb.
  - inversion E; subst. eapply Hb; eauto.
  - unfold bind, send, ret in E. inversion E; subst. simpl. eapply Hb; eauto.
Qed.

Lemma keeps_registry_jsk_python_result (c : Context) (result : Value) :
  keeps registry (jsk_python_result c result).
Proof.
  unfold jsk_python_result.
  destruct result; try apply keeps_ret;
    apply (keeps_update registry (fun self => set_last_result self _));
    try (intros; reflexivity); intros self;
    try apply keeps_send;
    repeat match goal with
           | |- keeps _ (if ?b then _ else _) => destruct b
           | |- keeps _ (send _) => apply keeps_send
           end.
Qed.

Lemma keeps_registry_jsk_python_inspect_result (c : Context) (result : Value) :
  keeps registry (jsk_python_inspect_result c result).
Proof.
  unfold jsk_python_inspect_result.
  apply (keeps_update registry (fun self => set_last_result self result)).
  - intros; reflexivity.
  - intros self. apply keeps_send.
Qed.

Lemma keeps_run_executor {X} (f : Jishaku -> X) (code : pystr) (r : ScopeRef)
    (arg_dict : gmap pystr Value) (loop_body : Value -> Cmd unit) :
  (forall v, keeps f (loop_body v)) ->
  keeps f (run_executor code r arg_dict loop_body).
Proof.
  intros Hb. unfold run_executor.
  apply keeps_bind; [apply keeps_read_scope|]. intros s.
  apply keeps_bind; [apply keeps_write_scope|]. intros _.
  apply keeps_bind; [apply keeps_for_each, Hb|]. intros _.
  destruct (failure _); [apply keeps_raise | apply keeps_ret].
Qed.

Lemma scope_always_returns (w : World) : exists r w', scope w = (Ret r, w').
Proof. rewrite scope_spec. destruct (retain (cog w)); eauto. Qed.

Lemma balanced_jsk_python (c : Context) (t : Task) (code : pystr) :
  balanced (jsk_python c t code).
Proof.
  unfold jsk_python. apply balanced_get_cog_bind. intros self. cbv zeta.
  apply balanced_keeps_then; [apply keeps_scope | apply scope_always_returns |].
  intros r. apply balanced_try_finally; [|apply keeps_scope_clear_intersection].
  unfold jsk_python_try.
  apply balanced_then_keeps; [|intros; apply keeps_ret].
  apply balanced_ReplResponseReactor, submit_one_task_later. intros _.
  apply keeps_run_executor, keeps_registry_jsk_python_result.
Qed.

Lemma balanced_jsk_python_inspect (c : Context) (t : Task) (code : pystr) :
  balanced (jsk_python_inspect c t code).
Proof.
  unfold jsk_python_inspect. apply balanced_get_cog_bind. intros self. cbv zeta.
  apply balanced_keeps_then; [apply keeps_scope | apply scope_always_returns |].
  intros r. apply balanced_try_finally; [|apply keeps_scope_clear_intersection].
  unfold jsk_python_inspect_try.
  apply balanced_then_keeps; [|intros; apply keeps_ret].
  apply balanced_ReplResponseReactor, submit_one_task_later. intros _.
  apply keeps_run_executor, keeps_registry_jsk_python_inspect_result.
Qed.

Lemma balanced_jsk_shell (c : Context) (t : Task) (argument : pystr) :
  balanced (jsk_shell c t argument).
Proof.
  unfold jsk_shell.
  apply balanced_ReplResponseReactor, submit_one_task_later. intros _. cbv zeta.
  destruct (ShellReader argument) as [lines close_code].
  destruct (read_lines 0 lines _) as [paginator closed].
  destruct closed; (apply keeps_bind; [apply keeps_send | intros; apply keeps_ret]).
Qed.

(** X2. [jsk py], [jsk py_inspect] and [jsk shell] each submit one task and
    have released it when they end, whatever the code or the shell did:
    afterwards the task list is the one they found and the counter is one
    higher. *)
Theorem tracked_commands_balanced (c : Context) (t : Task) (code : pystr)
    (w : World) :
  counted (cog w) ->
  one_task_later w (snd (jsk_python c t code w))
  /\ one_task_later w (snd (jsk_python_inspect c t code w))
  /\ one_task_later w (snd (jsk_shell c t code w)).
Proof.
  intros Hc. split; [|split].
  - destruct (jsk_python c t code w) as [o w'] eqn:E.
    exact (balanced_jsk_python c t code w o w' Hc E).
  - destruct (jsk_python_inspect c t code w) as [o w'] eqn:E.
    exact (balanced_jsk_python_inspect c t code w o w' Hc E).
  - destruct (jsk_shell c t code w) as [o w'] eqn:E.
    exact (balanced_jsk_shell c t code w o w' Hc E).
Qed.

End Tracked.

(** X2 on the example host with two tasks in flight: after [jsk py] the
    same two tasks are listed and the counter has moved from 2 to 3. *)
Lemma tracked_commands_balanced_witness :
  counted (cog two_tasks)
  /\ tasks (cog (snd (@jsk_python example_host owner_ctx 13%nat (lit "x") two_tasks)))
     = tasks (cog two_tasks)
  /\ task_count (cog (snd (@jsk_python example_host owner_ctx 13%nat (lit "x")
                             two_tasks))) = 2 + 1.
Proof.
  assert (Hc : counted (cog two_tasks)).
  { unfold counted. vm_compute. repeat constructor; discriminate. }
  split; [exact Hc|].
  exact (proj1 (@tracked_commands_balanced example_host owner_ctx 13%nat (lit "x")
                  two_tasks Hc)).
Defined.

(** ** [jsk cancel] on any registry *)

Lemma length_removelast_cons {A} (x : A) (l : list A) :
  (length (removelast (x :: l)) + 1 = length (x :: l))%nat.
Proof.
  revert x. induction l as [|y l IH]; intros x; [reflexivity|].
  change (removelast (x :: y :: l)) with (x :: removelast (y :: l)).
  simpl length in *. rewrite <- (IH y). lia.
Qed.

Lemma length_deque_remove (t : CommandTask) (l : list CommandTask) :
  In t l -> (length (deque_remove t l) + 1 = length l)%nat.
Proof.
  induction l as [|a l IH]; simpl; [tauto|].
  destruct (decide (a = t)) as [->|Hne]; simpl; [lia|].
  intros [E|Hin]; [contradiction|]. rewrite <- (IH Hin). lia.
Qed.

Lemma utils_get_some (l : list CommandTask) (i : Z) (t : CommandTask) :
  utils_get l i = Some t -> In t l /\ index t = i.
Proof.
  unfold utils_get. intros E. apply find_some in E as [Hin Hi].
  apply Z.eqb_eq in Hi. auto.
Qed.

Lemma last_In {A} (x : A) (l : list A) (d : A) : In (List.last (x :: l) d) (x :: l).
Proof.
  revert x. induction l as [|y l IH]; intros x; [left; reflexivity|].
  right. apply IH.
Qed.

Lemma utils_get_split (l : list CommandTask) (i : Z) (t : CommandTask) :
  utils_get l i = Some t ->
  exists before after,
    l = before ++ t :: after
    /\ index t = i
    /\ Forall (fun earlier_one => index earlier_one <> i) before
    /\ deque_remove t l = before ++ after.
Proof.
  unfold utils_get. induction l as [|a l IH]; [discriminate|].
  cbn [find deque_remove]. destruct (Z.eqb_spec (index a) i) as [Hi|Hi].
  - intros E. inversion E; subst a. exists [], l.
    destruct (decide (t = t)); [|contradiction]. repeat split; auto.
  - intros E. destruct (IH E) as (before & after & -> & Ht & Hbefore & Hrem).
    exists (a :: before), after.
    destruct (decide (a = t)) as [->|_]; [congruence|].
    rewrite Hrem. repeat split; auto.
Qed.

Lemma utils_get_none (l : list CommandTask) (i : Z) :
  utils_get l i = None -> Forall (fun t => index t <> i) l.
Proof.
  unfold utils_get. intros Hnone. apply List.Forall_forall. intros t Hin Hi.
  apply (find_none _ _ Hnone) in Hin. apply Z.eqb_neq in Hin. contradiction.
Qed.

(** X3. On every registry, reachable or not, [jsk cancel] returns normally
    and sends one message, and leaves the counter and the scopes alone.
    Either it changes neither the task list nor the cancelled handles,
    which is what happens on an empty registry and for an index other than
    -1 that no task has; or it takes exactly one task out of the list,
    leaving the others in their order, cancels the handle of that very
    task and names that task in its message.  The task taken is the last
    one for -1 and otherwise the first one with the index given. *)
Theorem jsk_cancel_one_or_nothing (c : Context) (i : Z) (w : World) :
  exists w' m,
    jsk_cancel c i w = (Ret tt, w')
    /\ outbox w' = outbox w ++ [Message m]
    /\ heap w' = heap w
    /\ task_count (cog w') = task_count (cog w)
    /\ ((tasks (cog w') = tasks (cog w) /\ cancelled w' = cancelled w
         /\ (tasks (cog w) = []
             \/ (i <> -1 /\ Forall (fun t => index t <> i) (tasks (cog w)))))
        \/ (exists t before after,
              tasks (cog w) = before ++ t :: after
              /\ tasks (cog w') = before ++ after
              /\ cancelled w' = cancelled w ++ [task t]
              /\ m = lit "Cancelled task " ++ str_of_Z (index t) ++ lit ": `"
                     ++ ctx_qualified_name (ctx t) ++ lit "`, invoked at "
                     ++ ctx_created_at (ctx t) ++ lit " UTC"
              /\ ((i = -1 /\ after = [])
                  \/ (i <> -1 /\ index t = i
                      /\ Forall (fun earlier_one => index earlier_one <> i) before))))
    /\ (tasks (cog w) = [] -> tasks (cog w') = [] /\ cancelled w' = cancelled w).
Proof.
  rewrite jsk_cancel_spec.
  destruct (tasks (cog w)) as [|first rest] eqn:E.
  - eexists _, _. split; [reflexivity|].
    cbn -[removelast deque_remove List.last lit In length]. rewrite E.
    repeat split; auto.
  - destruct (Z.eqb_spec i (-1)) as [Hi|Hi].
    + eexists _, _. split; [reflexivity|].
      cbn -[removelast deque_remove List.last lit In length app].
      split; [reflexivity|]. split; [reflexivity|]. split; [reflexivity|].
      split; [|discriminate]. right.
      exists (List.last (first :: rest) first), (removelast (first :: rest)), [].
      split; [apply app_removelast_last; discriminate|].
      split; [symmetry; apply app_nil_r|]. split; [reflexivity|].
      split; [reflexivity|]. left. auto.
    + destruct (utils_get (first :: rest) i) as [t|] eqn:Eg.
      * destruct (utils_get_split _ _ _ Eg)
          as (before & after & Hsplit & Ht & Hbefore & Hrem).
        eexists _, _. split; [reflexivity|].
        cbn -[removelast deque_remove List.last lit In length app].
        split; [reflexivity|]. split; [reflexivity|]. split; [reflexivity|].
        split; [|discriminate]. right. exists t, before, after.
        split; [exact Hsplit|]. split; [exact Hrem|]. split; [reflexivity|].
        split; [reflexivity|]. right. auto.
      * eexists _, _. split; [reflexivity|].
        cbn -[removelast deque_remove List.last lit In length app]. rewrite E.
        split; [reflexivity|]. split; [reflexivity|]. split; [reflexivity|].
        split; [|discriminate]. left.
        split; [reflexivity|]. split; [reflexivity|]. right.
        split; [exact Hi | apply utils_get_none, Eg].
Qed.

(** ** A cancelled task leaving its [with] block *)

Lemma positive_step (op : RegistryOp) (w : World) :
  positive (cog w) -> positive (cog (apply_op w op)).
Proof.
  intros [Hc Hp]. pose proof (apply_op_spec op w) as H. unfold positive.
  destruct op as [c t | x | c i].
  - destruct H as [-> ->]. split; [lia|].
    apply Forall_app. split; [assumption|]. repeat constructor. simpl. lia.
  - destruct H as [-> ->]. split; [assumption|]. apply Forall_deque_remove, Hp.
  - destruct H as [-> [-> | [-> | [t ->]]]]; split; auto.
    + apply Forall_removelast, Hp.
    + apply Forall_deque_remove, Hp.
Qed.

Lemma positive_run (ops : list RegistryOp) (w : World) :
  positive (cog w) -> positive (cog (run_ops ops w)).
Proof.
  revert w. induction ops as [|op ops IH]; intros w Hw; simpl; [assumption|].
  apply IH, positive_step, Hw.
Qed.

Lemma reachable_positive (w : World) (t : CommandTask) :
  reachable w -> In t (tasks (cog w)) -> 1 <= index t.
Proof.
  intros (b & pre & r & ops & E) Hin. rewrite E in Hin.
  assert (Hp : positive (cog (run_ops ops (init b pre r)))).
  { apply positive_run. split; simpl; [lia | constructor]. }
  destruct Hp as [_ Hp]. rewrite List.Forall_forall in Hp. apply Hp, Hin.
Qed.

Lemma submit_exit_absent (t : CommandTask) (w : World) :
  ~ In t (tasks (cog w)) -> submit_exit t w = (Ret tt, w).
Proof.
  intros Hn. unfold submit_exit, bind, get_cog.
  destruct (bool_decide (t ∈ tasks (cog w))) eqn:E; [|reflexivity].
  apply bool_decide_eq_true in E. rewrite list_elem_of_In in E. contradiction.
Qed.

(** X4. When [jsk cancel] has taken a task out of a registry the cog can
    have, by its index or as the last one through -1, the task is not
    listed any more, and the [finally] clause of its own [with] block then
    finds it gone and changes nothing: the release neither raises nor
    removes another task. *)
Theorem cancelled_task_release (c : Context) (i : Z) (t : CommandTask) (w : World) :
  reachable w ->
  In t (tasks (cog w)) ->
  i = index t \/ (i = -1 /\ t = List.last (tasks (cog w)) t) ->
  let w1 := snd (jsk_cancel c i w) in
  cancelled w1 = cancelled w ++ [task t]
  /\ ~ In t (tasks (cog w1))
  /\ submit_exit t w1 = (Ret tt, w1).
Proof.
  intros Hreach Hin Hi w1.
  pose proof (reachable_sorted w Hreach) as Hsorted.
  pose proof (reachable_positive w t Hreach Hin) as Hpos.
  assert (Hgone : cancelled w1 = cancelled w ++ [task t] /\ ~ In t (tasks (cog w1))).
  { subst w1. rewrite jsk_cancel_spec.
    destruct (tasks (cog w)) as [|first rest] eqn:E; [destruct Hin|].
    rewrite <- E in *.
    destruct Hi as [-> | [-> Hlast]].
    - assert (Hb : (index t =? -1) = false) by (apply Z.eqb_neq; lia).
      rewrite Hb, (utils_get_found _ _ Hsorted Hin).
      cbn -[removelast deque_remove List.last lit In length].
      split; [reflexivity|]. rewrite deque_remove_sorted_In by assumption. tauto.
    - cbn -[removelast deque_remove List.last lit In length].
      assert (Hl : List.last (tasks (cog w)) first = t).
      { rewrite Hlast. rewrite E. clear. generalize first at 1 3.
        induction rest as [|y rest IH]; intros x; [reflexivity|].
        destruct rest; [reflexivity|]. apply (IH y). }
      rewrite Hl. split; [reflexivity|].
      assert (Hne : tasks (cog w) <> []) by (rewrite E; discriminate).
      destruct (sorted_last_removed _ first Hsorted Hne) as [_ Hout].
      rewrite Hl in Hout. exact Hout. }
  destruct Hgone as [Hc Hn]. split; [exact Hc|]. split; [exact Hn|].
  apply submit_exit_absent, Hn.
Qed.

(** X4 with tasks 1 and 2 in flight: [jsk cancel 1] takes task 1 out and
    its release afterwards changes nothing. *)
Lemma cancelled_task_release_witness :
  reachable two_tasks
  /\ submit_exit {| index := 1; ctx := owner_ctx; task := 11%nat |}
       (snd (jsk_cancel owner_ctx 1 two_tasks))
     = (Ret tt, snd (jsk_cancel owner_ctx 1 two_tasks)).
Proof.
  assert (Hreach : reachable two_tasks).
  { exists example_bot, (lit "_"), true,
      [OpSubmit owner_ctx 11%nat; OpSubmit stranger_ctx 12%nat]. reflexivity. }
  split; [exact Hreach|].
  refine (proj2 (proj2 (cancelled_task_release owner_ctx 1
            {| index := 1; ctx := owner_ctx; task := 11%nat |} two_tasks
            Hreach _ _))).
  - vm_compute. left. reflexivity.
  - left. reflexivity.
Defined.

(** X3 on a fresh cog, where [jsk cancel -1] finds nothing to cancel, and
    with two tasks in flight, where [jsk cancel 1] takes out the first and
    cancels its handle, 11. *)
Lemma jsk_cancel_one_or_nothing_witness :
  (exists w' m,
     jsk_cancel owner_ctx (-1) example_world = (Ret tt, w')
     /\ outbox w' = outbox example_world ++ [Message m]
     /\ tasks (cog w') = [] /\ cancelled w' = cancelled example_world)
  /\ (exists w' t,
        jsk_cancel owner_ctx 1 two_tasks = (Ret tt, w')
        /\ tasks (cog two_tasks) = t :: tasks (cog w')
        /\ index t = 1
        /\ cancelled w' = [11%nat]).
Proof.
  split.
  - destruct (jsk_cancel_one_or_nothing owner_ctx (-1) example_world)
      as (w' & m & Hrun & Hout & _ & _ & _ & Hempty).
    exists w', m. split; [exact Hrun|]. split; [exact Hout|].
    exact (Hempty eq_refl).
  - destruct (jsk_cancel_one_or_nothing owner_ctx 1 two_tasks)
      as (w' & m & Hrun & _ & _ & _ & [(_ & _ & [Hnone | [_ Hnone]]) | Htaken] & _).
    + discriminate Hnone.
    + exfalso. inversion Hnone as [|? ? Hfirst _]. apply Hfirst. reflexivity.
    + destruct Htaken as (t & before & after & Hsplit & Hrest & Hcancel & _ & Hwhich).
      destruct Hwhich as [[Hi _] | (_ & Ht & Hbefore)]; [discriminate Hi|].
      assert (Hb : before = []).
      { destruct before as [|b before]; [reflexivity|].
        exfalso. inversion Hbefore as [|? ? Hb _]; subst.
        injection Hsplit as Hb' _. apply Hb. rewrite <- Hb'. reflexivity. }
      subst before. cbn [app] in Hsplit, Hrest.
      exists w', t. split; [exact Hrun|].
      split; [rewrite Hrest; exact Hsplit|]. split; [exact Ht|].
      injection Hsplit as Ht' _. rewrite Hcancel, <- Ht'. reflexivity.
Defined.

(** ** [jsk tasks] *)

Lemma fold_add_line_map {A} (f : A -> pystr) (l : list A) (p : Paginator) :
  fold_left (fun q x => add_line q (f x)) l p = fold_left add_line (map f l) p.
Proof. revert p. induction l as [|x l IH]; intros p; simpl; [reflexivity | apply IH]. Qed.

(** X5. [jsk tasks] on an empty registry only says that no task is
    running; otherwise it presents one interface, owned by the invoker,
    whose pages hold exactly one line per listed task, in the order of the
    task list, each made of the task's index, command name and time.  It
    changes nothing else. *)
Theorem jsk_tasks_lists (c : Context) (w : World) :
  (tasks (cog w) = [] ->
   jsk_tasks c w = (Ret tt, present w (Message (lit "No currently running tasks."))))
  /\ (tasks (cog w) <> [] ->
      exists p,
        jsk_tasks c w = (Ret tt, present w (Interface p (ctx_author c)))
        /\ concat (page_lines p) = map describe_task (tasks (cog w))
        /\ max_size p = 1985).
Proof.
  unfold jsk_tasks, bind, get_cog. split.
  - intros E. rewrite E. reflexivity.
  - intros Hne. destruct (tasks (cog w)) as [|first rest] eqn:E; [contradiction|].
    eexists. split; [reflexivity|]. cbv zeta. rewrite fold_add_line_map.
    split.
    + apply (add_lines_concat (map describe_task (first :: rest)) jsk_tasks_paginator).
    + apply (add_lines_max_size (map describe_task (first :: rest)) jsk_tasks_paginator).
Qed.

(** X5 with tasks 1 and 2 in flight. *)
Lemma jsk_tasks_lists_witness :
  tasks (cog two_tasks) <> []
  /\ exists p,
       jsk_tasks owner_ctx two_tasks = (Ret tt, present two_tasks (Interface p 1%nat))
       /\ concat (page_lines p)
          = [lit "1: `jishaku py`, invoked at 2020-01-01 00:00:00 UTC";
             lit "2: `jishaku py`, invoked at 2020-01-01 00:00:00 UTC"].
Proof.
  assert (Hne : tasks (cog two_tasks) <> []) by (vm_compute; discriminate).
  split; [exact Hne|].
  destruct (proj2 (jsk_tasks_lists owner_ctx two_tasks) Hne) as (p & Hrun & Hlines & _).
  exists p. split; [exact Hrun | exact Hlines].
Defined.

(** ** [jsk cat] and [jsk curl] on every input *)

Section Answers.
Context `{Host}.


(** X7. [jsk curl] always returns normally and sends exactly one item,
    changing nothing else: an exception of the request is caught and posted
    as its traceback, and an interface, owned by the invoker and of page
    size 1985, is presented exactly when the body is not empty and can be
    decoded. *)
Theorem jsk_curl_answers (c : Context) (url : pystr) (w : World) :
  exists item,
    jsk_curl c url w = (Ret tt, present w item)
    /\ (forall exc, http_get (unmask url) = inr exc ->
          item = Message (format_exception exc))
    /\ (forall response, http_get (unmask url) = inl response ->
          match jsk_curl_paginator response (unmask url) with
          | FileOk p =>
              if decide (data response = [])
              then exists m, item = Message m
              else item = Interface p (ctx_author c) /\ max_size p = 1985
          | _ => exists m, item = Message m
          end).
Proof.
  unfold jsk_curl, unmask, ReplResponseReactor, bind.
  destruct (http_get (rstrip_char 62 (lstrip_char 60 url))) as [response|exc] eqn:Eg.
  - destruct (data response) as [|b bs] eqn:Ed.
    + eexists. split; [reflexivity|]. split; [discriminate|].
      intros r Er. inversion Er; subst r. rewrite Ed.
      destruct (jsk_curl_paginator _ _); simpl; eauto.
    + destruct (jsk_curl_paginator response _) as [p| |msg|exc] eqn:Ep.
      * eexists. split; [reflexivity|]. split; [discriminate|].
        intros r Er. inversion Er; subst r. rewrite Ep, Ed.
        destruct (decide (b :: bs = [])); [discriminate|].
        split; [reflexivity|]. unfold jsk_curl_paginator in Ep.
        eapply WrappedFilePaginator_max_size; eauto.
      * eexists. split; [reflexivity|]. split; [discriminate|].
        intros r Er. inversion Er; subst r. rewrite Ep. eauto.
      * eexists. split; [reflexivity|]. split; [discriminate|].
        intros r Er. inversion Er; subst r. rewrite Ep. eauto.
      * eexists. split; [reflexivity|]. split; [discriminate|].
        intros r Er. inversion Er; subst r. rewrite Ep. eauto.
  - eexists. split; [reflexivity|]. split.
    + intros e Ee. inversion Ee; subst. reflexivity.
    + discriminate.
Qed.

End Answers.


(** X7 on the example host: the body [notes] is decoded and presented. *)
Lemma jsk_curl_answers_witness :
  exists p,
    @jsk_curl example_host owner_ctx (lit "<notes>") example_world
    = (Ret tt, present example_world (Interface p 1%nat))
    /\ max_size p = 1985.
Proof.
  destruct (@jsk_curl_answers example_host owner_ctx (lit "<notes>") example_world)
    as (item & Hrun & _ & Hok).
  specialize (Hok _ eq_refl).
  destruct (@jsk_curl_paginator example_host _ _) as [p| | |] eqn:Ep;
    [|vm_compute in Ep; discriminate Ep..].
  destruct (decide _) as [Hd|Hd]; [vm_compute in Hd; discriminate Hd|].
  destruct Hok as [-> Hsize]. exists p. split; [exact Hrun | exact Hsize].
Defined.

(** ** Embed maskers *)

Lemma lstrip_char_split (ch : N) (s : pystr) :
  (exists k, s = repeat ch k ++ lstrip_char ch s)
  /\ forall rest, lstrip_char ch s <> ch :: rest.
Proof.
  induction s as [|c s [[k Hk] Hn]]; simpl.
  - split; [exists 0%nat; reflexivity | discriminate].
  - destruct (N.eqb_spec c ch) as [->|Hne].
    + split; [exists (S k); simpl; congruence | exact Hn].
    + split; [exists 0%nat; reflexivity | intros rest E; congruence].
Qed.

Lemma lstrip_char_id (ch : N) (s : pystr) :
  (forall rest, s <> ch :: rest) -> lstrip_char ch s = s.
Proof.
  destruct s as [|c s]; [reflexivity|]. simpl. intros Hn.
  destruct (N.eqb_spec c ch) as [->|Hne]; [exfalso; eapply Hn; reflexivity | reflexivity].
Qed.

Lemma lstrip_char_repeat (ch : N) (k : nat) (s : pystr) :
  lstrip_char ch (repeat ch k ++ s) = lstrip_char ch s.
Proof. induction k as [|k IH]; simpl; [reflexivity|]. rewrite N.eqb_refl. exact IH. Qed.

Lemma rev_repeat_same {A} (x : A) (k : nat) : rev (repeat x k) = repeat x k.
Proof.
  induction k as [|k IH]; [reflexivity|].
  simpl. rewrite IH. clear. induction k as [|k IH]; [reflexivity|].
  simpl. rewrite IH. reflexivity.
Qed.

Lemma rstrip_char_split (ch : N) (s : pystr) :
  (exists k, s = rstrip_char ch s ++ repeat ch k)
  /\ forall front, rstrip_char ch s <> front ++ [ch].
Proof.
  unfold rstrip_char. destruct (lstrip_char_split ch (rev s)) as [[k Hk] Hn].
  remember (lstrip_char ch (rev s)) as stripped. split.
  - exists k. apply (f_equal (@rev N)) in Hk.
    rewrite rev_involutive, rev_app_distr, rev_repeat_same in Hk. exact Hk.
  - intros front E. apply (f_equal (@rev N)) in E.
    rewrite rev_involutive, rev_app_distr in E. simpl in E. eapply Hn; eauto.
Qed.

Lemma rstrip_char_id (ch : N) (s : pystr) :
  (forall front, s <> front ++ [ch]) -> rstrip_char ch s = s.
Proof.
  intros Hn. unfold rstrip_char. rewrite lstrip_char_id; [apply rev_involutive|].
  intros rest E. apply (Hn (rev rest)).
  rewrite <- (rev_involutive s), E. reflexivity.
Qed.

Lemma rstrip_char_repeat (ch : N) (k : nat) (s : pystr) :
  rstrip_char ch (s ++ repeat ch k) = rstrip_char ch s.
Proof.
  unfold rstrip_char. rewrite rev_app_distr, rev_repeat_same.
  now rewrite lstrip_char_repeat.
Qed.

Lemma unmask_unmasked (url : pystr) : unmasked (unmask url).
Proof.
  unfold unmask, unmasked.
  destruct (lstrip_char_split 60%N url) as [_ Hl].
  destruct (rstrip_char_split 62%N (lstrip_char 60%N url)) as [[k Hk] Hr].
  split; [|exact Hr].
  intros rest E. rewrite E in Hk. simpl in Hk. eapply Hl; eauto.
Qed.

Lemma unmask_id (url : pystr) : unmasked url -> unmask url = url.
Proof.
  intros [Hl Hr]. unfold unmask. rewrite lstrip_char_id by assumption.
  apply rstrip_char_id. assumption.
Qed.

(** X8. Removing embed maskers: the result has no [<] in front and no [>]
    at the end, doing it again changes nothing, and any number of [<]
    before and [>] after a URL that has none itself are taken off, leaving
    that URL; so [jsk curl] treats a masked URL exactly like the bare one. *)
Theorem unmask_spec `{Host} (url : pystr) :
  unmasked (unmask url)
  /\ unmask (unmask url) = unmask url
  /\ (unmasked url ->
      forall n m (c : Context) (w : World),
        unmask (repeat 60%N n ++ url ++ repeat 62%N m) = url
        /\ jsk_curl c (repeat 60%N n ++ url ++ repeat 62%N m) w = jsk_curl c url w).
Proof.
  split; [apply unmask_unmasked|].
  split; [apply unmask_id, unmask_unmasked|].
  intros Hu n m c w.
  assert (E : unmask (repeat 60%N n ++ url ++ repeat 62%N m) = url).
  { unfold unmask. rewrite lstrip_char_repeat.
    destruct Hu as [Hl Hr].
    rewrite lstrip_char_id.
    - rewrite rstrip_char_repeat. apply rstrip_char_id, Hr.
    - intros rest E. destruct url as [|u0 url'].
      + destruct m; simpl in E; [discriminate | inversion E].
      + simpl in E. inversion E; subst. eapply Hl; reflexivity. }
  split; [exact E|].
  unfold jsk_curl. fold (unmask (repeat 60%N n ++ url ++ repeat 62%N m)).
  fold (unmask url). rewrite E, (unmask_id url Hu). reflexivity.
Qed.

(** X8 on the example host: [<<notes>] is fetched as [notes]. *)
Lemma unmask_spec_witness :
  unmasked (lit "notes")
  /\ @jsk_curl example_host owner_ctx (lit "<<notes>") example_world
     = @jsk_curl example_host owner_ctx (lit "notes") example_world.
Proof.
  assert (Hu : unmasked (lit "notes")).
  { split.
    - intros rest E. vm_compute in E. discriminate E.
    - intros front E. apply (f_equal (@rev N)) in E. rewrite rev_app_distr in E.
      vm_compute in E. discriminate E. }
  split; [exact Hu|].
  exact (proj2 (proj2 (proj2 (@unmask_spec example_host (lit "notes"))) Hu
                  2%nat 1%nat owner_ctx example_world)).
Defined.

(** ** The last result *)

Lemma last_cons_default {A} (v : A) (vs : list A) (d d' : A) :
  List.last (v :: vs) d = List.last (v :: vs) d'.
Proof.
  revert v. induction vs as [|a vs IH]; intros v; [reflexivity|].
  change (List.last (a :: vs) d = List.last (a :: vs) d'). apply IH.
Qed.

Lemma fold_left_last {A} (vs : list A) (old : A) :
  fold_left (fun _ v => v) vs old = List.last vs old.
Proof.
  revert old. induction vs as [|v vs IH]; intros old; [reflexivity|].
  simpl fold_left. rewrite IH. destruct vs as [|a vs]; [reflexivity|].
  change (List.last (v :: a :: vs) old) with (List.last (a :: vs) old).
  apply last_cons_default.
Qed.

Section LastResult.
Context `{Host}.

Lemma jsk_python_result_last (c : Context) (v : Value) (w : World) :
  exists w',
    jsk_python_result c v w = (Ret tt, w')
    /\ last_result (cog w') = match v with VNone => last_result (cog w) | _ => v end
    /\ heap w' = heap w
    /\ (v = VNone -> w' = w).
Proof.
  unfold jsk_python_result. cmd_unfold.
  destruct v; cbv beta iota zeta;
    repeat match goal with
           | |- context [if ?b then _ else _] => destruct b
           | |- context [match ctx_guild c with _ => _ end] => destruct (ctx_guild c)
           end;
    eexists; (split; [reflexivity|]); simpl; repeat split; auto; discriminate.
Qed.

Lemma jsk_python_inspect_result_last (c : Context) (v : Value) (w : World) :
  exists w',
    jsk_python_inspect_result c v w = (Ret tt, w')
    /\ last_result (cog w') = v
    /\ heap w' = heap w.
Proof.
  unfold jsk_python_inspect_result. cmd_unfold. cbv beta iota zeta.
  eexists. split; [reflexivity|]. simpl. auto.
Qed.

Lemma for_each_last (step : Value -> Value -> Value) (body : Value -> Cmd unit)
    (vs : list Value) (w : World) :
  (forall v w, exists w', body v w = (Ret tt, w')
                          /\ last_result (cog w') = step (last_result (cog w)) v
                          /\ heap w' = heap w) ->
  exists w',
    for_each vs body w = (Ret tt, w')
    /\ last_result (cog w') = fold_left step vs (last_result (cog w))
    /\ heap w' = heap w.
Proof.
  intros Hb. revert w. induction vs as [|v vs IH]; intros w; simpl.
  - exists w. auto.
  - destruct (Hb v w) as (w1 & E1 & L1 & H1). unfold bind. rewrite E1.
    destruct (IH w1) as (w2 & E2 & L2 & H2). exists w2.
    rewrite E2, L2, L1, H2, H1. auto.
Qed.

(** The last result after a tracked run of the executor, for a loop body
    that updates it by [step]. *)
Lemma repl_last_result (step : Value -> Value -> Value) (body : Value -> Cmd unit)
    (c : Context) (t : Task) (code : pystr) (w : World) :
  (forall v w, exists w', body v w = (Ret tt, w')
                          /\ last_result (cog w') = step (last_result (cog w)) v
                          /\ heap w' = heap w) ->
  forall o w',
    (do self <- get_cog;
     do r <- scope;
     try_finally
       (do_ ReplResponseReactor
              (submit c t (fun _ =>
                 run_executor code r (make_arg_dict self c) body));
        ret tt)
       (scope_clear_intersection r (make_arg_dict self c))) w = (o, w') ->
    last_result (cog w')
    = fold_left step (yielded (execution_of c code w)) (last_result (cog w)).
Proof.
  intros Hb o w' E. unfold bind at 1, get_cog in E. unfold bind at 1 in E.
  unfold execution_of, scope_of, scope_at.
  destruct (scope_always_returns w) as (r & w0 & Es). rewrite Es in *. simpl.
  assert (Hcog : cog w0 = cog w).
  { rewrite scope_spec in Es. destruct (retain (cog w)); inversion Es; reflexivity. }
  set (d := make_arg_dict (cog w) c) in *.
  unfold try_finally in E.
  destruct ((do_ ReplResponseReactor _; ret tt) w0) as [ob wb] eqn:Eb.
  assert (Hwb : last_result (cog wb)
                = fold_left step (yielded (AsyncCodeExecutor code
                                             (default ∅ (heap w0 !! r)) d))
                            (last_result (cog w))).
  { unfold bind, ReplResponseReactor in Eb.
    destruct (submit_enter_spec c t w0) as (w1 & Henter & Ht1 & Hc1 & _ & _ & Hh1).
    assert (Hl1 : last_result (cog w1) = last_result (cog w0)).
    { unfold submit_enter, bind, get_cog, put_cog, ret in Henter.
      inversion Henter. reflexivity. }
    destruct (run_executor code r d body w1) as [ox wx] eqn:Ex.
    assert (Hwx : last_result (cog wx)
                  = fold_left step (yielded (AsyncCodeExecutor code
                                               (default ∅ (heap w0 !! r)) d))
                              (last_result (cog w))).
    { unfold run_executor, bind, read_scope, write_scope in Ex. simpl in Ex.
      rewrite Hh1 in Ex.
      match type of Ex with
      | context [for_each ?vs body ?v] =>
          destruct (for_each_last step body vs v Hb) as (w2 & E2 & L2 & _)
      end.
      rewrite E2 in Ex. simpl in L2. rewrite Hl1, Hcog in L2.
      destruct (failure _); inversion Ex; subst; exact L2. }
    assert (Ex' : (fun _ : CommandTask => run_executor code r d body)
                    (submitted c t w0) (snd (submit_enter c t w0)) = (ox, wx))
      by (rewrite Henter; exact Ex).
    rewrite (submit_releases c t _ w0 ox wx Ex') in Eb.
    cbn [apply_op] in Eb.
    assert (Hrel : last_result (cog (snd (submit_exit (submitted c t w0) wx)))
                   = last_result (cog wx)).
    { unfold submit_exit, bind, get_cog, put_cog, ret.
      destruct (bool_decide _); reflexivity. }
    destruct ox; injection Eb as _ Hw; subst wb; cbn [cog];
      rewrite Hrel; exact Hwx. }
  unfold scope_clear_intersection, bind, read_scope, write_scope in E.
  inversion E; subst. exact Hwb.
Qed.

(** X9. After [jsk py] the cog's last result is the last value the code
    yielded that is not [None], and the old last result when it yielded no
    such value; after [jsk py_inspect] it is the last value yielded, [None]
    included.  This holds whether or not the code raised, and it is the
    value bound to ["_"] in the next invocation. *)
Theorem last_result_after (c c' : Context) (t : Task) (code : pystr) (w : World) :
  let vs := yielded (execution_of c code w) in
  let after_py := cog (snd (jsk_python c t code w)) in
  let after_inspect := cog (snd (jsk_python_inspect c t code w)) in
  last_result after_py = last_shown vs (last_result (cog w))
  /\ last_result after_inspect = List.last vs (last_result (cog w))
  /\ make_arg_dict after_py c' !! lit "_"
     = Some (last_shown vs (last_result (cog w)))
  /\ make_arg_dict after_inspect c' !! lit "_"
     = Some (List.last vs (last_result (cog w))).
Proof.
  intros vs after_py after_inspect.
  assert (Hpy : last_result after_py = last_shown vs (last_result (cog w))).
  { subst after_py vs. destruct (jsk_python c t code w) as [o w'] eqn:E.
    apply (repl_last_result
             (fun acc v => match v with VNone => acc | _ => v end)
             (jsk_python_result c) c t code w) in E; [exact E|].
    intros v w0. destruct (jsk_python_result_last c v w0) as (w1 & E1 & L1 & H1 & _).
    exists w1. repeat split; auto. }
  assert (Hin : last_result after_inspect = List.last vs (last_result (cog w))).
  { subst after_inspect vs.
    destruct (jsk_python_inspect c t code w) as [o w'] eqn:E.
    apply (repl_last_result (fun _ v => v) (jsk_python_inspect_result c) c t code w)
      in E.
    - simpl. rewrite E. apply fold_left_last.
    - intros v w0. destruct (jsk_python_inspect_result_last c v w0) as (w1 & E1 & L1 & H1).
      exists w1. auto. }
  split; [exact Hpy|]. split; [exact Hin|].
  unfold make_arg_dict. rewrite !lookup_insert_eq, Hpy, Hin. auto.
Qed.

End LastResult.

(** ** The pages of [jsk py_inspect] *)


Section Inspect.
Context `{Host}.




End Inspect.


(** ** The output of [jsk shell] *)

Section Shell.
Context `{Host}.





End Shell.


(** ** Wildcard patterns and the names they give *)

(** X12. For a pattern made of plain segments joined by dots and ending in
    [.*], the directory scanned is the one with those segments as path
    components, and every name returned is the pattern with the [*]
    replaced by one more segment; so each result extends the dotted prefix
    that was asked for. *)
Theorem wildcard_names_extend_prefix (fs : FileSystem) (b : Bot)
    (parts : list pystr) :
  parts <> [] ->
  Forall plain_segment parts ->
  let name := join (lit ".") parts ++ lit ".*" in
  pattern_path name = parts
  /\ resolve_extensions fs b name = find_extensions_in fs parts
  /\ forall n, In n (resolve_extensions fs b name) ->
       exists segment, n = join (lit ".") (parts ++ [segment]).
Proof.
  intros Hne Hall name.
  pose proof (pattern_path_plain parts Hne Hall) as Hpath.
  assert (Hres : resolve_extensions fs b name = find_extensions_in fs parts).
  { unfold resolve_extensions, name. rewrite endswith_app, Hpath. reflexivity. }
  split; [exact Hpath|]. split; [exact Hres|].
  assert (Hkeep : forall segment,
            dotted (parts ++ [segment]) = join (lit ".") (parts ++ [segment])).
  { intros segment. unfold dotted. f_equal.
    destruct parts as [|first rest]; [congruence|].
    inversion Hall as [|? ? (_ & Hd & _) _]; subst.
    change ((first :: rest) ++ [segment]) with (first :: rest ++ [segment]).
    unfold drop_dot. destruct (decide (first = lit ".")) as [->|_];
      [exfalso; apply Hd; left | reflexivity]. }
  intros n Hin. rewrite Hres in Hin.
  apply find_extensions_in_spec in Hin
    as (entry & node & _ & [[_ ->] | [_ ->]]);
    eexists; apply Hkeep.
Qed.

(** X12 on the example tree: [pkg.*] scans [pkg] and gives [pkg.a]. *)
Lemma wildcard_names_extend_prefix_witness :
  pattern_path (lit "pkg.*") = [lit "pkg"]
  /\ exists segment,
       lit "pkg.a" = join (lit ".") ([lit "pkg"] ++ [segment]).
Proof.
  assert (Hall : Forall plain_segment [lit "pkg"]).
  { repeat constructor; try discriminate;
      intros Hin; vm_compute in Hin;
      repeat (apply elem_of_cons in Hin as [Hin|Hin]; [discriminate Hin|]);
      inversion Hin. }
  destruct (wildcard_names_extend_prefix example_fs example_bot [lit "pkg"]
              ltac:(discriminate) Hall) as (Hpath & _ & Hnames).
  split; [exact Hpath|].
  apply Hnames. vm_compute. left. reflexivity.
Defined.

(** ** The names of the modules found in a directory *)

(** X13. The names [find_extensions_in] lists for a directory are exactly
    these: for every entry [base.py] the path with [base] as last segment
    (the entry [.py] keeps its whole name), and for every entry that is a
    directory holding [__init__.py] the path with that entry as last
    segment; segments are joined by dots and a leading [.] segment is
    left out. *)
Theorem find_extensions_in_names (fs : FileSystem) (path : Path) (n : pystr) :
  In n (find_extensions_in fs path) <->
  exists entry node,
    In (entry, node) (listdir fs path)
    /\ ((exists base, entry = base ++ lit ".py"
                      /\ n = dotted (path ++ [module_of base]))
        \/ (is_package node = true /\ n = dotted (path ++ [entry]))).
Proof.
  rewrite find_extensions_in_spec. split.
  - intros (entry & node & Hin & [[Hpy ->] | [Hpk ->]]);
      exists entry, node; (split; [exact Hin|]).
    + left. apply endswith_spec in Hpy as (base & ->).
      exists base. rewrite stem_py. auto.
    + right. auto.
  - intros (entry & node & Hin & [(base & -> & ->) | [Hpk ->]]);
      eexists _, node; (split; [exact Hin|]).
    + left. rewrite stem_py. split; [|reflexivity].
      apply endswith_spec. eauto.
    + right. auto.
Qed.

(** ** The source shown by [jsk source] *)

Lemma replace_char (s : pystr) (ch : N) (new : pystr) :
  replace s [ch] new = flat_map (fun c => if N.eqb ch c then new else [c]) s.
Proof.
  unfold replace. induction s as [|c s IH]; [reflexivity|].
  cbn [replace_nonempty flat_map startswith length Nat.sub].
  destruct (N.eqb ch c).
  - replace (startswith s []) with true by (destruct s; reflexivity).
    rewrite IH. reflexivity.
  - rewrite IH. reflexivity.
Qed.

Lemma escape_markdown_chars (line : pystr) :
  escape_markdown line = flat_map escaped_char line.
Proof.
  unfold escape_markdown.
  change (lit "_") with [95%N]. change (lit ">") with [62%N].
  change (lit "|") with [124%N]. change (lit "*") with [42%N].
  change (lit "`") with [96%N].
  rewrite !replace_char.
  induction line as [|c line IH]; [reflexivity|].
  cbn [flat_map]. rewrite !flat_map_app, IH. f_equal.
  unfold escaped_char, is_markdown, ZWSP.
  rewrite !(N.eqb_sym c).
  destruct (N.eqb_spec 96 c) as [<-|H1]; [reflexivity|].
  cbn [flat_map app orb].
  destruct (N.eqb_spec 42 c) as [<-|H2]; [reflexivity|].
  cbn [flat_map app orb].
  destruct (N.eqb_spec 124 c) as [<-|H3]; [reflexivity|].
  cbn [flat_map app orb].
  destruct (N.eqb_spec 62 c) as [<-|H4]; [reflexivity|].
  cbn [flat_map app orb].
  destruct (N.eqb_spec 95 c) as [<-|H5]; reflexivity.
Qed.

Lemma escaped_head (line : pystr) (rest : pystr) :
  flat_map escaped_char line <> 96%N :: rest.
Proof.
  destruct line as [|c line]; [discriminate|].
  cbn [flat_map]. unfold escaped_char, is_markdown.
  destruct (N.eqb_spec c 96) as [->|Hc]; [discriminate|].
  destruct (_ || _); cbn; [discriminate | congruence].
Qed.

Lemma escaped_no_pair (line before after : pystr) :
  flat_map escaped_char line <> before ++ 96%N :: 96%N :: after.
Proof.
  revert before. induction line as [|c line IH]; intros before.
  - destruct before; discriminate.
  - destruct before as [|b before].
    + apply escaped_head.
    + cbn [flat_map]. unfold escaped_char at 1.
      destruct (is_markdown c); cbn [ZWSP app].
      * destruct before as [|b' before]; intros E; cbn [app] in E;
          injection E as _ _ E.
        -- exact (escaped_head _ _ E).
        -- exact (IH _ E).
      * intros E. cbn [app] in E. injection E as _ E. exact (IH _ E).
Qed.

Lemma escaped_no_fence (line : pystr) :
  ~ occurs (lit "```") (escape_markdown line).
Proof.
  intros (before & after & E). rewrite escape_markdown_chars in E.
  exact (escaped_no_pair line before (96%N :: after) E).
Qed.

Lemma visible_app (s t : pystr) : visible (s ++ t) = visible s ++ visible t.
Proof. apply filter_app. Qed.

Lemma visible_escaped (line : pystr) :
  visible (escape_markdown line) = visible line.
Proof.
  rewrite escape_markdown_chars.
  induction line as [|c line IH]; [reflexivity|].
  cbn [flat_map]. rewrite visible_app, IH.
  change (c :: line) with ([c] ++ line). rewrite (visible_app [c]). f_equal.
  unfold escaped_char. destruct (is_markdown c); [|reflexivity].
  unfold ZWSP, visible. cbn [app].
  rewrite filter_cons_False by (intros Hn; apply Hn; reflexivity). reflexivity.
Qed.

Section Source.
Context `{Host}.

(** X14. When the command is known and its source can be read, [jsk source]
    sends one interface owned by the author and nothing else.  The lines
    shown are the source lines in order, each with a zero-width space put
    before every backtick, asterisk, bar, greater-than sign and underscore;
    so no line shown holds three backticks in a row, and taking the
    zero-width spaces out gives the source line back (up to the zero-width
    spaces of its own). *)
Theorem jsk_source_shows (c : Context) (command_name command : pystr)
    (source_lines : list pystr) (w : World) :
  get_command_source (bot (cog w)) command_name
    = Some (command, Some source_lines) ->
  let lines := split_on 10%N (concat source_lines) in
  exists p,
    jsk_source c command_name w = (Ret tt, present w (Interface p (ctx_author c)))
    /\ concat (page_lines p) = map (flat_map escaped_char) lines
    /\ Forall (fun shown => ~ occurs (lit "```") shown) (concat (page_lines p))
    /\ map visible (concat (page_lines p)) = map visible lines.
Proof.
  intros Hsrc lines.
  assert (Hfold : forall ls p,
            fold_left (fun p line => add_line p (escape_markdown line)) ls p
            = fold_left add_line (map escape_markdown ls) p).
  { induction ls as [|l ls IH]; intros p; [reflexivity|]. simpl. apply IH. }
  exists (fold_left add_line (map escape_markdown lines) jsk_source_paginator).
  assert (Hshown : concat (page_lines
            (fold_left add_line (map escape_markdown lines) jsk_source_paginator))
          = map escape_markdown lines).
  { rewrite add_lines_concat. reflexivity. }
  split; [|split; [|split]].
  - unfold jsk_source, bind, get_cog. rewrite Hsrc. cbv zeta.
    fold lines. rewrite Hfold. reflexivity.
  - rewrite Hshown. apply map_ext. intros line. apply escape_markdown_chars.
  - rewrite Hshown. apply List.Forall_forall. intros shown Hin.
    apply in_map_iff in Hin as (line & <- & _). apply escaped_no_fence.
  - rewrite Hshown, map_map. apply map_ext. intros line. apply visible_escaped.
Qed.

End Source.

(** X14 for a command whose source is one line, [def f(a_b): return `x`]. *)
Lemma jsk_source_shows_witness :
  exists p,
    @jsk_source busy_host owner_ctx (lit "f") example_world
      = (Ret tt, present example_world (Interface p 1%nat))
    /\ map visible (concat (page_lines p)) = [lit "def f(a_b): return `x`"].
Proof.
  destruct (@jsk_source_shows busy_host owner_ctx (lit "f") (lit "f")
              [lit "def f(a_b): return `x`"] example_world eq_refl)
    as (p & Hrun & _ & _ & Hvisible).
  exists p. split; [exact Hrun | exact Hvisible].
Defined.

(** ** The list of voice clients *)

Section Voice.
Context `{Host}.

Lemma add_clients_lines (clients : list (pystr * Z * pystr)) (number : Z)
    (p : Paginator) :
  concat (page_lines (add_clients number clients p))
  = concat (page_lines p)
    ++ imap (fun i client => client_line (number + Z.of_nat i) client) clients.
Proof.
  revert number p. induction clients as [|client rest IH]; intros number p.
  - simpl. now rewrite app_nil_r.
  - cbn [add_clients imap]. rewrite IH.
    pose proof (add_lines_concat [client_line number client] p) as Hone.
    cbn [fold_left] in Hone. rewrite Hone, <- app_assoc. f_equal.
    cbn [app]. rewrite Z.add_0_r. f_equal.
    apply imap_ext. intros i x _. cbn. f_equal. lia.
Qed.

Lemma add_clients_current (clients : list (pystr * Z * pystr)) (number : Z)
    (p : Paginator) :
  clients <> [] \/ _current_page p <> [] ->
  _current_page (add_clients number clients p) <> [].
Proof.
  revert number p. induction clients as [|client rest IH]; intros number p Hne.
  - destruct Hne as [Hne|Hne]; [congruence | exact Hne].
  - cbn [add_clients]. apply IH. right. apply add_line_current_nonempty.
Qed.

(** X15. With no voice client [jsk voice clients] answers "No connected
    voice clients." and nothing else.  Otherwise it sends the pages of one
    paginator as plain messages, at least one, and the lines on them are
    the voice clients in the order of [bot.voice_clients], numbered from 1
    without gaps.  The cog is left as it was. *)
Theorem jsk_vc_clients_numbered (c : Context) (w : World) :
  let clients := voice_clients (bot (cog w)) in
  (clients = [] ->
     jsk_vc_clients c w = (Ret tt, say w (lit "No connected voice clients.")))
  /\ (clients <> [] ->
      exists p w',
        jsk_vc_clients c w = (Ret tt, w')
        /\ cog w' = cog w
        /\ outbox w' = outbox w ++ map Message (pages p)
        /\ pages p <> []
        /\ concat (page_lines p)
           = imap (fun i client => client_line (Z.of_nat i + 1) client) clients).
Proof.
  intros clients. split.
  - intros Hnone. unfold jsk_vc_clients, bind, get_cog.
    fold clients. rewrite Hnone. reflexivity.
  - intros Hsome.
    set (p := add_clients 1 clients jsk_vc_clients_paginator).
    assert (Hcur : _current_page p <> []) by (apply add_clients_current; auto).
    assert (Hpages : pages p <> []).
    { unfold pages, page_lines. destruct (_current_page p); [congruence|].
      rewrite map_app. intros E. apply app_eq_nil in E as [_ E]. discriminate E. }
    destruct (for_each_send (pages p) w) as (w' & Hrun & Hcog & Hout).
    exists p, w'. split; [|split; [|split; [|split]]]; auto.
    + unfold jsk_vc_clients, bind, get_cog. fold clients. fold p.
      destruct (pages p) as [|page rest] eqn:E; [congruence|]. exact Hrun.
    + unfold p. rewrite add_clients_lines. cbn [app].
      apply imap_ext. intros i x _. cbn. f_equal. lia.
Qed.

End Voice.

(** X15 for a bot connected to two voice channels. *)
Lemma jsk_vc_clients_numbered_witness :
  exists p w',
    @jsk_vc_clients busy_host owner_ctx example_world = (Ret tt, w')
    /\ outbox w' = outbox example_world ++ map Message (pages p)
    /\ concat (page_lines p)
       = [lit "1. General (7, Guild)"; lit "2. Music (8, Other)"].
Proof.
  destruct (proj2 (@jsk_vc_clients_numbered busy_host owner_ctx example_world)
              ltac:(discriminate))
    as (p & w' & Hrun & _ & Hout & _ & Hlines).
  exists p, w'. split; [exact Hrun|]. split; [exact Hout | exact Hlines].
Defined.

(** ** Switching the help command *)

Lemma toggled_snoc (flags : list bool) (minimal : bool) (b : HelpBot) :
  toggled (flags ++ [minimal]) b = fst (jsk_help_toggle (toggled flags b) minimal).
Proof. unfold toggled. rewrite fold_left_app. reflexivity. Qed.

(** X16. After a cog was constructed on a bot with help command [original],
    any series of [jsk embedhelp] invocations leaves [old_help_command] at
    [original].  When [original] is not one of the embedded help commands,
    the help command is [original] after an even number of invocations and
    a newly constructed embedded one, minimal or not as the last invocation
    asked, after an odd number.  When [original] is itself an embedded help
    command, the help command stays [original] whatever is invoked. *)
Theorem jsk_help_toggle_alternates (original : HelpCommand) (n : nat)
    (flags : list bool) :
  let b := toggled flags (init_help original n) in
  old_help_command b = original
  /\ if is_embedded original || Nat.even (length flags)
     then help_command b = original
     else exists instance,
            (n <= instance)%nat
            /\ help_command b
               = if List.last flags true
                 then MinimalEmbedPaginatorHelp instance
                 else DefaultEmbedPaginatorHelp instance.
Proof.
  cbv zeta.
  assert (Hcount : forall flags,
            (n <= constructed (toggled flags (init_help original n)))%nat).
  { intros fl. induction fl as [|minimal fl IH] using rev_ind; [simpl; lia|].
    rewrite toggled_snoc. unfold jsk_help_toggle.
    destruct (is_embedded _); [exact IH|]. destruct minimal; simpl; lia. }
  induction flags as [|minimal flags IH] using rev_ind.
  - simpl. rewrite orb_true_r. auto.
  - rewrite toggled_snoc, length_app, Nat.add_1_r, Nat.even_succ,
      <- Nat.negb_even, last_last.
    specialize (Hcount flags).
    destruct IH as [Hold Hcur].
    set (b := toggled flags (init_help original n)) in *.
    unfold jsk_help_toggle.
    destruct (is_embedded original) eqn:Eorig; cbn [orb] in *.
    + rewrite Hcur, Eorig. cbn. auto.
    + destruct (Nat.even (length flags)); cbn [negb].
      * rewrite Hcur, Eorig.
        destruct minimal; cbn; (split; [reflexivity|]);
          exists (constructed b); auto.
      * destruct Hcur as (instance & _ & Hcur). rewrite Hcur.
        destruct (List.last flags true); cbn; auto.
Qed.

(** ** The REPL prefix *)

Lemma keeps_prefix_submit {A} (c : Context) (t : Task) (body : CommandTask -> Cmd A) :
  (forall x, keeps SCOPE_PREFIX (body x)) -> keeps SCOPE_PREFIX (submit c t body).
Proof.
  intros Hbody. unfold submit. apply keeps_bind.
  - intros w o w' E. unfold submit_enter, bind, get_cog, put_cog, ret in E.
    inversion E; subst. reflexivity.
  - intros x. apply keeps_try_finally; [apply Hbody|].
    intros w o w' E. unfold submit_exit, bind, get_cog, put_cog, ret in E.
    destruct (bool_decide _); inversion E; subst; reflexivity.
Qed.

Section Prefix.
Context `{Host}.

Lemma keeps_prefix_jsk_python_result (c : Context) (result : Value) :
  keeps SCOPE_PREFIX (jsk_python_result c result).
Proof.
  unfold jsk_python_result.
  destruct result; try apply keeps_ret;
    apply (keeps_update SCOPE_PREFIX (fun self => set_last_result self _));
    try (intros; reflexivity); intros self;
    try apply keeps_send;
    repeat match goal with
           | |- keeps _ (if ?b then _ else _) => destruct b
           | |- keeps _ (send _) => apply keeps_send
           end.
Qed.

Lemma keeps_prefix_jsk_python_inspect_result (c : Context) (result : Value) :
  keeps SCOPE_PREFIX (jsk_python_inspect_result c result).
Proof.
  unfold jsk_python_inspect_result.
  apply (keeps_update SCOPE_PREFIX (fun self => set_last_result self result)).
  - intros; reflexivity.
  - intros self. apply keeps_send.
Qed.

Lemma keeps_prefix_jsk_python (c : Context) (t : Task) (code : pystr) :
  keeps SCOPE_PREFIX (jsk_python c t code).
Proof.
  unfold jsk_python. apply keeps_get_cog_bind. intros self. cbv zeta.
  apply keeps_bind; [apply keeps_scope|]. intros r.
  apply keeps_try_finally; [|apply keeps_scope_clear_intersection].
  unfold jsk_python_try. apply keeps_bind; [|intros; apply keeps_ret].
  apply keeps_ReplResponseReactor, keeps_prefix_submit. intros _.
  apply keeps_run_executor, keeps_prefix_jsk_python_result.
Qed.

Lemma keeps_prefix_jsk_python_inspect (c : Context) (t : Task) (code : pystr) :
  keeps SCOPE_PREFIX (jsk_python_inspect c t code).
Proof.
  unfold jsk_python_inspect. apply keeps_get_cog_bind. intros self. cbv zeta.
  apply keeps_bind; [apply keeps_scope|]. intros r.
  apply keeps_try_finally; [|apply keeps_scope_clear_intersection].
  unfold jsk_python_inspect_try. apply keeps_bind; [|intros; apply keeps_ret].
  apply keeps_ReplResponseReactor, keeps_prefix_submit. intros _.
  apply keeps_run_executor, keeps_prefix_jsk_python_inspect_result.
Qed.

Lemma keeps_prefix_jsk_retain (c : Context) (toggle : option bool) :
  keeps SCOPE_PREFIX (jsk_retain c toggle).
Proof.
  intros w o w' E.
  unfold jsk_retain, bind, get_cog, put_cog, new_scope, send in E.
  destruct toggle as [[|]|]; destruct (retain (cog w));
    inversion E; subst; reflexivity.
Qed.

Lemma run_repl_prefix (ops : list ReplOp) (w : World) :
  SCOPE_PREFIX (cog (run_repl ops w)) = SCOPE_PREFIX (cog w).
Proof.
  unfold run_repl. revert w. induction ops as [|op ops IH]; intros w; [reflexivity|].
  cbn [fold_left]. rewrite IH. destruct op as [c toggle|c t code|c t code]; cbn [apply_repl].
  - destruct (jsk_retain c toggle w) as [o w'] eqn:E.
    exact (keeps_prefix_jsk_retain c toggle w o w' E).
  - destruct (jsk_python c t code w) as [o w'] eqn:E.
    exact (keeps_prefix_jsk_python c t code w o w' E).
  - destruct (jsk_python_inspect c t code w) as [o w'] eqn:E.
    exact (keeps_prefix_jsk_python_inspect c t code w o w' E).
Qed.

(** X17. [jsk prefixrepl] with an argument answers "Done." and changes the
    prefix of the cog and nothing else: [True] stands for an underscore,
    [False] for no prefix, a string for itself.  The prefix then stays
    through any series of [jsk retain], [jsk py] and [jsk py_inspect]
    invocations: after them the variables injected into the REPL are those
    [get_var_dict_from_ctx] gives for that prefix, with [_] bound to the
    last result, and [jsk prefixrepl] without argument still reports it. *)
Theorem jsk_prefix_repl_lasts (c c' : Context) (toggle : bool + pystr)
    (ops : list ReplOp) (w : World) :
  let w' := snd (jsk_prefix_repl c (Some toggle) w) in
  let later := run_repl ops w' in
  jsk_prefix_repl c (Some toggle) w = (Ret tt, w')
  /\ cog w' = set_SCOPE_PREFIX (cog w) (prefix_of toggle)
  /\ heap w' = heap w
  /\ cancelled w' = cancelled w
  /\ outbox w' = outbox w ++ [Message (lit "Done.")]
  /\ SCOPE_PREFIX (cog later) = prefix_of toggle
  /\ make_arg_dict (cog later) c'
     = <[lit "_" := last_result (cog later)]>
         (get_var_dict_from_ctx c' (prefix_of toggle))
  /\ jsk_prefix_repl c' None later
     = (Ret tt, say later (lit "Prefix: " ++ prefix_of toggle)).
Proof.
  intros w' later.
  assert (Hset : cog w' = set_SCOPE_PREFIX (cog w) (prefix_of toggle))
    by (destruct toggle as [[|]|s]; reflexivity).
  assert (Hlater : SCOPE_PREFIX (cog later) = prefix_of toggle).
  { unfold later. rewrite run_repl_prefix, Hset. reflexivity. }
  split; [destruct toggle as [[|]|s]; reflexivity|].
  split; [exact Hset|].
  split; [destruct toggle as [[|]|s]; reflexivity|].
  split; [destruct toggle as [[|]|s]; reflexivity|].
  split; [destruct toggle as [[|]|s]; reflexivity|].
  split; [exact Hlater|].
  split.
  - unfold make_arg_dict. rewrite Hlater. reflexivity.
  - unfold jsk_prefix_repl, bind, get_cog. rewrite Hlater. reflexivity.
Qed.

End Prefix.

(** ** Repeating a command *)

Lemma submit_nothing (c : Context) (t : Task) (w : World) :
  counted (cog w) ->
  submit c t (fun _ => ret tt) w = (Ret tt, counted_once w).
Proof.
  intros Hc.
  rewrite (submit_releases c t (fun _ => ret tt) w (Ret tt)
             (snd (submit_enter c t w)) eq_refl).
  f_equal. cbn [apply_op].
  pose proof (counted_fresh c t w Hc) as Hfresh.
  unfold submit_exit, submit_enter, bind, get_cog, put_cog, ret.
  cbn [snd fst cog set_tasks set_task_count tasks task_count].
  rewrite bool_decide_eq_true_2.
  2:{ apply list_elem_of_In, in_or_app. right. left. reflexivity. }
  unfold counted_once, set_tasks, set_task_count.
  cbn [cog heap outbox cancelled bot _scope retain last_result tasks task_count
       SCOPE_PREFIX].
  fold (submitted c t w). rewrite (deque_remove_snoc _ _ Hfresh). reflexivity.
Qed.

Section Repeat.
Context `{Dispatcher}.

Lemma keeps_repeat_loop (c : Context) (command_string : pystr) (n : nat) :
  keeps registry (copy_context_with c command_string) ->
  (forall command, keeps registry (reinvoke command)) ->
  keeps registry (repeat_loop c command_string n).
Proof.
  intros Hlookup Hrun. induction n as [|n IH]; cbn [repeat_loop].
  - apply keeps_ret.
  - apply keeps_bind; [exact Hlookup|]. intros [invoked_with [command|]]; cbn [snd fst].
    + apply keeps_bind; [apply Hrun | intros _; exact IH].
    + apply keeps_send.
Qed.

(** X18. When looking a command up and running it leave the task registry
    alone, [jsk repeat] has released its task when it ends, however the
    runs went.  With a count below one it runs and sends nothing.  With
    count one it is [jsk sudo] run inside a task.  And when the first
    look-up finds no command, the loop ends there whatever the count: one
    "is not found" message is sent and the task is released. *)
Theorem jsk_repeat_behaviour (c : Context) (t : Task) (times : Z)
    (command_string : pystr) (w : World) :
  counted (cog w) ->
  keeps registry (copy_context_with c command_string) ->
  (forall command, keeps registry (reinvoke command)) ->
  one_task_later w (snd (jsk_repeat c t times command_string w))
  /\ (times <= 0 ->
      jsk_repeat c t times command_string w = (Ret tt, counted_once w))
  /\ jsk_repeat c t 1 command_string w
     = submit c t (fun _ => jsk_sudo c command_string) w
  /\ (forall invoked_with w1,
        copy_context_with c command_string (snd (submit_enter c t w))
          = (Ret (invoked_with, None), w1) ->
        1 <= times ->
        jsk_repeat c t times command_string w
        = (Ret tt, apply_op (present w1 (not_found invoked_with))
                            (OpRelease (submitted c t w)))).
Proof.
  intros Hc Hlookup Hrun. split; [|split; [|split]].
  - destruct (jsk_repeat c t times command_string w) as [o w'] eqn:E.
    unfold jsk_repeat in E.
    refine (submit_one_task_later c t _ _ w o w' Hc E).
    intros _. apply keeps_repeat_loop; assumption.
  - intros Hle. unfold jsk_repeat.
    replace (Z.to_nat times) with 0%nat by lia.
    apply submit_nothing, Hc.
  - unfold jsk_repeat.
    destruct (jsk_sudo c command_string (snd (submit_enter c t w))) as [o w2] eqn:E.
    rewrite (submit_releases c t (fun _ => jsk_sudo c command_string) w o w2 E).
    apply submit_releases.
    change (Z.to_nat 1) with 1%nat. cbn [repeat_loop].
    unfold jsk_sudo, bind in E. unfold bind.
    destruct (copy_context_with c command_string _)
      as [[[invoked_with [command|]]|e] w1]; cbn [snd fst] in *;
      try exact E.
    destruct (reinvoke command w1) as [[[]|e] w3]; exact E.
  - intros invoked_with w1 Hnone Hpos. unfold jsk_repeat.
    apply submit_releases.
    destruct (Z.to_nat times) as [|n] eqn:En; [lia|].
    cbn [repeat_loop]. unfold bind. rewrite Hnone. reflexivity.
Qed.

(** X19. When the look-up finds the same command every time and does
    nothing else, [jsk repeat] is that command run [times] times in a row
    inside one task: a run that raises ends the series, and the task is
    released either way. *)
Theorem jsk_repeat_runs (c : Context) (t : Task) (times : Z)
    (command_string : pystr) (invoked_with : option pystr)
    (command : BoundCommand) (w : World) :
  (forall w0, copy_context_with c command_string w0
              = (Ret (invoked_with, Some command), w0)) ->
  let runs := for_each (repeat command (Z.to_nat times)) reinvoke in
  jsk_repeat c t times command_string w = submit c t (fun _ => runs) w
  /\ jsk_repeat c t times command_string w
     = (fst (runs (snd (submit_enter c t w))),
        apply_op (snd (runs (snd (submit_enter c t w))))
                 (OpRelease (submitted c t w))).
Proof.
  intros Hfound runs.
  assert (Hloop : forall n w0,
            repeat_loop c command_string n w0
            = for_each (repeat command n) reinvoke w0).
  { induction n as [|n IH]; intros w0; [reflexivity|].
    cbn [repeat_loop repeat for_each]. unfold bind at 1. rewrite Hfound.
    cbn [snd fst]. unfold bind.
    destruct (reinvoke command w0) as [[[]|e] w1]; [apply IH | reflexivity]. }
  assert (Hsame : jsk_repeat c t times command_string w
                  = submit c t (fun _ => runs) w).
  { unfold jsk_repeat.
    destruct (runs (snd (submit_enter c t w))) as [o w2] eqn:E.
    rewrite (submit_releases c t (fun _ => runs) w o w2 E).
    apply submit_releases. rewrite Hloop. exact E. }
  split; [exact Hsame|].
  rewrite Hsame. apply submit_releases.
  destruct (runs _); reflexivity.
Qed.

End Repeat.

(** X19 for a framework whose command [ping] answers [pong]: three runs,
    three answers. *)
Lemma jsk_repeat_runs_witness :
  outbox (snd (@jsk_repeat example_dispatcher owner_ctx 5%nat 3 (lit "ping")
                 example_world))
  = [Message (lit "pong"); Message (lit "pong"); Message (lit "pong")].
Proof.
  rewrite (proj2 (@jsk_repeat_runs example_dispatcher owner_ctx 5%nat 3
                    (lit "ping") (Some (lit "ping")) tt example_world
                    (fun w0 => eq_refl))).
  reflexivity.
Defined.

(** X18 for a framework that knows only [ping]: repeating the unknown
    [pong] three times sends one message and leaves no task behind. *)
Lemma jsk_repeat_behaviour_witness :
  one_task_later example_world
    (snd (@jsk_repeat example_dispatcher owner_ctx 5%nat 3 (lit "pong") example_world))
  /\ outbox (snd (@jsk_repeat example_dispatcher owner_ctx 5%nat 3 (lit "pong")
                    example_world))
     = [not_found (Some (lit "pong"))].
Proof.
  assert (Hc : counted (cog example_world)) by constructor.
  assert (Hlookup : forall s,
            keeps registry (@copy_context_with example_dispatcher owner_ctx s)).
  { intros s. apply keeps_ret. }
  assert (Hrun : forall command,
            keeps registry (@reinvoke example_dispatcher command)).
  { intros command. apply keeps_send. }
  pose proof (@jsk_repeat_behaviour example_dispatcher owner_ctx 5%nat 3
                (lit "pong") example_world Hc (Hlookup _) Hrun)
    as (Hlater & _ & _ & Hnone).
  split; [exact Hlater|].
  rewrite (Hnone (Some (lit "pong")) _ eq_refl ltac:(lia)). reflexivity.
Defined.

(** ** The URL played by [jsk voice youtube_dl] *)

Lemma split_on_snoc (sep : N) (front last : pystr) :
  sep ∉ last ->
  split_on sep (front ++ sep :: last) = split_on sep front ++ [last].
Proof.
  intros Hlast. induction front as [|c front IH].
  - simpl. rewrite N.eqb_refl, split_on_absent by assumption. reflexivity.
  - change ((c :: front) ++ sep :: last) with (c :: (front ++ sep :: last)).
    cbn [split_on]. rewrite IH. destruct (N.eqb c sep); [reflexivity|].
    pose proof (split_on_nonempty sep front) as Hne.
    destruct (split_on sep front) as [|w ws]; [congruence | reflexivity].
Qed.

Lemma split_on_hd (sep : N) (s : pystr) :
  (sep ∉ hd [] (split_on sep s))
  /\ (s = hd [] (split_on sep s)
      \/ exists rest, s = hd [] (split_on sep s) ++ sep :: rest).
Proof.
  induction s as [|c s IH].
  - simpl. split; [apply not_elem_of_nil | left; reflexivity].
  - cbn [split_on]. destruct (N.eqb_spec c sep) as [->|Hc].
    + simpl. split; [apply not_elem_of_nil | right; eauto].
    + pose proof (split_on_nonempty sep s) as Hne.
      destruct (split_on sep s) as [|w ws]; [congruence|].
      cbn [hd] in *. destruct IH as [Hw Hs]. split.
      * intros Hin. apply elem_of_cons in Hin as [Hin|Hin]; [congruence | tauto].
      * destruct Hs as [->|(rest & ->)]; [left | right; exists rest]; reflexivity.
Qed.

(** X20. The URL [jsk voice youtube_dl] plays is the URL given without its
    embed maskers when that holds no [&], or when the text after its last
    [&] does not start with [index=].  When that text does start with
    [index=], the URL played is the part before the first [&], so every
    parameter after the first is dropped along with the index. *)
Theorem youtube_dl_url_spec (url : pystr) :
  (38%N ∉ unmask url -> youtube_dl_url url = unmask url)
  /\ (forall front last,
        unmask url = front ++ 38%N :: last -> 38%N ∉ last ->
        (startswith last (lit "index=") = false ->
           youtube_dl_url url = unmask url)
        /\ (startswith last (lit "index=") = true ->
              (38%N ∉ youtube_dl_url url)
              /\ exists rest, unmask url = youtube_dl_url url ++ 38%N :: rest)).
Proof.
  split.
  - intros Hno. unfold youtube_dl_url. cbv zeta.
    rewrite (split_on_absent _ _ Hno). reflexivity.
  - intros front last Hu Hlast.
    assert (Hsplit : split_on 38%N (unmask url) = split_on 38%N front ++ [last])
      by (rewrite Hu; apply split_on_snoc, Hlast).
    pose proof (split_on_nonempty 38%N front) as Hne.
    pose proof (split_on_hd 38%N front) as [Hhd Hfront].
    destruct (split_on 38%N front) as [|head others] eqn:Efront; [congruence|].
    cbn [hd] in Hhd, Hfront.
    assert (Hcond : youtube_dl_url url
                    = if startswith last (lit "index=") then head else unmask url).
    { unfold youtube_dl_url. cbv zeta. rewrite Hsplit, last_last.
      cbn [app hd length]. rewrite length_app. cbn [length].
      replace (1 <? S (length others + 1))%nat with true
        by (symmetry; apply Nat.ltb_lt; lia).
      reflexivity. }
    split; intros Hstart; rewrite Hcond, Hstart; [reflexivity|].
    split; [exact Hhd|].
    rewrite Hu. destruct Hfront as [->|(rest & ->)].
    + exists last. reflexivity.
    + exists (rest ++ 38%N :: last). rewrite <- app_assoc. reflexivity.
Qed.

(** X20 for a masked playlist link and for a link with the index in the
    middle. *)
Lemma youtube_dl_url_spec_witness :
  (exists rest,
     lit "v=a&list=b&index=2" = youtube_dl_url (lit "<v=a&list=b&index=2>")
                                ++ 38%N :: rest)
  /\ youtube_dl_url (lit "v=a&index=2&list=b") = lit "v=a&index=2&list=b".
Proof.
  split.
  - refine (proj2 (proj2 (proj2 (youtube_dl_url_spec (lit "<v=a&list=b&index=2>"))
                            (lit "v=a&list=b") (lit "index=2") eq_refl _) eq_refl)).
    intros Hin. vm_compute in Hin.
    repeat (apply elem_of_cons in Hin as [Hin|Hin]; [discriminate Hin|]).
    inversion Hin.
  - refine (proj1 (proj2 (youtube_dl_url_spec (lit "v=a&index=2&list=b"))
                     (lit "v=a&index=2") (lit "list=b") eq_refl _) eq_refl).
    intros Hin. vm_compute in Hin.
    repeat (apply elem_of_cons in Hin as [Hin|Hin]; [discriminate Hin|]).
    inversion Hin.
Defined.

(** ** When [jsk load] and [jsk unload] stay silent *)

Lemma add_lines_pages (lines : list pystr) (p : Paginator) :
  lines <> [] -> pages (fold_left add_line lines p) <> [].
Proof.
  destruct lines as [|l lines _] using rev_ind; [congruence|]. intros _.
  rewrite fold_left_app. cbn [fold_left].
  pose proof (add_line_current_nonempty (fold_left add_line lines p) l) as Hcur.
  unfold pages, page_lines.
  destruct (_current_page _); [congruence|].
  rewrite map_app. intros E. apply app_eq_nil in E as [_ E]. discriminate E.
Qed.

Lemma outbox_grows (before more : list Sent) :
  before ++ more = before <-> more = [].
Proof.
  split; [|intros ->; apply app_nil_r].
  intros E. apply (app_inv_head before). rewrite app_nil_r. exact E.
Qed.

Section Silent.
Context `{Host}.

(** X21. [jsk load] and [jsk unload] send something exactly when the
    arguments resolve to at least one extension name.  So a wildcard whose
    directory does not exist, such as a mistyped package, gets no answer at
    all, and the command leaves everything as it was. *)
Theorem jsk_load_silent (c : Context) (exts : list (list pystr)) (w : World) :
  (outbox (snd (jsk_load c exts w)) = outbox w <-> concat exts = [])
  /\ (outbox (snd (jsk_unload c exts w)) = outbox w <-> concat exts = [])
  /\ (forall fs names,
        Forall (fun name => endswith name (lit ".*") = true
                            /\ is_dir fs (pattern_path name) = false) names ->
        let resolved := map (resolve_extensions fs (bot (cog w))) names in
        jsk_load c resolved w = (Ret tt, w)
        /\ jsk_unload c resolved w = (Ret tt, w)).
Proof.
  split; [|split].
  - destruct (jsk_load_loop (concat exts) report_paginator w)
      as (lines & w1 & Hrun & Hatt & Hout).
    destruct (for_each_send (pages (fold_left add_line lines report_paginator)) w1)
      as (w2 & Hsend & _ & Hout2).
    assert (Hlen : length lines = length (concat exts))
      by (eapply Attempted_length; eauto).
    unfold jsk_load, bind. fold (jsk_load_report exts) in Hrun.
    rewrite Hrun, Hsend. cbn [snd]. rewrite Hout2, Hout, outbox_grows.
    split.
    + intros E. apply map_eq_nil in E.
      destruct lines as [|l lines].
      * destruct (concat exts); [reflexivity | discriminate Hlen].
      * exfalso. exact (add_lines_pages (l :: lines) _ ltac:(discriminate) E).
    + intros E. rewrite E in Hlen. destruct lines; [reflexivity | discriminate Hlen].
  - destruct (jsk_unload_loop (concat exts) report_paginator w)
      as (lines & w1 & Hrun & Hatt & Hout).
    destruct (for_each_send (pages (fold_left add_line lines report_paginator)) w1)
      as (w2 & Hsend & _ & Hout2).
    assert (Hlen : length lines = length (concat exts))
      by (eapply Attempted_length; eauto).
    unfold jsk_unload, bind. fold (jsk_unload_report exts) in Hrun.
    rewrite Hrun, Hsend. cbn [snd]. rewrite Hout2, Hout, outbox_grows.
    split.
    + intros E. apply map_eq_nil in E.
      destruct lines as [|l lines].
      * destruct (concat exts); [reflexivity | discriminate Hlen].
      * exfalso. exact (add_lines_pages (l :: lines) _ ltac:(discriminate) E).
    + intros E. rewrite E in Hlen. destruct lines; [reflexivity | discriminate Hlen].
  - intros fs names Hall resolved.
    assert (Hnone : concat resolved = []).
    { unfold resolved. induction Hall as [|name names [Hwild Hdir] _ IH]; [reflexivity|].
      cbn [map concat]. rewrite IH, app_nil_r.
      unfold resolve_extensions, find_extensions_in. rewrite Hwild, Hdir. reflexivity. }
    unfold jsk_load, jsk_unload, jsk_load_report, jsk_unload_report.
    rewrite Hnone. split; reflexivity.
Qed.

End Silent.

(** X21 on the example tree, which has no directory [cogs]. *)
Lemma jsk_load_silent_witness :
  @jsk_load example_host owner_ctx
     [resolve_extensions example_fs example_bot (lit "cogs.*")] example_world
  = (Ret tt, example_world).
Proof.
  refine (proj1 (proj2 (proj2 (@jsk_load_silent example_host owner_ctx [] example_world))
                   example_fs [lit "cogs.*"] _)).
  constructor; [split; reflexivity | constructor].
Defined.
